(** * fide-ratings-utils: the fixed-width parser of [src/index.mjs]

    A shallow embedding of the rating-list splitter: the column layout
    extractor (the [colRegex] scan), the row decoder with its compound
    columns, the federation partitioner, the CSV emitter, [formatBytes]
    and the control flow of [processFideRatings] / [generateIndexHtml] /
    [main].

    JavaScript strings are sequences of UTF-16 code units; a code unit is
    modelled as a number of type [N], a string as a list of them.  Literals
    are written [js "..."].  Code that may throw returns a [result]; an
    object used as a map is the list of its own properties in creation
    order; the network, the file system, the archive and Parquet writers
    and the page template are parameters of the run, which records what
    it writes as a trace of events. *)

From Stdlib Require Import Ascii String.
From Stdlib Require Import List NArith ZArith Bool Lia.
From Stdlib Require Import Sorting.Sorted Sorting.Permutation.
From Stdlib Require Import DecimalString.
Import ListNotations.

(** ** JavaScript strings *)

Abbreviation char := N (only parsing).
Abbreviation jsstring := (list N) (only parsing).

Definition js (s : string) : jsstring :=
  map N_of_ascii (list_ascii_of_string s).

Definition char_eqb (a b : char) : bool := N.eqb a b.

Fixpoint str_eqb (a b : jsstring) : bool :=
  match a, b with
  | [], [] => true
  | x :: a', y :: b' => char_eqb x y && str_eqb a' b'
  | _, _ => false
  end.

Definition SPACE : char := 32%N.
Definition TAB : char := 9%N.
Definition COMMA : char := 44%N.
Definition DQUOTE : char := 34%N.
Definition NEWLINE : char := 10%N.
Definition DOT : char := 46%N.

Definition is_space (c : char) : bool := char_eqb c SPACE.

(** The regular expression class [\s], which is also what
    [String.prototype.trim] strips: WhiteSpace and LineTerminator of
    ECMAScript (TAB, LF, VT, FF, CR, SP, NBSP, U+1680, U+2000..U+200A,
    U+2028, U+2029, U+202F, U+205F, U+3000, U+FEFF). *)
Definition is_ws (c : char) : bool :=
  ((9 <=? c) && (c <=? 13) || (c =? 32) || (c =? 160) || (c =? 5760)
   || (8192 <=? c) && (c <=? 8202) || (c =? 8232) || (c =? 8233)
   || (c =? 8239) || (c =? 8287) || (c =? 12288) || (c =? 65279))%N.

(** [s.length] *)
Definition len (s : jsstring) : Z := Z.of_nat (length s).

(** [s.substring(start, end)]: an [undefined] bound is [None]; [start]
    undefined is 0 and [end] undefined is the length; both are clamped to
    [0, length] and swapped when [start > end]. *)
Definition clamp (n : Z) (s : jsstring) : Z := Z.min (Z.max n 0) (len s).

Definition substring (s : jsstring) (start end_ : option Z) : jsstring :=
  let intStart := match start with Some n => n | None => 0%Z end in
  let intEnd := match end_ with Some n => n | None => len s end in
  let finalStart := clamp intStart s in
  let finalEnd := clamp intEnd s in
  let from := Z.min finalStart finalEnd in
  let to := Z.max finalStart finalEnd in
  firstn (Z.to_nat (to - from)) (skipn (Z.to_nat from) s).

Fixpoint trimStart (s : jsstring) : jsstring :=
  match s with
  | [] => []
  | c :: r => if is_ws c then trimStart r else s
  end.

Definition trimEnd (s : jsstring) : jsstring := rev (trimStart (rev s)).

(** [s.trim()] *)
Definition trim (s : jsstring) : jsstring := trimEnd (trimStart s).

(** [s.startsWith(p)] *)
Fixpoint startsWith (p s : jsstring) : bool :=
  match p, s with
  | [], _ => true
  | x :: p', y :: s' => char_eqb x y && startsWith p' s'
  | _ :: _, [] => false
  end.

(** [s.indexOf(p)]: the first position where [p] starts, or -1. *)
Fixpoint indexOf_from (p s : jsstring) (pos : Z) : Z :=
  if startsWith p s then pos
  else match s with
       | [] => (-1)%Z
       | _ :: r => indexOf_from p r (pos + 1)
       end.

Definition indexOf (p s : jsstring) : Z := indexOf_from p s 0.

(** [s.includes(p)] *)
Fixpoint includes (p s : jsstring) : bool :=
  startsWith p s || match s with [] => false | _ :: r => includes p r end.

(** [arr.join(sep)] on an array of strings *)
Fixpoint join (sep : jsstring) (l : list jsstring) : jsstring :=
  match l with
  | [] => []
  | [x] => x
  | x :: r => x ++ sep ++ join sep r
  end.

(** [s.split(/\s+/)]: the string is cut at every maximal run of
    whitespace; a leading (trailing) run leaves an empty first (last)
    piece, and the empty string splits into one empty piece. [cur] is
    the piece being read, reversed; [insep] says that the previous
    character belonged to a separator. *)
Fixpoint split_ws_go (insep : bool) (cur : jsstring) (s : jsstring)
  : list jsstring :=
  match s with
  | [] => [rev cur]
  | c :: r =>
      if is_ws c then
        if insep then split_ws_go true cur r
        else rev cur :: split_ws_go true [] r
      else split_ws_go false (c :: cur) r
  end.

Definition split_ws (s : jsstring) : list jsstring := split_ws_go false [] s.

(** ** JavaScript values, exceptions and objects *)

Inductive jsval :=
| VUndefined
| VStr (s : jsstring).

(** [a || b]: [undefined] and the empty string are falsy. *)
Definition js_or (a : jsval) (b : jsval) : jsval :=
  match a with
  | VUndefined => b
  | VStr [] => b
  | VStr _ => a
  end.

(** [arr[i]] on an array of strings *)
Definition at_index (l : list jsstring) (i : nat) : jsval :=
  match nth_error l i with
  | Some s => VStr s
  | None => VUndefined
  end.

Inductive error :=
| TypeError        (* a method called on undefined or on a non-array *)
| DownloadFailed   (* Failed to download: the response was not ok *)
| NoTxtInZip       (* No .txt file found in ZIP *)
| FetchRejected    (* the promise of fetch was rejected *)
| FsRejected       (* a call of fs or of the archive writer threw *)
| TemplateFailed   (* the page template could not be read or compiled *)
| LoopBound.       (* the bound of a modelled loop was exhausted *)

(** The outcome of a computation that may throw.  An exception that is
    not caught ends the run; what was done before it is not kept. *)
Inductive result (A : Type) :=
| Ok (a : A)
| Throw (e : error).
Arguments Ok {A} a.
Arguments Throw {A} e.

Definition bind {A B} (m : result A) (f : A -> result B) : result B :=
  match m with
  | Ok a => f a
  | Throw e => Throw e
  end.

Notation "x <- m ;; k" := (bind m (fun x => k))
  (at level 61, m at next level, right associativity).

Fixpoint foldM {A S} (f : S -> A -> result S) (l : list A) (s : S)
  : result S :=
  match l with
  | [] => Ok s
  | a :: r => s' <- f s a ;; foldM f r s'
  end.

Fixpoint mapM {A B} (f : A -> result B) (l : list A) : result (list B) :=
  match l with
  | [] => Ok []
  | a :: r => b <- f a ;; bs <- mapM f r ;; Ok (b :: bs)
  end.

(** An object used as a map: its own properties in creation order.
    Assigning to an existing key keeps the key's place. *)
Definition obj (A : Type) := list (jsstring * A).

Fixpoint get_own {A} (o : obj A) (k : jsstring) : option A :=
  match o with
  | [] => None
  | (k', v) :: r => if str_eqb k' k then Some v else get_own r k
  end.

Fixpoint set_own {A} (o : obj A) (k : jsstring) (v : A) : obj A :=
  match o with
  | [] => [(k, v)]
  | (k', v') :: r =>
      if str_eqb k' k then (k', v) :: r else (k', v') :: set_own r k v
  end.

(** Property names every object literal inherits from [Object.prototype]. *)
Definition object_prototype_names : list jsstring :=
  map js ["constructor"; "hasOwnProperty"; "isPrototypeOf";
          "propertyIsEnumerable"; "toLocaleString"; "toString"; "valueOf";
          "__proto__"; "__defineGetter__"; "__defineSetter__";
          "__lookupGetter__"; "__lookupSetter__"]%string.

Definition inherited (k : jsstring) : bool :=
  existsb (str_eqb k) object_prototype_names.

(** Array indices: canonical decimal strings below 2^32 - 1.  The own
    keys of an object are listed with the array indices first, in
    ascending numeric order, then the other keys in creation order
    ([Object.keys], [Object.entries], [for ... of Object.entries]). *)
Definition is_digit (c : char) : bool := ((48 <=? c) && (c <=? 57))%N.

Fixpoint decimal_value (acc : N) (s : jsstring) : N :=
  match s with
  | [] => acc
  | c :: r => decimal_value (10 * acc + (c - 48)) r
  end.

Definition array_index (k : jsstring) : option N :=
  match k with
  | [] => None
  | c :: r =>
      if forallb is_digit k
         && (negb (char_eqb c 48%N) || match r with [] => true | _ => false end)
         && (decimal_value 0 k <? 4294967295)%N
      then Some (decimal_value 0 k)
      else None
  end.

Definition is_array_index (k : jsstring) : bool :=
  match array_index k with Some _ => true | None => false end.

Definition index_of_key (k : jsstring) : N :=
  match array_index k with Some n => n | None => 0%N end.

Fixpoint insert_by {B} (f : B -> N) (x : B) (l : list B) : list B :=
  match l with
  | [] => [x]
  | y :: r => if (f x <=? f y)%N then x :: l else y :: insert_by f x r
  end.

Definition sort_by {B} (f : B -> N) (l : list B) : list B :=
  fold_right (insert_by f) [] l.

Definition own_entries {A} (o : obj A) : list (jsstring * A) :=
  sort_by (fun e => index_of_key (fst e))
          (filter (fun e => is_array_index (fst e)) o)
  ++ filter (fun e => negb (is_array_index (fst e))) o.

Definition own_keys {A} (o : obj A) : list jsstring := map fst (own_entries o).

(** ** Column Layout Extractor (index.mjs, lines 90-98)

    [colRegex = /(\S[\S ]*?)(?=\s{2,}|$)/g], run with [exec] in a loop. *)

(** The lookahead [(?=\s{2,}|$)] at the rest [r] of the header. *)
Definition lookahead (r : jsstring) : bool :=
  match r with
  | [] => true
  | c1 :: c2 :: _ => is_ws c1 && is_ws c2
  | [_] => false
  end.

(** The class [[\S ]]. *)
Definition in_class (c : char) : bool := negb (is_ws c) || is_space c.

(** [[\S ]*?] followed by the lookahead: the lazy star first tries to
    stop, and takes one more character of the class only when the
    lookahead fails; a character outside the class makes the attempt
    fail.  The result is the number of characters the star takes. *)
Fixpoint lazy_star (r : jsstring) : option nat :=
  if lookahead r then Some 0
  else match r with
       | [] => None
       | c :: r' => if in_class c then option_map S (lazy_star r') else None
       end.

(** One attempt of the whole pattern at the start of [s]: the length of
    the match. *)
Definition match_at (s : jsstring) : option nat :=
  match s with
  | [] => None
  | c :: r => if is_ws c then None else option_map S (lazy_star r)
  end.

(** [exec] tries the start positions from [lastIndex] on, in order; [s]
    is the header from position [pos].  The result is [match.index] and
    the length of [match[0]] (which is [match[1]]). *)
Fixpoint exec_from (s : jsstring) (pos : nat) : option (nat * nat) :=
  match match_at s with
  | Some k => Some (pos, k)
  | None => match s with
            | [] => None
            | _ :: r => exec_from r (S pos)
            end
  end.

Definition exec (header : jsstring) (lastIndex : nat) : option (nat * nat) :=
  exec_from (skipn lastIndex header) lastIndex.

Record Layout := mkLayout {
  columns : list jsstring;
  colPositions : list Z
}.

(** The [while ((match = colRegex.exec(header)) !== null)] loop; the
    state is [colRegex.lastIndex] and the two arrays.  [fuel] bounds the
    number of iterations; [None] is an exhausted bound. *)
Fixpoint scan (fuel : nat) (header : jsstring) (lastIndex : nat)
  (cols : list jsstring) (poss : list Z) : option (list jsstring * list Z) :=
  match fuel with
  | O => None
  | S fuel' =>
      match exec header lastIndex with
      | None => Some (cols, poss)
      | Some (index, k) =>
          scan fuel' header (index + k)
               (cols ++ [trim (firstn k (skipn index header))])
               (poss ++ [Z.of_nat index])
      end
  end.

Definition extractLayout (header : jsstring) : option Layout :=
  match scan (S (length header)) header 0 [] [] with
  | Some (cols, poss) => Some (mkLayout cols (poss ++ [len header]))
  | None => None
  end.

(** What the specification says of the extractor: runs of two or more
    spaces separate the columns, a token starts at a character that is
    not a space and keeps its single embedded spaces; each token is
    listed with its position.  [cur] is the token being read (start
    position and text). *)
Fixpoint spec_tokens (pos : nat) (cur : option (nat * jsstring))
  (s : jsstring) : list (nat * jsstring) :=
  match s with
  | [] => match cur with Some t => [t] | None => [] end
  | c :: r =>
      if is_space c then
        match cur with
        | None => spec_tokens (S pos) None r
        | Some (st, tok) =>
            match r with
            | [] => [(st, tok)]
            | c' :: _ =>
                if is_space c' then (st, tok) :: spec_tokens (S pos) None r
                else spec_tokens (S pos) (Some (st, tok ++ [c])) r
            end
        end
      else
        match cur with
        | None => spec_tokens (S pos) (Some (pos, [c])) r
        | Some (st, tok) => spec_tokens (S pos) (Some (st, tok ++ [c])) r
        end
  end.

Definition spec_layout (header : jsstring) : list (nat * jsstring) :=
  spec_tokens 0 None header.

(** A header with a run of two or more consecutive spaces. *)
Fixpoint has_space_run (s : jsstring) : bool :=
  match s with
  | c1 :: ((c2 :: _) as r) => is_space c1 && is_space c2 || has_space_run r
  | _ => false
  end.

(** A header whose only whitespace characters are spaces. *)
Definition only_space_ws (s : jsstring) : bool :=
  forallb (fun c => negb (is_ws c) || is_space c) s.

(** ** Row Decoder (index.mjs, lines 100-133) *)

(** [obj[k] = v] with a string [v] on an object literal: the [__proto__]
    setter of [Object.prototype] ignores a value that is not an object,
    every other key becomes (or stays) an own property. *)
Definition assign (o : obj jsval) (k : jsstring) (v : jsval) : obj jsval :=
  if str_eqb k (js "__proto__") then o else set_own o k v.

(** The body of the [if ... else if ...] chain for one column: [label] is
    [columns[i]], [value] the trimmed slice of the line. *)
Definition decode_column (label value : jsstring) (o : obj jsval)
  : obj jsval :=
  if str_eqb label (js "Fed Sex Tit") then
    let fed := trim (substring value (Some 0%Z) (Some 3%Z)) in
    let rest := trim (substring value (Some 3%Z) None) in
    let parts := split_ws rest in
    let sex := at_index parts 0 in
    let titles := tl parts in
    let o := assign o (js "Fed") (VStr fed) in
    let o := assign o (js "Sex") (js_or sex (VStr [])) in
    assign o (js "Title") (js_or (VStr (join (js " ") titles)) (VStr []))
  else if str_eqb label (js "WTit OTit") then
    let parts := split_ws value in
    let o := assign o (js "WTit") (js_or (at_index parts 0) (VStr [])) in
    assign o (js "OTit") (js_or (at_index parts 1) (VStr []))
  else if startsWith (js "FOA AUG") label then
    let headerParts := split_ws label in
    let parts := split_ws value in
    let o := assign o (js "FOA") (js_or (at_index parts 0) (VStr [])) in
    let o := assign o (js "Rating")
                    (js_or (at_index headerParts 1) (VStr [])) in
    let o := assign o (js "Gms") (js_or (at_index parts 1) (VStr [])) in
    assign o (js "K") (js_or (at_index parts 2) (VStr []))
  else if str_eqb label (js "B-day Flag") then
    let parts := split_ws value in
    let o := assign o (js "B-day") (js_or (at_index parts 0) (VStr [])) in
    assign o (js "Flag") (js_or (VStr (join (js " ") (tl parts))) (VStr []))
  else
    assign o label (VStr value).

(** [line.substring(colPositions[i], colPositions[i + 1]).trim()] *)
Definition slice_value (L : Layout) (line : jsstring) (i : nat) : jsstring :=
  trim (substring line (nth_error (colPositions L) i)
                       (nth_error (colPositions L) (i + 1))).

(** One turn of [for (let i = 0; i < columns.length; i++)].  Were
    [columns[i]] undefined, the two [===] tests would be false and
    [columns[i].startsWith] would throw. *)
Definition decode_step (L : Layout) (line : jsstring) (o : obj jsval)
  (i : nat) : result (obj jsval) :=
  let value := slice_value L line i in
  match nth_error (columns L) i with
  | Some label => Ok (decode_column label value o)
  | None => Throw TypeError
  end.

(** The callback of [fedLines.map(line => ...)]. *)
Definition decodeLine (L : Layout) (line : jsstring) : result (obj jsval) :=
  foldM (decode_step L line) (seq 0 (length (columns L))) [].

(** What the specification calls the whitespace-separated tokens of a
    string: its maximal runs of characters that are not whitespace. *)
Fixpoint spec_words_go (cur : jsstring) (s : jsstring) : list jsstring :=
  match s with
  | [] => match cur with [] => [] | _ => [rev cur] end
  | c :: r =>
      if is_ws c then
        match cur with
        | [] => spec_words_go [] r
        | _ => rev cur :: spec_words_go [] r
        end
      else spec_words_go (c :: cur) r
  end.

Definition spec_words (s : jsstring) : list jsstring := spec_words_go [] s.

(** The [n]-th token, the empty string when there is none. *)
Definition spec_word (n : nat) (s : jsstring) : jsstring :=
  nth n (spec_words s) [].

(** ** Partitioner (index.mjs, lines 42-52) *)

Definition fedStart (header : jsstring) : Z := indexOf (js "Fed") header.
Definition fedEnd (header : jsstring) : Z := fedStart header + len (js "Fed").

(** [line.substring(fedStart, fedEnd).trim()] *)
Definition fed_of (header line : jsstring) : jsstring :=
  trim (substring line (Some (fedStart header)) (Some (fedEnd header))).

(** [o[k]] read through the prototype chain. *)
Inductive property (A : Type) :=
| Own (a : A)
| Inherited
| Absent.
Arguments Own {A} a.
Arguments Inherited {A}.
Arguments Absent {A}.

Definition lookup {A} (o : obj A) (k : jsstring) : property A :=
  match get_own o k with
  | Some a => Own a
  | None => if inherited k then Inherited else Absent
  end.

(** The body of [for (const line of dataLines)].  An array and an
    inherited function are truthy; [push] exists on arrays only, calling
    it on anything else throws. *)
Definition group_step (header : jsstring) (fedMap : obj (list jsstring))
  (line : jsstring) : result (obj (list jsstring)) :=
  let fed := fed_of header line in
  match fed with
  | [] => Ok fedMap
  | _ :: _ =>
      let fedMap1 := match lookup fedMap fed with
                     | Absent => set_own fedMap fed []
                     | _ => fedMap
                     end in
      match lookup fedMap1 fed with
      | Own arr => Ok (set_own fedMap1 fed (arr ++ [line]))
      | _ => Throw TypeError
      end
  end.

Definition groupLines (header : jsstring) (dataLines : list jsstring)
  : result (obj (list jsstring)) :=
  foldM (group_step header) dataLines [].

(** ** Delimited-text emitter (index.mjs, lines 147-156) *)

(** [row[col]] for a column of the record; the columns are own keys of
    the first record of the group. *)
Definition prop (row : obj jsval) (col : jsstring) : jsval :=
  match get_own row col with
  | Some v => v
  | None => VUndefined
  end.

(** [val.replace] of every double quote by two of them. *)
Definition double_quotes (s : jsstring) : jsstring :=
  flat_map (fun c => if char_eqb c DQUOTE then [DQUOTE; DQUOTE] else [c]) s.

(** The callback of [csvColumns.map(col => ...)], on [row[col]]. *)
Definition csv_cell (v : jsval) : jsstring :=
  let val := match v with VUndefined => [] | VStr s => s end in
  if includes [COMMA] val || includes [DQUOTE] val || includes [NEWLINE] val
  then [DQUOTE] ++ double_quotes val ++ [DQUOTE]
  else val.

Definition csv_row (csvColumns : list jsstring) (row : obj jsval) : jsstring :=
  join [COMMA] (map (fun col => csv_cell (prop row col)) csvColumns).

Definition csvRows (jsonData : list (obj jsval)) : list jsstring :=
  let csvColumns := own_keys (hd [] jsonData) in
  join [COMMA] csvColumns :: map (csv_row csvColumns) jsonData.

(** What the specification calls re-splitting a row on the delimiter
    while honouring the quoting (the repository has the emitter only): a
    row is split on commas; a field that opens with a quote runs to its
    closing quote, a doubled quote inside it stands for one quote. *)
Inductive spec_csv_state := FieldStart | Unquoted | Quoted | QuoteSeen.

Fixpoint spec_csv_go (st : spec_csv_state) (cur : jsstring) (s : jsstring)
  : list jsstring :=
  match s with
  | [] => [rev cur]
  | c :: r =>
      match st with
      | FieldStart =>
          if char_eqb c DQUOTE then spec_csv_go Quoted cur r
          else if char_eqb c COMMA then rev cur :: spec_csv_go FieldStart [] r
          else spec_csv_go Unquoted (c :: cur) r
      | Unquoted =>
          if char_eqb c COMMA then rev cur :: spec_csv_go FieldStart [] r
          else spec_csv_go Unquoted (c :: cur) r
      | Quoted =>
          if char_eqb c DQUOTE then spec_csv_go QuoteSeen cur r
          else spec_csv_go Quoted (c :: cur) r
      | QuoteSeen =>
          if char_eqb c DQUOTE then spec_csv_go Quoted (c :: cur) r
          else if char_eqb c COMMA then rev cur :: spec_csv_go FieldStart [] r
          else spec_csv_go Unquoted (c :: cur) r
      end
  end.

Definition spec_csv_split (row : jsstring) : list jsstring :=
  spec_csv_go FieldStart [] row.

(** The string a record holds under a key. *)
Definition field (row : obj jsval) (col : jsstring) : jsstring :=
  match prop row col with VStr s => s | VUndefined => [] end.

(** ** formatBytes (index.mjs, lines 7-13) *)

Definition units : list jsstring := map js ["B"; "KB"; "MB"; "GB"; "TB"]%string.

(** The decimal digits of a natural number. *)
Definition digits (n : N) : jsstring :=
  js (NilZero.string_of_uint (N.to_uint n)).

(** [x.toFixed(f)] for the number [x = num / den]: [n] is the integer
    for which [n / 10^f - x] is closest to zero, the larger one on a tie;
    its digits are padded with zeros to [f + 1] characters and the point
    is put before the last [f] of them. *)
Definition toFixed (num den : N) (f : nat) : jsstring :=
  let n := ((2 * num * 10 ^ N.of_nat f + den) / (2 * den))%N in
  let m := digits n in
  match f with
  | O => m
  | _ =>
      let m := repeat 48%N (f + 1 - length m) ++ m in
      let k := length m in
      firstn (k - f) m ++ [DOT] ++ skipn (k - f) m
  end.

(** [Math.floor(Math.log(bytes) / Math.log(1024))] for an integer
    [bytes >= 1], taken as the real-number value of the expression: the
    integer part of the logarithm of [bytes] in base 1024.  (In double
    precision the quotient is exactly [k] at [1024^k], and its integer
    part is the exact one except within a few bytes below [1024^5],
    where the quotient rounds up to 5.) *)
Definition log1024 (bytes : N) : N := (N.log2 bytes / 10)%N.

(** [bytes / Math.pow(1024, i)] is kept as the fraction [bytes / 1024^i];
    dividing an integer below 2^53 by a power of two is exact in floating
    point. *)
Definition formatBytes (bytes : N) : jsstring :=
  if (bytes =? 0)%N then js "0 B"
  else
    let i := log1024 bytes in
    let scale := (1024 ^ i)%N in
    let f := if (10 * scale <=? bytes)%N || (i =? 0)%N then 0 else 1 in
    toFixed bytes scale f ++ js " "
    ++ match nth_error units (N.to_nat i) with
       | Some u => u
       | None => js "undefined"
       end.

(** The number of decimal places a size string shows: the characters
    between the point and the space before the unit. *)
Fixpoint before (stop : char) (s : jsstring) : jsstring :=
  match s with
  | [] => []
  | c :: r => if char_eqb c stop then [] else c :: before stop r
  end.

Fixpoint after (stop : char) (s : jsstring) : jsstring :=
  match s with
  | [] => []
  | c :: r => if char_eqb c stop then r else after stop r
  end.

Definition decimal_places (s : jsstring) : nat :=
  length (after DOT (before SPACE s)).

Definition unit_of (s : jsstring) : jsstring := after SPACE s.

(** The scaled value of the specification, rounded to one decimal place,
    in tenths of the unit. *)
Definition rounded_tenths (bytes : N) : N :=
  let scale := (1024 ^ log1024 bytes)%N in
  ((2 * bytes * 10 + scale) / (2 * scale))%N.

(** ** Sorting strings: [Array.prototype.sort] without a comparator
    orders strings by their code units. *)
Fixpoint str_leb (a b : jsstring) : bool :=
  match a, b with
  | [], _ => true
  | _ :: _, [] => false
  | x :: a', y :: b' => (x <? y)%N || (x =? y)%N && str_leb a' b'
  end.

Fixpoint insert_str (x : jsstring) (l : list jsstring) : list jsstring :=
  match l with
  | [] => [x]
  | y :: r => if str_leb x y then x :: l else y :: insert_str x r
  end.

Definition sort_strings (l : list jsstring) : list jsstring :=
  fold_right insert_str [] l.

(** ** The run: processFideRatings, generateIndexHtml, main *)

(** [txtContent.split(/\r?\n/)]: a line feed, with the carriage return
    just before it if there is one, ends a line. *)
Definition CR : char := 13%N.

Fixpoint split_lines_go (cur : jsstring) (s : jsstring) : list jsstring :=
  match s with
  | [] => [rev cur]
  | c :: r =>
      if char_eqb c NEWLINE then rev cur :: split_lines_go [] r
      else
        match r with
        | c2 :: r2 =>
            if char_eqb c CR && char_eqb c2 NEWLINE
            then rev cur :: split_lines_go [] r2
            else split_lines_go (c :: cur) r
        | [] => split_lines_go (c :: cur) r
        end
  end.

(** [.filter(Boolean)] keeps the lines that are not empty. *)
Definition nonempty (s : jsstring) : bool :=
  match s with [] => false | _ :: _ => true end.

Definition split_lines (txtContent : jsstring) : list jsstring :=
  filter nonempty (split_lines_go [] txtContent).

(** [s.endsWith(p)] *)
Definition endsWith (p s : jsstring) : bool := startsWith (rev p) (rev s).

(** The response of [fetch] and the entries of the archive in it (entry
    name and content decoded as UTF-8). *)
Record Response := mkResponse {
  res_ok : bool;
  zipEntries : list (jsstring * jsstring)
}.

(** The object stored in [global.fedSummary[fed][ratingType]]. *)
Record SummaryEntry := mkSummaryEntry {
  count : nat;
  txt : jsstring;       txtSize : jsstring;
  txtzip : jsstring;    txtzipSize : jsstring;
  csv : jsstring;       csvSize : jsstring;
  csvzip : jsstring;    csvzipSize : jsstring;
  json : jsstring;      jsonSize : jsstring;
  jsonzip : jsstring;   jsonzipSize : jsstring;
  parquet : jsstring;   parquetSize : jsstring
}.

(** What the run does to the outside. *)
Inductive event :=
| Mkdir (dir : jsstring)
| WriteFile (path content : jsstring)
| WriteZip (path entryName content : jsstring)
| WriteParquet (path : jsstring) (schema : list jsstring)
               (rows : list (obj jsval))
| ConsoleError (msg : jsstring).

(** The file system and console as a trace, and [global.fedSummary]
    ([None] while it is undefined). *)
Record World := mkWorld {
  events : list event;
  fedSummary : option (obj (obj SummaryEntry))
}.

Definition emit (w : World) (e : event) : World :=
  mkWorld (events w ++ [e]) (fedSummary w).

(** The path an operation is given. *)
Definition path_of (e : event) : jsstring :=
  match e with
  | Mkdir dir => dir
  | WriteFile path _ => path
  | WriteZip path _ _ => path
  | WriteParquet path _ _ => path
  | ConsoleError _ => []
  end.

(** [o[k] = v] with an object [v] on an object literal: under
    [__proto__] the value becomes the prototype, not an own property. *)
Definition assign_obj {A} (o : obj A) (k : jsstring) (v : A) : obj A :=
  if str_eqb k (js "__proto__") then o else set_own o k v.

(** One row of the federations handed to the template. *)
Definition FederationRow := (jsstring * list (option SummaryEntry))%type.

Section Run.

(** External collaborators: the network, the file system, [path.join],
    the sizes [fs.statSync] reports for a written file and a written
    archive, [JSON.stringify(jsonData, null, 2)], the Parquet writer and
    the page template.  The file system accepts a path or rejects it
    ([path_ok]: Node rejects a path that holds U+0000), and a call on a
    rejected path throws.  The Parquet export gives the size of the file
    it wrote, or [None] when any statement of the [try] block throws.
    [loadTemplate] is lines 225-227, reading the template file,
    importing Handlebars and compiling, any of which may throw; it gives
    the compiled template.  The progress messages of [console.log] and
    the counters they print are left out. *)
Variable fetch : jsstring -> result Response.
Variable path_ok : jsstring -> bool.
Variable path_join : list jsstring -> jsstring.
Variable byteLength : jsstring -> N.
Variable zipSize : jsstring -> jsstring -> N.
Variable json_stringify : list (obj jsval) -> jsstring.
Variable parquetExport :
  jsstring -> list jsstring -> list (obj jsval) -> option N.
Variable loadTemplate :
  result (list jsstring -> list FederationRow -> jsstring).

(** A call of [fs.mkdirSync], of [fs.writeFileSync] or of [writeZip],
    the last two with the [fs.statSync] that follows: the operation is
    recorded when its path is accepted, and the call throws otherwise. *)
Definition perform (w : World) (e : event) : result World :=
  if path_ok (path_of e) then Ok (emit w e) else Throw FsRejected.

(** The row handed to [writer.appendRow]: every column as a string. *)
Definition strRow (csvColumns : list jsstring) (row : obj jsval)
  : obj jsval :=
  fold_left (fun o col =>
               assign o col (match prop row col with
                             | VUndefined => VStr []
                             | VStr s => VStr s
                             end))
            csvColumns [].

(** The [try { ... } catch (err) { console.error(...) }] block: the
    world after it and the new [parquetSize], if any. *)
Definition writeParquet (dir ratingType : jsstring)
  (csvColumns : list jsstring) (jsonData : list (obj jsval)) (w : World)
  : World * option jsstring :=
  let parquetPath := path_join [dir; ratingType ++ js ".parquet"] in
  let rows := map (strRow csvColumns) jsonData in
  match parquetExport parquetPath csvColumns rows with
  | Some size =>
      (emit w (WriteParquet parquetPath csvColumns rows),
       Some (formatBytes size))
  | None => (emit w (ConsoleError (js "Failed to write Parquet:")), None)
  end.

(** [if (!global.fedSummary[fed]) global.fedSummary[fed] = {};
     global.fedSummary[fed][ratingType] = entry].  An inherited
    property is truthy, and the entry would land on it, not in the
    summary. *)
Definition record_summary (summary : obj (obj SummaryEntry))
  (fed ratingType : jsstring) (entry : SummaryEntry)
  : obj (obj SummaryEntry) :=
  let summary1 := match lookup summary fed with
                  | Absent => set_own summary fed []
                  | _ => summary
                  end in
  match lookup summary1 fed with
  | Own inner => set_own summary1 fed (assign_obj inner ratingType entry)
  | _ => summary1
  end.

(** The body of [for (const [fed, fedLines] of Object.entries(fedMap))].
    A call that throws ends the body, and the run: nothing here is inside
    a [try] but the Parquet export. *)
Definition process_group (header ratingType : jsstring) (w : World)
  (group : jsstring * list jsstring) : result World :=
  let (fed, fedLines) := group in
  let dir := path_join [js "data"; fed; ratingType] in
  w <- perform w (Mkdir dir) ;;
  let txtPath := path_join [dir; ratingType ++ js ".txt"] in
  let txtZipPath := path_join [dir; ratingType ++ js ".txt.zip"] in
  let jsonPath := path_join [dir; ratingType ++ js ".json"] in
  let jsonZipPath := path_join [dir; ratingType ++ js ".json.zip"] in
  let csvPath := path_join [dir; ratingType ++ js ".csv"] in
  let csvZipPath := path_join [dir; ratingType ++ js ".csv.zip"] in
  let csvSize0 := js "0 B" in
  let csvZipSize0 := js "0 B" in
  let parquetSize0 := js "0 B" in
  (* Write TXT *)
  let txtText := join [NEWLINE] (header :: fedLines) in
  w <- perform w (WriteFile txtPath txtText) ;;
  let txtSize1 := formatBytes (byteLength txtText) in
  (* Write TXT ZIP *)
  w <- perform w (WriteZip txtZipPath (ratingType ++ js ".txt") txtText) ;;
  let txtZipSize1 := formatBytes (zipSize (ratingType ++ js ".txt") txtText) in
  (* Parse header into columns, decode every line *)
  match extractLayout header with
  | None => Throw LoopBound
  | Some L =>
      jsonData <- mapM (decodeLine L) fedLines ;;
      (* Write JSON and JSON ZIP *)
      let jsonText := json_stringify jsonData in
      w <- perform w (WriteFile jsonPath jsonText) ;;
      let jsonSize1 := formatBytes (byteLength jsonText) in
      w <- perform w (WriteZip jsonZipPath (ratingType ++ js ".json")
                               jsonText) ;;
      let jsonZipSize1 :=
        formatBytes (zipSize (ratingType ++ js ".json") jsonText) in
      (* Write CSV, CSV ZIP and Parquet *)
      out <- match jsonData with
             | [] => Ok (w, csvSize0, csvZipSize0, parquetSize0)
             | _ :: _ =>
                 let csvColumns := own_keys (hd [] jsonData) in
                 let csvText := join [NEWLINE] (csvRows jsonData) in
                 w <- perform w (WriteFile csvPath csvText) ;;
                 let csvSize1 := formatBytes (byteLength csvText) in
                 w <- perform w (WriteZip csvZipPath (ratingType ++ js ".csv")
                                          csvText) ;;
                 let csvZipSize1 :=
                   formatBytes (zipSize (ratingType ++ js ".csv") csvText) in
                 let (w, written) :=
                   writeParquet dir ratingType csvColumns jsonData w in
                 Ok (w, csvSize1, csvZipSize1,
                     match written with
                     | Some sz => sz
                     | None => parquetSize0
                     end)
             end ;;
      let '(w, csvSize1, csvZipSize1, parquetSize1) := out in
      (* Collect summary for index.html *)
      let link := fun ext => fed ++ js "/" ++ ratingType ++ js "/"
                                 ++ ratingType ++ ext in
      let entry := {|
        count := length jsonData;
        txt := link (js ".txt");           txtSize := txtSize1;
        txtzip := link (js ".txt.zip");    txtzipSize := txtZipSize1;
        csv := link (js ".csv");           csvSize := csvSize1;
        csvzip := link (js ".csv.zip");    csvzipSize := csvZipSize1;
        json := link (js ".json");         jsonSize := jsonSize1;
        jsonzip := link (js ".json.zip");  jsonzipSize := jsonZipSize1;
        parquet := link (js ".parquet");   parquetSize := parquetSize1 |} in
      match fedSummary w with
      | Some summary =>
          Ok (mkWorld (events w)
                      (Some (record_summary summary fed ratingType entry)))
      | None => Throw TypeError
      end
  end.

Definition processFideRatings (url ratingType : jsstring) (w : World)
  : result World :=
  res <- fetch url ;;
  if negb (res_ok res) then Throw DownloadFailed
  else
    match find (fun e => endsWith (js ".txt") (fst e)) (zipEntries res) with
    | None => Throw NoTxtInZip
    | Some txtEntry =>
        let txtContent := snd txtEntry in
        let lines := split_lines txtContent in
        match lines with
        | [] => Throw TypeError        (* header is undefined *)
        | header :: dataLines =>
            fedMap <- groupLines header dataLines ;;
            (* if (!global.fedSummary) global.fedSummary = {} *)
            let w := match fedSummary w with
                     | None => mkWorld (events w) (Some [])
                     | Some _ => w
                     end in
            foldM (process_group header ratingType) (own_entries fedMap) w
        end
    end.

Definition ratingTypes : list jsstring :=
  map js ["standard"; "rapid"; "blitz"]%string.

(** [Object.keys(summary).sort().map(fed => ...)] *)
Definition federations (summary : obj (obj SummaryEntry))
  : list FederationRow :=
  map (fun fed =>
         (fed, map (fun rt => match get_own summary fed with
                              | Some inner => get_own inner rt
                              | None => None
                              end) ratingTypes))
      (sort_strings (own_keys summary)).

(** The page of [generateIndexHtml]: [data/index.html] with the template
    applied to the rating types and the federations. *)
Definition indexPage
  (template : list jsstring -> list FederationRow -> jsstring) (w : World)
  : event :=
  let summary := match fedSummary w with Some s => s | None => [] end in
  let html := template ratingTypes (federations summary) in
  WriteFile (path_join [js "data"; js "index.html"]) html.

(** [generateIndexHtml] once it has its compiled template and when its
    write is accepted (lines 223-224 and 228-234). *)
Definition generateIndexHtml
  (template : list jsstring -> list FederationRow -> jsstring) (w : World)
  : World :=
  emit w (indexPage template w).

(** The call [await generateIndexHtml()] of [main]: lines 225-227 may
    throw, before anything is written, and the write of line 234 throws
    when its path is rejected. *)
Definition callGenerateIndexHtml (w : World) : result World :=
  template <- loadTemplate ;;
  if path_ok (path_of (indexPage template w))
  then Ok (generateIndexHtml template w)
  else Throw FsRejected.

Definition ratingSources : list (jsstring * jsstring) :=
  [(js "http://ratings.fide.com/download/standard_rating_list.zip",
    js "standard");
   (js "http://ratings.fide.com/download/rapid_rating_list.zip",
    js "rapid");
   (js "http://ratings.fide.com/download/blitz_rating_list.zip",
    js "blitz")].

(** [for (const { url, type } of ratingSources)] *)
Definition processAll (w : World) : result World :=
  foldM (fun w src => processFideRatings (fst src) (snd src) w)
        ratingSources w.

Definition main (w : World) : result World :=
  w <- processAll w ;;
  callGenerateIndexHtml w.

End Run.

(** The order in which the emission loop of one dataset visits the
    groups. *)
Definition emission_order (header : jsstring) (dataLines : list jsstring)
  : result (list jsstring) :=
  fedMap <- groupLines header dataLines ;; Ok (own_keys fedMap).

(** ** Auxiliary notions of the statements and proofs *)

(** A string that does not start with whitespace. *)
Definition no_lead (s : jsstring) : Prop :=
  match s with [] => True | c :: _ => is_ws c = false end.

(** Whether the last character is whitespace; [d] answers for the empty
    string. *)
Fixpoint last_ws (d : bool) (s : jsstring) : bool :=
  match s with
  | [] => d
  | c :: r => last_ws (is_ws c) r
  end.

Definition is_nil (s : jsstring) : bool :=
  match s with [] => true | _ => false end.

(** The token being read ends with a character that is not whitespace,
    or such a character comes next. *)
Definition token_open (tok r : jsstring) : Prop :=
  last_ws true tok = false
  \/ exists c r', r = c :: r' /\ is_ws c = false.

(** A record all of whose values are strings. *)
Definition all_strings (r : obj jsval) : Prop :=
  Forall (fun e => exists s, snd e = VStr s) r.

(** The keys of an object after an assignment to the key [k]. *)
Fixpoint add_key (ks : list jsstring) (k : jsstring) : list jsstring :=
  match ks with
  | [] => [k]
  | k' :: r => if str_eqb k' k then ks else k' :: add_key r k
  end.

(** The order of [Object.keys] on keys given in creation order. *)
Definition key_order (ks : list jsstring) : list jsstring :=
  sort_by index_of_key (filter is_array_index ks)
  ++ filter (fun k => negb (is_array_index k)) ks.

(** The lines of one federation, in their order in the file. *)
Definition group_of (header fed : jsstring) (dataLines : list jsstring)
  : list jsstring :=
  filter (fun l => nonempty (fed_of header l) && str_eqb (fed_of header l) fed)
         dataLines.

(** The federations in the order in which their first lines come. *)
Definition first_seen (header : jsstring) (dataLines : list jsstring)
  : list jsstring :=
  fold_left add_key (filter nonempty (map (fed_of header) dataLines)) [].

(** The string of a cell. *)
Definition str_of (v : jsval) : jsstring :=
  match v with VUndefined => [] | VStr s => s end.

(** What follows a field in a row: nothing, or a comma and more. *)
Definition row_rest (rest : jsstring) : Prop :=
  rest = [] \/ exists r, rest = COMMA :: r.

Definition fields_after (rest : jsstring) : list jsstring :=
  match rest with
  | [] => []
  | _ :: r => spec_csv_go FieldStart [] r
  end.

(** A string of decimal digits. *)
Definition numeric (s : jsstring) : Prop :=
  Forall (fun c => is_digit c = true) s.

(** The order of the code units, on strings. *)
Definition lex_le (a b : jsstring) : Prop := str_leb a b = true.

(** What a run leaves when the Parquet export is set aside: the events
    other than the Parquet file and the message of its failure, and the
    summary without the Parquet sizes. *)
Definition is_parquet_event (e : event) : bool :=
  match e with
  | WriteParquet _ _ _ | ConsoleError _ => true
  | _ => false
  end.

Definition other_events (l : list event) : list event :=
  filter (fun e => negb (is_parquet_event e)) l.

Definition without_parquetSize (e : SummaryEntry) : SummaryEntry :=
  {| count := count e;
     txt := txt e;           txtSize := txtSize e;
     txtzip := txtzip e;     txtzipSize := txtzipSize e;
     csv := csv e;           csvSize := csvSize e;
     csvzip := csvzip e;     csvzipSize := csvzipSize e;
     json := json e;         jsonSize := jsonSize e;
     jsonzip := jsonzip e;   jsonzipSize := jsonzipSize e;
     parquet := parquet e;   parquetSize := [] |}.

Definition map_obj {A B} (f : A -> B) (o : obj A) : obj B :=
  map (fun kv => (fst kv, f (snd kv))) o.

Definition erase_summary (s : obj (obj SummaryEntry))
  : obj (obj SummaryEntry) :=
  map_obj (map_obj without_parquetSize) s.

Definition erase_world (w : World) : World :=
  mkWorld (other_events (events w)) (option_map erase_summary (fedSummary w)).

Definition erase_result (r : result World) : result World :=
  match r with
  | Ok w => Ok (erase_world w)
  | Throw e => Throw e
  end.

(** Comparisons of two literal keys are evaluated. *)
Ltac eval_keys :=
  repeat match goal with
         | |- context [str_eqb (js ?a) (js ?b)] =>
             let v := eval vm_compute in (str_eqb (js a) (js b)) in
             change (str_eqb (js a) (js b)) with v
         end;
  cbv iota.

Arguments fed_of : simpl never.

(** A label that takes the last branch of the decoder and becomes a key:
    none of the compound labels, and not [__proto__]. *)
Definition plain_label (label : jsstring) : bool :=
  negb (str_eqb label (js "Fed Sex Tit"))
  && negb (str_eqb label (js "WTit OTit"))
  && negb (startsWith (js "FOA AUG") label)
  && negb (str_eqb label (js "B-day Flag"))
  && negb (str_eqb label (js "__proto__")).

(** The record of a layout of plain labels, column by column. *)
Definition plain_record (L : Layout) (line : jsstring) (n : nat)
  : obj jsval :=
  map (fun i => (nth i (columns L) [], VStr (slice_value L line i))) (seq 0 n).

(** A download that gives an archive with a text file that has a header
    line. *)
Definition good_download (fetch : jsstring -> result Response)
  (url : jsstring) : Prop :=
  exists res txtEntry,
    fetch url = Ok res /\ res_ok res = true
    /\ find (fun e => endsWith (js ".txt") (fst e)) (zipEntries res)
       = Some txtEntry
    /\ split_lines (snd txtEntry) <> [].

(** [summary[fed][rt]], as the listing page reads a summary entry. *)
Definition entry_of (summary : obj (obj SummaryEntry))
  (fed rt : jsstring) : option SummaryEntry :=
  match get_own summary fed with
  | Some inner => get_own inner rt
  | None => None
  end.

(** The number of commas of a string. *)
Definition commas (s : jsstring) : nat := length (filter (char_eqb COMMA) s).

(** What the decoder keeps of a record under construction: its keys are
    distinct, none is [__proto__], and its values are strings. *)
Definition decoded_shape (o : obj jsval) : Prop :=
  NoDup (map fst o) /\ ~ In (js "__proto__") (map fst o) /\ all_strings o.

(** The label pushed for a match [(index, length of match[0])]. *)
Definition label_at (header : jsstring) (m : nat * nat) : jsstring :=
  trim (firstn (snd m) (skipn (fst m) header)).

(** The successive matches of the [exec] loop from [lastIndex] on: each
    one is a match of the pattern at its index, found at or after the
    end of the previous one; [P] holds of the text skipped before each
    match and of the text left after the last one. *)
Fixpoint match_chain (P : jsstring -> Prop) (header : jsstring)
  (lastIndex : nat) (ms : list (nat * nat)) : Prop :=
  match ms with
  | [] => P (skipn lastIndex header)
  | (i, k) :: ms' =>
      lastIndex <= i
      /\ P (firstn (i - lastIndex) (skipn lastIndex header))
      /\ match_at (skipn i header) = Some k
      /\ match_chain P header (i + k) ms'
  end.

Definition all_ws (s : jsstring) : Prop := forallb is_ws s = true.

(** The lines of the text file of a download, when there is one. *)
Definition download_lines (fetch : jsstring -> result Response)
  (url : jsstring) : option (list jsstring) :=
  match fetch url with
  | Ok res =>
      if res_ok res then
        match find (fun e => endsWith (js ".txt") (fst e)) (zipEntries res) with
        | Some txtEntry => Some (split_lines (snd txtEntry))
        | None => None
        end
      else None
  | Throw _ => None
  end.

(** The directories created along a trace, in order. *)
Definition dirs_made (evs : list event) : list jsstring :=
  flat_map (fun e => match e with Mkdir d => [d] | _ => [] end) evs.

(** What a group leaves besides its directory and the Parquet export:
    the text, JSON and CSV files and their archives (index.mjs, lines
    63-68, 80-87, 137-144 and 156-163). *)
Definition group_artifacts (path_join : list jsstring -> jsstring)
  (json_stringify : list (obj jsval) -> jsstring)
  (header ratingType fed : jsstring) (fedLines : list jsstring)
  (jsonData : list (obj jsval)) : list event :=
  let dir := path_join [js "data"; fed; ratingType] in
  let txtText := join [NEWLINE] (header :: fedLines) in
  let jsonText := json_stringify jsonData in
  let csvText := join [NEWLINE] (csvRows jsonData) in
  [WriteFile (path_join [dir; ratingType ++ js ".txt"]) txtText;
   WriteZip (path_join [dir; ratingType ++ js ".txt.zip"])
            (ratingType ++ js ".txt") txtText;
   WriteFile (path_join [dir; ratingType ++ js ".json"]) jsonText;
   WriteZip (path_join [dir; ratingType ++ js ".json.zip"])
            (ratingType ++ js ".json") jsonText;
   WriteFile (path_join [dir; ratingType ++ js ".csv"]) csvText;
   WriteZip (path_join [dir; ratingType ++ js ".csv.zip"])
            (ratingType ++ js ".csv") csvText].

(** What the Parquet export of a group leaves along the trace [evs] and
    in the summary entry [e]: the file and its size, or the message of
    the [catch] and the size the entry starts with. *)
Definition parquet_outcome
  (pq : jsstring -> list jsstring -> list (obj jsval) -> option N)
  (path_join : list jsstring -> jsstring)
  (ratingType fed : jsstring) (jsonData : list (obj jsval))
  (evs : list event) (e : SummaryEntry) : Prop :=
  let dir := path_join [js "data"; fed; ratingType] in
  let parquetPath := path_join [dir; ratingType ++ js ".parquet"] in
  let csvColumns := own_keys (hd [] jsonData) in
  let rows := map (strRow csvColumns) jsonData in
  match pq parquetPath csvColumns rows with
  | Some size =>
      In (WriteParquet parquetPath csvColumns rows) evs
      /\ parquetSize e = formatBytes size
  | None =>
      In (ConsoleError (js "Failed to write Parquet:")) evs
      /\ parquetSize e = js "0 B"
  end.

(** What a returned run shows of the group of [fed]: its records, its
    files in the trace, its entry in the summary. *)
Definition group_done
  (pq : jsstring -> list jsstring -> list (obj jsval) -> option N)
  (path_join : list jsstring -> jsstring)
  (json_stringify : list (obj jsval) -> jsstring)
  (header ratingType fed : jsstring) (fedLines : list jsstring)
  (evs : list event) (summary : obj (obj SummaryEntry)) : Prop :=
  exists L jsonData e,
    extractLayout header = Some L
    /\ mapM (decodeLine L) fedLines = Ok jsonData
    /\ In (Mkdir (path_join [js "data"; fed; ratingType])) evs
    /\ incl (group_artifacts path_join json_stringify header ratingType fed
                             fedLines jsonData) evs
    /\ entry_of summary fed ratingType = Some e
    /\ count e = length fedLines
    /\ txt e = fed ++ js "/" ++ ratingType ++ js "/" ++ ratingType
               ++ js ".txt"
    /\ parquet_outcome pq path_join ratingType fed jsonData evs e.

(** A string without U+0000. *)
Definition nul_free (s : jsstring) : Prop := ~ In 0%N s.

(** A string, a value and a record without a line feed. *)
Definition nl_free (s : jsstring) : Prop := ~ In NEWLINE s.

Definition val_nl_free (v : jsval) : Prop :=
  match v with VStr s => nl_free s | VUndefined => True end.

Definition obj_nl_free (o : obj jsval) : Prop :=
  Forall (fun e => nl_free (fst e) /\ val_nl_free (snd e)) o.

(** The number of line feeds of a string. *)
Definition newlines (s : jsstring) : nat :=
  length (filter (char_eqb NEWLINE) s).

Ltac nl_const := unfold nl_free; vm_compute; intuition discriminate.

(** The keys the decoder assigns for a column with this label
    (index.mjs, lines 106-130). *)
Definition keys_written (label : jsstring) : list jsstring :=
  if str_eqb label (js "Fed Sex Tit") then [js "Fed"; js "Sex"; js "Title"]
  else if str_eqb label (js "WTit OTit") then [js "WTit"; js "OTit"]
  else if startsWith (js "FOA AUG") label
       then [js "FOA"; js "Rating"; js "Gms"; js "K"]
  else if str_eqb label (js "B-day Flag") then [js "B-day"; js "Flag"]
  else [label].


(** A header and a line in the shape of the published lists. *)
Definition sample_header : jsstring :=
  js "ID Number  Name         Fed Sex Tit  WTit OTit  FOA AUG25 Gms K  B-day Flag".

Definition sample_line : jsstring :=
  js "10292519   Carlsen, M   NOR M   GM   WGM        2839  0   10     1990  wi".

(** * Proofs *)

(** ** Strings *)

Lemma str_eqb_eq (a b : jsstring) : str_eqb a b = true <-> a = b.
Proof.
  revert b; induction a as [|x a IH]; intros [|y b]; simpl; split;
    try congruence; try reflexivity.
  - intros H. apply andb_true_iff in H as [H1 H2].
    apply N.eqb_eq in H1. apply IH in H2. congruence.
  - intros H. injection H as -> ->. apply andb_true_iff. split.
    + apply N.eqb_refl.
    + now apply IH.
Qed.

Lemma str_eqb_refl (a : jsstring) : str_eqb a a = true.
Proof. now apply str_eqb_eq. Qed.

Lemma str_eqb_neq (a b : jsstring) : str_eqb a b = false <-> a <> b.
Proof.
  split.
  - intros H E. apply str_eqb_eq in E. congruence.
  - intros H. destruct (str_eqb a b) eqn:E; [|reflexivity].
    apply str_eqb_eq in E. contradiction.
Qed.

Lemma str_eqb_sym (a b : jsstring) : str_eqb a b = str_eqb b a.
Proof.
  destruct (str_eqb a b) eqn:E.
  - apply str_eqb_eq in E. subst. now rewrite str_eqb_refl.
  - symmetry. apply str_eqb_neq. apply str_eqb_neq in E. congruence.
Qed.

Lemma is_space_ws (c : char) : is_space c = true -> is_ws c = true.
Proof.
  unfold is_space, char_eqb, SPACE. intros H. apply N.eqb_eq in H. now subst.
Qed.

Lemma last_ws_app (d : bool) (s : jsstring) (c : char) :
  last_ws d (s ++ [c]) = is_ws c.
Proof. revert d; induction s as [|x s IH]; intros d; simpl; auto. Qed.

Lemma last_ws_cons (d : bool) (c : char) (s : jsstring) :
  s <> [] -> last_ws d (c :: s) = last_ws d s.
Proof. destruct s; [congruence|reflexivity]. Qed.

Lemma trimStart_no_lead (s : jsstring) : no_lead (trimStart s).
Proof.
  induction s as [|c r IH]; simpl; [exact I|].
  destruct (is_ws c) eqn:E; [exact IH|]. simpl. exact E.
Qed.

Lemma trimStart_id (s : jsstring) : no_lead s -> trimStart s = s.
Proof. destruct s as [|c r]; simpl; [reflexivity|]. now intros ->. Qed.

Lemma trimStart_app_keep (s : jsstring) (c : char) :
  is_ws c = false -> exists u, trimStart (s ++ [c]) = u ++ [c].
Proof.
  intros Hc. induction s as [|x s [u IH]]; simpl.
  - rewrite Hc. now exists [].
  - destruct (is_ws x).
    + now exists u.
    + now exists (x :: s).
Qed.

Lemma trimStart_length (s : jsstring) : length (trimStart s) <= length s.
Proof.
  induction s as [|c r IH]; simpl; [lia|]. destruct (is_ws c); simpl; lia.
Qed.

Lemma trimEnd_length (s : jsstring) : length (trimEnd s) <= length s.
Proof.
  unfold trimEnd. rewrite length_rev.
  etransitivity; [apply trimStart_length|]. now rewrite length_rev.
Qed.

Lemma trim_length (s : jsstring) : length (trim s) <= length s.
Proof.
  unfold trim. etransitivity; [apply trimEnd_length|]. apply trimStart_length.
Qed.

Lemma trimEnd_snoc_ws (s : jsstring) (c : char) :
  is_ws c = true -> trimEnd (s ++ [c]) = trimEnd s.
Proof.
  intros Hc. unfold trimEnd. rewrite rev_app_distr. simpl. now rewrite Hc.
Qed.

Lemma trimEnd_snoc_keep (s : jsstring) (c : char) :
  is_ws c = false -> trimEnd (s ++ [c]) = s ++ [c].
Proof.
  intros Hc. unfold trimEnd. rewrite rev_app_distr. simpl. rewrite Hc.
  simpl. now rewrite rev_involutive.
Qed.

Lemma trimEnd_nil : trimEnd [] = [].
Proof. reflexivity. Qed.

Lemma trimEnd_cons_keep (c : char) (s : jsstring) :
  is_ws c = false -> exists u, trimEnd (c :: s) = c :: u.
Proof.
  intros Hc. unfold trimEnd. simpl.
  destruct (trimStart_app_keep (rev s) c Hc) as [u ->].
  rewrite rev_app_distr. simpl. now exists (rev u).
Qed.

Lemma trim_no_lead (s : jsstring) : no_lead (trim s).
Proof.
  unfold trim. pose proof (trimStart_no_lead s) as H.
  destruct (trimStart s) as [|c r]; [exact I|]. simpl in H.
  destruct (trimEnd_cons_keep c r H) as [u ->]. exact H.
Qed.

Lemma last_ws_rev (d : bool) (s : jsstring) :
  last_ws d s = match rev s with [] => d | c :: _ => is_ws c end.
Proof.
  destruct s as [|x s] using rev_ind; [reflexivity|].
  rewrite last_ws_app, rev_app_distr. reflexivity.
Qed.

Lemma trimEnd_last (s : jsstring) : last_ws false (trimEnd s) = false.
Proof.
  rewrite last_ws_rev. unfold trimEnd. rewrite rev_involutive.
  pose proof (trimStart_no_lead (rev s)) as H.
  now destruct (trimStart (rev s)).
Qed.

Lemma trim_last (s : jsstring) : last_ws false (trim s) = false.
Proof. apply trimEnd_last. Qed.

(** ** [split(/\s+/)] against the tokens of the specification *)

Lemma split_ws_go_words (s : jsstring) :
  forall insep cur,
    (insep = true -> cur = []) ->
    (insep = false -> cur = [] -> no_lead s) ->
    split_ws_go insep cur s
    = spec_words_go cur s ++ (if last_ws (is_nil cur) s then [[]] else []).
Proof.
  induction s as [|c r IH]; intros insep cur H1 H2; simpl.
  - destruct cur; reflexivity.
  - destruct (is_ws c) eqn:Ec.
    + destruct insep.
      * rewrite (H1 eq_refl). rewrite IH; auto. discriminate.
      * destruct cur as [|x cur].
        -- specialize (H2 eq_refl eq_refl). simpl in H2. congruence.
        -- rewrite IH; auto. discriminate.
    + rewrite IH; try discriminate. reflexivity.
Qed.

Lemma spec_words_go_nonempty (s : jsstring) :
  forall cur, Forall (fun t => t <> []) (spec_words_go cur s).
Proof.
  induction s as [|c r IH]; intros cur; simpl.
  - destruct cur as [|x cur]; constructor; [|constructor].
    intros E. apply (f_equal (@length _)) in E. simpl in E.
    rewrite length_app in E. simpl in E. lia.
  - destruct (is_ws c); [|apply IH].
    destruct cur as [|x cur]; [apply IH|]. constructor; [|apply IH].
    intros E. apply (f_equal (@length _)) in E. simpl in E.
    rewrite length_app in E. simpl in E. lia.
Qed.

Lemma split_ws_words (s : jsstring) :
  no_lead s ->
  split_ws s = spec_words s ++ (if last_ws true s then [[]] else []).
Proof.
  intros H. unfold split_ws, spec_words. apply split_ws_go_words; auto.
Qed.

(** On a trimmed string [split] gives the tokens, and one empty piece
    for the empty string. *)
Lemma split_ws_trimmed (s : jsstring) :
  no_lead s -> last_ws false s = false ->
  split_ws s = match s with [] => [[]] | _ => spec_words s end.
Proof.
  intros H1 H2. rewrite split_ws_words by assumption.
  destruct s as [|c r]; [reflexivity|]. simpl in *.
  rewrite H2. apply app_nil_r.
Qed.

Lemma js_or_at_index (l tail : list jsstring) (i : nat) :
  Forall (fun t => t <> []) l -> (tail = [] \/ tail = [[]]) ->
  js_or (at_index (l ++ tail) i) (VStr []) = VStr (nth i l []).
Proof.
  intros Hl Ht. revert i. induction Hl as [|t l Ht' Hl IH]; intros i.
  - simpl. destruct Ht as [-> | ->]; destruct i as [|[|i]]; reflexivity.
  - destruct i as [|i]; simpl.
    + unfold at_index. simpl. now destruct t.
    + apply IH.
Qed.

(** [parts[i] || ''] is the [i]-th token. *)
Lemma split_ws_word (s : jsstring) (i : nat) :
  no_lead s ->
  js_or (at_index (split_ws s) i) (VStr []) = VStr (spec_word i s).
Proof.
  intros H. rewrite split_ws_words by assumption. unfold spec_word.
  apply js_or_at_index.
  - apply spec_words_go_nonempty.
  - destruct (last_ws true s); auto.
Qed.

Lemma spec_words_go_trimStart (s : jsstring) :
  spec_words_go [] (trimStart s) = spec_words_go [] s.
Proof.
  induction s as [|c r IH]; simpl; [reflexivity|].
  destruct (is_ws c) eqn:E; [exact IH|]. simpl. now rewrite E.
Qed.

Lemma spec_words_go_snoc_ws (s : jsstring) (c : char) :
  is_ws c = true ->
  forall cur, spec_words_go cur (s ++ [c]) = spec_words_go cur s.
Proof.
  intros Hc. induction s as [|x s IH]; intros cur; simpl.
  - rewrite Hc. destruct cur; reflexivity.
  - destruct (is_ws x).
    + destruct cur; now rewrite IH.
    + apply IH.
Qed.

Lemma spec_words_trimEnd (s : jsstring) : spec_words (trimEnd s) = spec_words s.
Proof.
  unfold spec_words. induction s as [|c s IH] using rev_ind; [reflexivity|].
  destruct (is_ws c) eqn:E.
  - rewrite trimEnd_snoc_ws, spec_words_go_snoc_ws by assumption. exact IH.
  - now rewrite trimEnd_snoc_keep.
Qed.

(** Trimming does not change the tokens. *)
Lemma spec_words_trim (s : jsstring) : spec_words (trim s) = spec_words s.
Proof.
  unfold trim. rewrite spec_words_trimEnd. apply spec_words_go_trimStart.
Qed.

(** ** [substring] *)

Lemma substring_range (s : jsstring) (a b : Z) :
  (0 <= a <= b)%Z ->
  substring s (Some a) (Some b)
  = firstn (Z.to_nat (b - a)) (skipn (Z.to_nat a) s).
Proof.
  intros H. unfold substring, clamp, len.
  set (n := length s).
  destruct (Z_le_gt_dec b (Z.of_nat n)) as [Hb|Hb].
  - replace (Z.min (Z.min (Z.max a 0) (Z.of_nat n))
                   (Z.min (Z.max b 0) (Z.of_nat n))) with a by lia.
    replace (Z.max (Z.min (Z.max a 0) (Z.of_nat n))
                   (Z.min (Z.max b 0) (Z.of_nat n))) with b by lia.
    reflexivity.
  - destruct (Z_le_gt_dec a (Z.of_nat n)) as [Ha|Ha].
    + replace (Z.min (Z.min (Z.max a 0) (Z.of_nat n))
                     (Z.min (Z.max b 0) (Z.of_nat n))) with a by lia.
      replace (Z.max (Z.min (Z.max a 0) (Z.of_nat n))
                     (Z.min (Z.max b 0) (Z.of_nat n))) with (Z.of_nat n) by lia.
      rewrite !firstn_all2; try reflexivity; rewrite length_skipn; fold n; lia.
    + replace (Z.min (Z.min (Z.max a 0) (Z.of_nat n))
                     (Z.min (Z.max b 0) (Z.of_nat n))) with (Z.of_nat n) by lia.
      replace (Z.max (Z.min (Z.max a 0) (Z.of_nat n))
                     (Z.min (Z.max b 0) (Z.of_nat n))) with (Z.of_nat n) by lia.
      rewrite Z.sub_diag. simpl.
      rewrite (skipn_all2 s) by (fold n; lia). now rewrite firstn_nil.
Qed.

Lemma substring_to_end (s : jsstring) (a : Z) :
  (0 <= a)%Z -> substring s (Some a) None = skipn (Z.to_nat a) s.
Proof.
  intros H. unfold substring, clamp, len.
  set (n := length s).
  replace (Z.min (Z.max (Z.of_nat n) 0) (Z.of_nat n)) with (Z.of_nat n) by lia.
  destruct (Z_le_gt_dec a (Z.of_nat n)) as [Ha|Ha].
  - replace (Z.min (Z.min (Z.max a 0) (Z.of_nat n)) (Z.of_nat n)) with a by lia.
    replace (Z.max (Z.min (Z.max a 0) (Z.of_nat n)) (Z.of_nat n))
      with (Z.of_nat n) by lia.
    apply firstn_all2. rewrite length_skipn. fold n. lia.
  - replace (Z.min (Z.min (Z.max a 0) (Z.of_nat n)) (Z.of_nat n))
      with (Z.of_nat n) by lia.
    replace (Z.max (Z.min (Z.max a 0) (Z.of_nat n)) (Z.of_nat n))
      with (Z.of_nat n) by lia.
    rewrite Z.sub_diag. simpl. symmetry. apply skipn_all2. fold n. lia.
Qed.

(** A negative start is clamped to 0. *)
Lemma substring_negative_start (s : jsstring) (a b : Z) :
  (a <= 0 <= b)%Z ->
  substring s (Some a) (Some b) = firstn (Z.to_nat b) s.
Proof.
  intros H. transitivity (substring s (Some 0%Z) (Some b)).
  - unfold substring, clamp. now replace (Z.max a 0) with (Z.max 0 0) by lia.
  - rewrite substring_range by lia. now rewrite Z.sub_0_r.
Qed.

Lemma substring_length (s : jsstring) (a b : Z) :
  (a <= b)%Z -> (Z.of_nat (length (substring s (Some a) (Some b))) <= b - a)%Z.
Proof.
  intros H. unfold substring, clamp, len. rewrite length_firstn. lia.
Qed.

(** A slice is never longer than the line. *)
Lemma substring_le_length (s : jsstring) (a b : option Z) :
  length (substring s a b) <= length s.
Proof.
  unfold substring. rewrite length_firstn, length_skipn. lia.
Qed.

(** A line that ends before the start of a range gives the empty slice.  *)
Lemma substring_short (s : jsstring) (a : Z) (b : option Z) :
  (len s <= a)%Z -> (forall e, b = Some e -> (a <= e)%Z) ->
  substring s (Some a) b = [].
Proof.
  intros Ha Hb. unfold substring, clamp. unfold len in *.
  set (n := length s) in *.
  assert (E : (Z.min (Z.max match b with Some x => x | None => Z.of_nat n end 0)
                     (Z.of_nat n) = Z.of_nat n)%Z).
  { destruct b as [e|]; [specialize (Hb e eq_refl)|]; lia. }
  rewrite E.
  replace (Z.min (Z.max a 0) (Z.of_nat n)) with (Z.of_nat n) by lia.
  rewrite Z.max_id, Z.min_id, Z.sub_diag. reflexivity.
Qed.

(** ** Objects *)

Lemma get_own_set_own {A} (o : obj A) (k k' : jsstring) (v : A) :
  get_own (set_own o k v) k'
  = if str_eqb k k' then Some v else get_own o k'.
Proof.
  induction o as [|[k0 v0] o IH]; simpl.
  - reflexivity.
  - destruct (str_eqb k0 k) eqn:E0; simpl.
    + apply str_eqb_eq in E0. subst k0.
      destruct (str_eqb k k'); reflexivity.
    + rewrite IH. destruct (str_eqb k0 k') eqn:E1; [|reflexivity].
      apply str_eqb_eq in E1. subst k0. now rewrite str_eqb_sym, E0.
Qed.

Lemma get_own_assign (o : obj jsval) (k k' : jsstring) (v : jsval) :
  str_eqb k (js "__proto__") = false ->
  get_own (assign o k v) k'
  = if str_eqb k k' then Some v else get_own o k'.
Proof. intros H. unfold assign. rewrite H. apply get_own_set_own. Qed.

Lemma js_or_str (x : jsstring) : js_or (VStr x) (VStr []) = VStr x.
Proof. now destruct x. Qed.

Lemma js_or_is_str (a : jsval) (d : jsstring) :
  exists t, js_or a (VStr d) = VStr t.
Proof. destruct a as [|[|c s]]; simpl; eauto. Qed.

Lemma FOA_label_not_fed (label : jsstring) :
  startsWith (js "FOA AUG") label = true ->
  str_eqb label (js "Fed Sex Tit") = false
  /\ str_eqb label (js "WTit OTit") = false
  /\ no_lead label.
Proof.
  intros H.
  change (js "FOA AUG") with [70; 79; 65; 32; 65; 85; 71]%N in H.
  destruct label as [|c1 [|c2 l]]; cbn [startsWith] in H; try discriminate H.
  - rewrite andb_false_r in H. discriminate H.
  - apply andb_true_iff in H as [H1 H].
    apply andb_true_iff in H as [H2 _].
    apply N.eqb_eq in H1, H2. subst c1 c2. repeat split.
Qed.

(** ** The compound columns *)

(** The branch of Fed Sex Tit, on any record under construction and any
    trimmed value. *)
Lemma fed_sex_tit_branch :
  forall (slice : jsstring) (o : obj jsval),
    let v := trim slice in
    let rest := trim (skipn 3 v) in
    let r := decode_column (js "Fed Sex Tit") v o in
    get_own r (js "Fed") = Some (VStr (trim (firstn 3 v)))
    /\ get_own r (js "Sex") = Some (VStr (spec_word 0 rest))
    /\ get_own r (js "Title")
       = Some (VStr (join (js " ") (tl (spec_words rest))))
    /\ decode_column (js "Fed Sex Tit") (js "USA m   GM") []
       = [(js "Fed", VStr (js "USA")); (js "Sex", VStr (js "m"));
          (js "Title", VStr (js "GM"))].
Proof.
  intros slice o v rest r. subst r. unfold decode_column.
  change (str_eqb (js "Fed Sex Tit") (js "Fed Sex Tit")) with true. cbv iota.
  rewrite (substring_range v 0 3) by lia.
  rewrite (substring_to_end v 3) by lia.
  change (Z.to_nat (3 - 0)) with 3. change (Z.to_nat 0) with 0.
  change (Z.to_nat 3) with 3. rewrite skipn_O. fold rest.
  rewrite js_or_str.
  rewrite (split_ws_word rest 0) by apply trim_no_lead.
  rewrite !get_own_assign by reflexivity. eval_keys.
  repeat split.
  rewrite split_ws_trimmed by (apply trim_no_lead || apply trim_last).
  clearbody rest. now destruct rest.
Qed.

(** The branch of the labels that begin with FOA AUG, on any record
    under construction. *)
Lemma foa_block_branch :
  forall (label slice : jsstring) (o : obj jsval),
    startsWith (js "FOA AUG") label = true ->
    let r := decode_column label (trim slice) o in
    get_own r (js "FOA") = Some (VStr (spec_word 0 slice))
    /\ get_own r (js "Gms") = Some (VStr (spec_word 1 slice))
    /\ get_own r (js "K") = Some (VStr (spec_word 2 slice))
    /\ get_own r (js "Rating") = Some (VStr (spec_word 1 label)).
Proof.
  intros label slice o H r. subst r. unfold decode_column.
  destruct (FOA_label_not_fed label H) as (E1 & E2 & Hl).
  rewrite E1, E2, H.
  rewrite !(split_ws_word (trim slice)) by apply trim_no_lead.
  rewrite (split_ws_word label 1) by assumption.
  unfold spec_word. rewrite spec_words_trim.
  rewrite !get_own_assign by reflexivity. eval_keys.
  repeat split.
Qed.

(** ** The row decoder is total *)

Lemma set_own_all_strings (o : obj jsval) (k s : jsstring) :
  all_strings o -> all_strings (set_own o k (VStr s)).
Proof.
  unfold all_strings. induction 1 as [|[k0 v0] o H0 Ho IH]; simpl.
  - repeat constructor. now exists s.
  - destruct (str_eqb k0 k); constructor; auto. now exists s.
Qed.

Lemma assign_all_strings (o : obj jsval) (k : jsstring) (v : jsval) :
  (exists s, v = VStr s) -> all_strings o -> all_strings (assign o k v).
Proof.
  intros [s ->] H. unfold assign.
  destruct (str_eqb k (js "__proto__")); [assumption|].
  now apply set_own_all_strings.
Qed.

Lemma decode_column_all_strings (label value : jsstring) (o : obj jsval) :
  all_strings o -> all_strings (decode_column label value o).
Proof.
  intros H. unfold decode_column.
  repeat match goal with
         | |- all_strings (if ?b then _ else _) => destruct b
         | |- all_strings (assign _ _ _) => apply assign_all_strings
         | |- exists s, js_or _ (VStr _) = VStr s => apply js_or_is_str
         | |- exists s, VStr _ = VStr s => eexists; reflexivity
         end; assumption.
Qed.

Lemma foldM_invariant {A S} (f : S -> A -> result S) (P : S -> Prop)
  (Q : A -> Prop) (l : list A) :
  (forall s a, P s -> Q a -> exists s', f s a = Ok s' /\ P s') ->
  Forall Q l ->
  forall s, P s -> exists s', foldM f l s = Ok s' /\ P s'.
Proof.
  intros Hf Hl. induction Hl as [|a l Ha Hl IH]; intros s Hs; simpl.
  - eauto.
  - destruct (Hf s a Hs Ha) as (s1 & E & H1). rewrite E. simpl. now apply IH.
Qed.

Lemma seq_below (n : nat) : Forall (fun i => i < n) (seq 0 n).
Proof. apply Forall_forall. intros i H. apply in_seq in H. lia. Qed.

Lemma decodeLine_total (L : Layout) (line : jsstring) :
  exists r, decodeLine L line = Ok r /\ all_strings r.
Proof.
  unfold decodeLine.
  apply (foldM_invariant (decode_step L line) all_strings
           (fun i => i < length (columns L))).
  - intros o i Ho Hi. unfold decode_step.
    destruct (nth_error (columns L) i) as [label|] eqn:E.
    + eexists. split; [reflexivity|]. now apply decode_column_all_strings.
    + apply nth_error_None in E. lia.
  - apply seq_below.
  - constructor.
Qed.

(** C2: for every layout and every line the row decoder returns a record
    and does not throw, every value of the record is a string, the slice
    of a column is cut within the line, a column whose range starts at or
    after the end of the line has the empty slice, and the empty layout
    gives the empty record. *)
Theorem row_decoder_total :
  forall (L : Layout) (line : jsstring),
    (exists r, decodeLine L line = Ok r
               /\ Forall (fun e => exists s, snd e = VStr s) r)
    /\ (forall i, length (slice_value L line i) <= length line)
    /\ (forall i start,
           nth_error (colPositions L) i = Some start ->
           (len line <= start)%Z ->
           (forall e, nth_error (colPositions L) (i + 1) = Some e ->
                      (start <= e)%Z) ->
           slice_value L line i = [])
    /\ (forall ps, decodeLine (mkLayout [] ps) line = Ok []).
Proof.
  intros L line. split; [apply decodeLine_total|]. split; [|split].
  - intros i. unfold slice_value.
    etransitivity; [apply trim_length|apply substring_le_length].
  - intros i start Hs Hlen He. unfold slice_value. rewrite Hs.
    now rewrite substring_short.
  - reflexivity.
Qed.

Lemma row_decoder_total_witness :
  let L := mkLayout [js "ID"; js "Name"; js "Fed"] [0; 4; 12; 15]%Z in
  (exists r, decodeLine L (js "17  Bob") = Ok r
             /\ Forall (fun e => exists s, snd e = VStr s) r)
  /\ slice_value L (js "17  Bob") 2 = [].
Proof.
  intros L. destruct (row_decoder_total L (js "17  Bob")) as (H1 & _ & H2 & _).
  split; [exact H1|].
  apply (H2 2 12%Z); [reflexivity | vm_compute; discriminate |].
  intros e He. injection He as <-. lia.
Defined.

(** ** Keys of an object *)

Lemma set_own_keys {A} (o : obj A) (k : jsstring) (v : A) :
  map fst (set_own o k v) = add_key (map fst o) k.
Proof.
  induction o as [|[k0 v0] o IH]; simpl; [reflexivity|].
  destruct (str_eqb k0 k); simpl; [reflexivity|]. now rewrite IH.
Qed.

Lemma add_key_In (ks : list jsstring) (k k' : jsstring) :
  In k' (add_key ks k) <-> In k' ks \/ k' = k.
Proof.
  induction ks as [|k0 ks IH]; simpl.
  - intuition congruence.
  - destruct (str_eqb k0 k) eqn:E; simpl.
    + apply str_eqb_eq in E. subst. intuition congruence.
    + rewrite IH. intuition.
Qed.

Lemma add_key_NoDup (ks : list jsstring) (k : jsstring) :
  NoDup ks -> NoDup (add_key ks k).
Proof.
  induction 1 as [|k0 ks Hn Hd IH]; simpl.
  - repeat constructor. intros [].
  - destruct (str_eqb k0 k) eqn:E.
    + now constructor.
    + constructor; [|exact IH]. rewrite add_key_In. intros [H|H]; [auto|].
      subst. now rewrite str_eqb_refl in E.
Qed.

Lemma get_own_In {A} (o : obj A) (k : jsstring) (v : A) :
  get_own o k = Some v -> In (k, v) o.
Proof.
  induction o as [|[k0 v0] o IH]; simpl; [discriminate|].
  destruct (str_eqb k0 k) eqn:E.
  - apply str_eqb_eq in E. intros [= ->]. subst. now left.
  - auto.
Qed.

Lemma In_get_own {A} (o : obj A) (k : jsstring) (v : A) :
  NoDup (map fst o) -> In (k, v) o -> get_own o k = Some v.
Proof.
  induction o as [|[k0 v0] o IH]; simpl; [intros _ []|].
  intros Hd [H|H].
  - injection H as -> ->. now rewrite str_eqb_refl.
  - inversion Hd as [|? ? Hn Hd']; subst.
    destruct (str_eqb k0 k) eqn:E; [|now apply IH].
    apply str_eqb_eq in E. subst. exfalso. apply Hn.
    apply in_map_iff. now exists (k, v).
Qed.

(** ** The partitioner *)

Lemma trim_nil_iff (s : jsstring) : trim s = [] <-> forallb is_ws s = true.
Proof.
  unfold trim. induction s as [|c r IH]; simpl; [now split|].
  destruct (is_ws c) eqn:E; simpl; [exact IH|].
  destruct (trimEnd_cons_keep c r E) as [u ->]. split; discriminate.
Qed.

Lemma indexOf_from_first (p : jsstring) (n : nat) :
  forall s pos,
    startsWith p (skipn n s) = true ->
    (forall q, q < n -> startsWith p (skipn q s) = false) ->
    indexOf_from p s pos = (pos + Z.of_nat n)%Z.
Proof.
  induction n as [|n IH]; intros s pos H1 H2.
  - simpl in H1. destruct s; simpl; rewrite H1; lia.
  - assert (H0 : startsWith p s = false) by (apply (H2 0); lia).
    destruct s as [|c r].
    + simpl in H1. congruence.
    + simpl. rewrite H0. rewrite IH.
      * lia.
      * exact H1.
      * intros q Hq. apply (H2 (S q)). lia.
Qed.

Lemma indexOf_from_absent (p s : jsstring) (pos : Z) :
  includes p s = false -> indexOf_from p s pos = (-1)%Z.
Proof.
  revert pos; induction s as [|c r IH]; intros pos H; simpl in *.
  - apply orb_false_iff in H as [-> _]. reflexivity.
  - apply orb_false_iff in H as [-> H]. now apply IH.
Qed.

Lemma fed_of_length (header line : jsstring) : length (fed_of header line) <= 3.
Proof.
  unfold fed_of. etransitivity; [apply trim_length|].
  pose proof (substring_length line (fedStart header) (fedEnd header)) as H.
  unfold fedEnd in *. change (len (js "Fed")) with 3%Z in *. lia.
Qed.

Lemma inherited_long (k : jsstring) : inherited k = true -> 7 <= length k.
Proof.
  unfold inherited. intros H. apply existsb_exists in H as (n & Hin & He).
  apply str_eqb_eq in He. subst n.
  unfold object_prototype_names in Hin. cbn in Hin.
  repeat (destruct Hin as [<- | Hin]; [simpl; lia|]). destruct Hin.
Qed.

Lemma set_own_twice {A} (o : obj A) (k : jsstring) (v v' : A) :
  set_own (set_own o k v) k v' = set_own o k v'.
Proof.
  induction o as [|[k0 v0] o IH]; simpl.
  - now rewrite str_eqb_refl.
  - destruct (str_eqb k0 k) eqn:E; simpl; rewrite E; [reflexivity|].
    now rewrite IH.
Qed.

Lemma group_step_ok (header line : jsstring) (fedMap : obj (list jsstring)) :
  group_step header fedMap line
  = Ok match fed_of header line with
       | [] => fedMap
       | fed => set_own fedMap fed
                        (match get_own fedMap fed with
                         | Some arr => arr
                         | None => []
                         end ++ [line])
       end.
Proof.
  unfold group_step. pose proof (fed_of_length header line) as Hl.
  destruct (fed_of header line) as [|c fed] eqn:E; [reflexivity|].
  unfold lookup. destruct (get_own fedMap (c :: fed)) as [arr|] eqn:G.
  - now rewrite G.
  - destruct (inherited (c :: fed)) eqn:I.
    + apply inherited_long in I. simpl in I, Hl. lia.
    + rewrite get_own_set_own, str_eqb_refl. now rewrite set_own_twice.
Qed.

Lemma groupLines_from (header : jsstring) (dataLines : list jsstring) :
  forall m0, NoDup (map fst m0) ->
    exists m, foldM (group_step header) dataLines m0 = Ok m
      /\ NoDup (map fst m)
      /\ forall k, get_own m k
                   = match get_own m0 k, group_of header k dataLines with
                     | Some g, f => Some (g ++ f)
                     | None, [] => None
                     | None, f => Some f
                     end.
Proof.
  induction dataLines as [|line rest IH]; intros m0 Hd; simpl.
  - exists m0. split; [reflexivity|]. split; [assumption|]. intros k.
    destruct (get_own m0 k); [now rewrite app_nil_r|reflexivity].
  - rewrite group_step_ok. simpl.
    destruct (fed_of header line) as [|c fed] eqn:E.
    + destruct (IH m0 Hd) as (m & Hm & Hn & Hg). exists m.
      split; [assumption|]. split; [assumption|]. intros k. rewrite Hg.
      reflexivity.
    + set (m1 := set_own m0 (c :: fed) _).
      assert (Hd1 : NoDup (map fst m1)).
      { unfold m1. rewrite set_own_keys. now apply add_key_NoDup. }
      destruct (IH m1 Hd1) as (m & Hm & Hn & Hg). exists m.
      split; [assumption|]. split; [assumption|]. intros k. rewrite Hg.
      unfold m1. rewrite get_own_set_own.
      fold (group_of header k rest).
      change (nonempty (c :: fed)) with true. rewrite andb_true_l.
      destruct (str_eqb (c :: fed) k) eqn:Ek.
      * apply str_eqb_eq in Ek. subst k.
        destruct (get_own m0 (c :: fed)); simpl.
        -- now rewrite <- app_assoc.
        -- reflexivity.
      * reflexivity.
Qed.

Lemma groupLines_spec (header : jsstring) (dataLines : list jsstring) :
  exists fedMap, groupLines header dataLines = Ok fedMap
    /\ NoDup (map fst fedMap)
    /\ forall k, get_own fedMap k
                 = match group_of header k dataLines with
                   | [] => None
                   | f => Some f
                   end.
Proof.
  destruct (groupLines_from header dataLines [] (NoDup_nil _))
    as (m & Hm & Hn & Hg).
  exists m. split; [assumption|]. split; assumption.
Qed.

Lemma group_of_In (header fed line : jsstring) (dataLines : list jsstring) :
  In line (group_of header fed dataLines)
  <-> In line dataLines /\ fed_of header line = fed /\ fed <> [].
Proof.
  unfold group_of. rewrite filter_In, andb_true_iff, str_eqb_eq.
  split.
  - intros (H1 & H2 & H3). subst fed. repeat split; auto.
    intros E. rewrite E in H2. discriminate.
  - intros (H1 & H2 & H3). subst fed. repeat split; auto.
    now destruct (fed_of header line).
Qed.

Lemma group_of_filter (header fed : jsstring) (dataLines : list jsstring) :
  fed <> [] ->
  group_of header fed dataLines
  = filter (fun l => str_eqb (fed_of header l) fed) dataLines.
Proof.
  intros H. unfold group_of. apply filter_ext. intros l.
  destruct (fed_of header l) eqn:E; simpl; [|reflexivity].
  destruct fed; [congruence|reflexivity].
Qed.

(** The groups of a partition, stated once for every way of cutting the
    key out of a line. *)
Lemma groups_partition (header : jsstring) (dataLines : list jsstring) :
  exists fedMap, groupLines header dataLines = Ok fedMap
    /\ NoDup (map fst fedMap)
    /\ (forall fed fedLines,
           In (fed, fedLines) fedMap ->
           fed <> [] /\ fedLines <> []
           /\ fedLines
              = filter (fun l => str_eqb (fed_of header l) fed) dataLines)
    /\ (forall line,
           In line dataLines -> fed_of header line <> [] ->
           exists fedLines,
             In (fed_of header line, fedLines) fedMap /\ In line fedLines)
    /\ (forall line,
           fed_of header line = [] ->
           forall fed fedLines,
             In (fed, fedLines) fedMap -> ~ In line fedLines).
Proof.
  destruct (groupLines_spec header dataLines) as (m & Hm & Hn & Hg).
  exists m. split; [assumption|]. split; [assumption|].
  assert (Hin : forall fed fedLines, In (fed, fedLines) m ->
                  fedLines = group_of header fed dataLines /\ fedLines <> []).
  { intros fed g H. apply (In_get_own m fed g Hn) in H. rewrite Hg in H.
    destruct (group_of header fed dataLines) eqn:E; [discriminate|].
    injection H as <-. split; [reflexivity|discriminate]. }
  repeat split.
  - intros E. subst fed. destruct (Hin _ _ H) as [-> Hne].
    destruct (group_of header [] dataLines) as [|l g] eqn:Eg; [congruence|].
    assert (Hl : In l (group_of header [] dataLines)) by (rewrite Eg; now left).
    apply group_of_In in Hl. now destruct Hl as (_ & _ & Hl).
  - now destruct (Hin _ _ H).
  - destruct (Hin _ _ H) as [-> Hne]. apply group_of_filter.
    intros E. subst fed.
    destruct (group_of header [] dataLines) as [|l g] eqn:Eg; [congruence|].
    assert (Hl : In l (group_of header [] dataLines)) by (rewrite Eg; now left).
    apply group_of_In in Hl. now destruct Hl as (_ & _ & Hl).
  - intros line Hl Hk.
    assert (Hi : In line (group_of header (fed_of header line) dataLines))
      by (apply group_of_In; auto).
    exists (group_of header (fed_of header line) dataLines). split; [|exact Hi].
    apply get_own_In. rewrite Hg.
    destruct (group_of header (fed_of header line) dataLines); [destruct Hi|].
    reflexivity.
  - intros line Hk fed g H Hl. destruct (Hin _ _ H) as [-> _].
    apply group_of_In in Hl. destruct Hl as (_ & E & Hne). congruence.
Qed.

(** C4: the partitioner never throws; the key of a line is the trimmed
    slice under the three characters where Fed first occurs in the
    header; a line whose key slice is empty or all whitespace is in no
    group, every other line is in the group of its key, each group keeps
    the lines in their order in the file, and no group has the empty
    key. *)
Theorem partitioner_groups_by_fed :
  forall (header : jsstring) (dataLines : list jsstring),
    (exists fedMap, groupLines header dataLines = Ok fedMap
       /\ NoDup (map fst fedMap)
       /\ (forall fed fedLines,
              In (fed, fedLines) fedMap ->
              fed <> [] /\ fedLines <> []
              /\ fedLines
                 = filter (fun l => str_eqb (fed_of header l) fed) dataLines)
       /\ (forall line,
              In line dataLines -> fed_of header line <> [] ->
              exists fedLines,
                In (fed_of header line, fedLines) fedMap /\ In line fedLines)
       /\ (forall line,
              fed_of header line = [] ->
              forall fed fedLines,
                In (fed, fedLines) fedMap -> ~ In line fedLines))
    /\ (forall line,
           fed_of header line = []
           <-> forallb is_ws (substring line (Some (fedStart header))
                                             (Some (fedEnd header))) = true)
    /\ (forall p,
           startsWith (js "Fed") (skipn p header) = true ->
           (forall q, q < p ->
                      startsWith (js "Fed") (skipn q header) = false) ->
           forall line, fed_of header line = trim (firstn 3 (skipn p line))).
Proof.
  intros header dataLines. split; [apply groups_partition|]. split.
  - intros line. apply trim_nil_iff.
  - intros p H1 H2 line. unfold fed_of, fedEnd, fedStart, indexOf.
    rewrite (indexOf_from_first (js "Fed") p header 0 H1 H2).
    rewrite substring_range by (change (len (js "Fed")) with 3%Z; lia).
    change (len (js "Fed")) with 3%Z.
    replace (Z.to_nat (0 + Z.of_nat p + 3 - (0 + Z.of_nat p))) with 3 by lia.
    now replace (Z.to_nat (0 + Z.of_nat p)) with p by lia.
Qed.

Lemma partitioner_groups_by_fed_witness :
  let header := js "ID  Fed  Name" in
  let dataLines := [js "1   USA  Ann"; js "2        Bob"; js "3   IND  Cy";
                    js "4   USA  Dee"] in
  groupLines header dataLines
  = Ok [(js "USA", [js "1   USA  Ann"; js "4   USA  Dee"]);
        (js "IND", [js "3   IND  Cy"])]
  /\ forall line, fed_of header line = trim (firstn 3 (skipn 4 line)).
Proof.
  intros header dataLines. split; [reflexivity|].
  destruct (partitioner_groups_by_fed header dataLines) as (_ & _ & H).
  apply (H 4); [reflexivity|].
  intros q Hq.
  destruct q as [|[|[|[|q]]]]; [reflexivity | reflexivity | reflexivity
                               | reflexivity | lia].
Defined.

(** C10: when the header does not contain Fed, the label search gives
    -1, the key of a line is its trimmed two-character prefix, the
    partitioner does not throw, and every line whose trimmed prefix is
    not empty is kept, in the group of that prefix. *)
Theorem partition_without_fed_label :
  forall (header : jsstring) (dataLines : list jsstring),
    includes (js "Fed") header = false ->
    fedStart header = (-1)%Z
    /\ fedEnd header = 2%Z
    /\ (forall line, fed_of header line = trim (firstn 2 line))
    /\ exists fedMap, groupLines header dataLines = Ok fedMap
         /\ (forall fed fedLines,
                In (fed, fedLines) fedMap ->
                fed <> []
                /\ fedLines
                   = filter (fun l => str_eqb (trim (firstn 2 l)) fed)
                            dataLines)
         /\ (forall line,
                In line dataLines -> trim (firstn 2 line) <> [] ->
                exists fedLines,
                  In (trim (firstn 2 line), fedLines) fedMap
                  /\ In line fedLines).
Proof.
  intros header dataLines H.
  assert (Hs : fedStart header = (-1)%Z)
    by (apply indexOf_from_absent; exact H).
  assert (Hk : forall line, fed_of header line = trim (firstn 2 line)).
  { intros line. unfold fed_of, fedEnd. rewrite Hs.
    now rewrite substring_negative_start by (vm_compute; split; discriminate). }
  split; [exact Hs|]. split; [unfold fedEnd; now rewrite Hs|].
  split; [exact Hk|].
  destruct (groups_partition header dataLines) as (m & Hm & _ & H1 & H2 & _).
  exists m. split; [exact Hm|]. split.
  - intros fed g Hin. destruct (H1 fed g Hin) as (Ha & _ & Hb).
    split; [exact Ha|]. rewrite Hb. apply filter_ext. intros l. now rewrite Hk.
  - intros line Hin Hne. rewrite <- Hk in *. now apply H2.
Qed.

Lemma partition_without_fed_label_witness :
  let header := js "ID Number  Name" in
  let dataLines := [js "AB123"; js "  zzz"; js "ABx"; js "C"] in
  fedStart header = (-1)%Z
  /\ groupLines header dataLines
     = Ok [(js "AB", [js "AB123"; js "ABx"]); (js "C", [js "C"])].
Proof.
  intros header dataLines.
  destruct (partition_without_fed_label header dataLines eq_refl)
    as (H & _).
  split; [exact H|reflexivity].
Defined.

(** ** The column layout extractor *)

Lemma lazy_star_cons (c : char) (r : jsstring) :
  lazy_star (c :: r)
  = if lookahead (c :: r) then Some 0
    else if in_class c then option_map S (lazy_star r) else None.
Proof. reflexivity. Qed.

Lemma lazy_star_le (r : jsstring) :
  forall k, lazy_star r = Some k -> k <= length r.
Proof.
  induction r as [|c r IH]; intros k.
  - simpl. intros [= <-]. lia.
  - rewrite lazy_star_cons.
    destruct (lookahead (c :: r)); [intros [= <-]; lia|].
    destruct (in_class c); [|discriminate].
    destruct (lazy_star r) as [k'|]; [|discriminate].
    intros [= <-]. specialize (IH k' eq_refl). simpl. lia.
Qed.

Lemma match_at_bounds (s : jsstring) (k : nat) :
  match_at s = Some k -> 1 <= k <= length s.
Proof.
  destruct s as [|c r]; simpl; [discriminate|].
  destruct (is_ws c); [discriminate|].
  destruct (lazy_star r) as [k'|] eqn:E; [|discriminate].
  intros [= <-]. apply lazy_star_le in E. lia.
Qed.

Lemma exec_from_bounds (s : jsstring) :
  forall pos i k,
    exec_from s pos = Some (i, k) ->
    pos <= i /\ 1 <= k /\ i + k <= pos + length s.
Proof.
  induction s as [|c r IH]; intros pos i k.
  - simpl. discriminate.
  - cbn [exec_from]. destruct (match_at (c :: r)) as [k0|] eqn:E.
    + intros [= <- <-]. apply match_at_bounds in E. lia.
    + intros H. apply IH in H. simpl. lia.
Qed.

Lemma exec_bounds (header : jsstring) (lastIndex i k : nat) :
  exec header lastIndex = Some (i, k) ->
  lastIndex <= i /\ 1 <= k /\ i + k <= length header.
Proof.
  unfold exec. intros H. apply exec_from_bounds in H.
  rewrite length_skipn in H. lia.
Qed.

Lemma scan_general (fuel : nat) (header : jsstring) :
  forall lastIndex cols poss,
    length header - lastIndex < fuel ->
    exists cols' ps,
      scan fuel header lastIndex cols poss
      = Some (cols ++ cols', poss ++ map Z.of_nat ps)
      /\ length cols' = length ps
      /\ StronglySorted lt ps
      /\ Forall (fun p => lastIndex <= p < length header) ps.
Proof.
  induction fuel as [|fuel IH]; intros lastIndex cols poss Hf.
  - lia.
  - cbn [scan]. destruct (exec header lastIndex) as [[i k]|] eqn:E.
    + apply exec_bounds in E.
      destruct (IH (i + k) (cols ++ [trim (firstn k (skipn i header))])
                   (poss ++ [Z.of_nat i])) as (cols' & ps & H1 & H2 & H3 & H4).
      { lia. }
      exists (trim (firstn k (skipn i header)) :: cols'), (i :: ps).
      rewrite H1. rewrite <- !app_assoc. split; [reflexivity|].
      split; [simpl; now rewrite H2|]. split.
      * constructor; [assumption|].
        eapply Forall_impl; [|exact H4]. simpl. intros; lia.
      * constructor; [lia|].
        eapply Forall_impl; [|exact H4]. simpl. intros; lia.
    + exists [], []. rewrite !app_nil_r. repeat split; constructor.
Qed.

Lemma sorted_with_end (ps : list nat) (n : nat) :
  StronglySorted lt ps -> Forall (fun p => p < n) ps ->
  StronglySorted Z.lt (map Z.of_nat ps ++ [Z.of_nat n]).
Proof.
  induction 1 as [|p ps Hs IH Hp]; intros Hn; simpl.
  - repeat constructor.
  - inversion Hn as [|? ? Hpn Hn']; subst. constructor; [now apply IH|].
    apply Forall_app. split.
    + apply Forall_map. eapply Forall_impl; [|exact Hp]. simpl. intros; lia.
    + repeat constructor. lia.
Qed.

Lemma extractLayout_general (header : jsstring) :
  exists L, extractLayout header = Some L
    /\ length (colPositions L) = S (length (columns L))
    /\ StronglySorted Z.lt (colPositions L)
    /\ last (colPositions L) 0%Z = len header.
Proof.
  unfold extractLayout.
  destruct (scan_general (S (length header)) header 0 [] [])
    as (cols & ps & H1 & H2 & H3 & H4); [lia|].
  rewrite H1. simpl. eexists. split; [reflexivity|]. simpl.
  split; [|split].
  - rewrite length_app, length_map. simpl. lia.
  - apply sorted_with_end; [assumption|].
    eapply Forall_impl; [|exact H4]. simpl. intros; lia.
  - apply last_last.
Qed.

(** *** The extractor against the tokens of the specification *)

Lemma only_space_cons (c : char) (r : jsstring) :
  only_space_ws (c :: r) = true ->
  (is_ws c = true -> is_space c = true) /\ only_space_ws r = true.
Proof.
  unfold only_space_ws. simpl. intros H. apply andb_true_iff in H as [H1 H2].
  split; [|exact H2]. intros Hc. now rewrite Hc in H1.
Qed.

Lemma only_space_skipn (n : nat) (s : jsstring) :
  only_space_ws s = true -> only_space_ws (skipn n s) = true.
Proof.
  revert s; induction n as [|n IH]; intros s H; [exact H|].
  destruct s as [|c r]; [exact H|]. simpl. apply IH.
  now apply only_space_cons in H.
Qed.

Lemma not_ws_not_space (c : char) : is_ws c = false -> is_space c = false.
Proof.
  intros H. destruct (is_space c) eqn:E; [|reflexivity].
  apply is_space_ws in E. congruence.
Qed.

Lemma trimEnd_id (s : jsstring) : last_ws true s = false -> trimEnd s = s.
Proof.
  destruct s as [|c s] using rev_ind; [discriminate|].
  rewrite last_ws_app. apply trimEnd_snoc_keep.
Qed.

Lemma lookahead_not_ws (c : char) (r : jsstring) :
  is_ws c = false -> lookahead (c :: r) = false.
Proof. intros H. destruct r; simpl; [reflexivity|]. now rewrite H. Qed.

Lemma token_open_last (tok : jsstring) (c : char) (r : jsstring) :
  is_ws c = true -> token_open tok (c :: r) -> last_ws true tok = false.
Proof.
  intros Hc [H|(c' & r' & E & H)]; [exact H|].
  injection E as <- <-. congruence.
Qed.

Lemma token_open_nil (tok : jsstring) :
  token_open tok [] -> last_ws true tok = false.
Proof. intros [H|(c' & r' & E & H)]; [exact H|discriminate]. Qed.

Lemma spec_tokens_cons (pos : nat) (cur : option (nat * jsstring))
  (c : char) (r : jsstring) :
  spec_tokens pos cur (c :: r)
  = if is_space c then
      match cur with
      | None => spec_tokens (S pos) None r
      | Some (st, tok) =>
          match r with
          | [] => [(st, tok)]
          | c' :: _ =>
              if is_space c' then (st, tok) :: spec_tokens (S pos) None r
              else spec_tokens (S pos) (Some (st, tok ++ [c])) r
          end
      end
    else
      match cur with
      | None => spec_tokens (S pos) (Some (pos, [c])) r
      | Some (st, tok) => spec_tokens (S pos) (Some (st, tok ++ [c])) r
      end.
Proof. reflexivity. Qed.

Lemma spec_tokens_token (r : jsstring) :
  forall pos st tok,
    only_space_ws r = true -> token_open tok r ->
    exists k,
      lazy_star r = Some k
      /\ spec_tokens pos (Some (st, tok)) r
         = (st, trimEnd (tok ++ firstn k r))
             :: spec_tokens (pos + k) None (skipn k r).
Proof.
  induction r as [|c r IH]; intros pos st tok Ho Ht.
  - exists 0. split; [reflexivity|]. simpl. rewrite app_nil_r.
    now rewrite trimEnd_id by (now apply token_open_nil).
  - apply only_space_cons in Ho as [Hc Ho].
    rewrite lazy_star_cons.
    rewrite (spec_tokens_cons pos (Some (st, tok)) c r).
    destruct (is_ws c) eqn:Ec.
    + specialize (Hc eq_refl). rewrite Hc.
      pose proof (token_open_last tok c r Ec Ht) as Hl.
      assert (Hin : in_class c = true)
        by (unfold in_class; now rewrite Hc, orb_true_r).
      destruct r as [|c' r'].
      * exists 1. simpl lookahead. rewrite Hin. split; [reflexivity|].
        simpl. rewrite trimEnd_snoc_ws by assumption. now rewrite trimEnd_id.
      * destruct (is_ws c') eqn:Ec'.
        -- exists 0. simpl lookahead. rewrite Ec, Ec'. split; [reflexivity|].
           pose proof (only_space_cons c' r' Ho) as [Hc' _].
           specialize (Hc' Ec'). rewrite Hc'.
           simpl firstn. simpl skipn. rewrite app_nil_r, Nat.add_0_r.
           rewrite trimEnd_id by assumption.
           rewrite (spec_tokens_cons pos None c (c' :: r')). now rewrite Hc.
        -- destruct (IH (S pos) st (tok ++ [c]) Ho) as (k & Hk & Hs).
           { right. now exists c', r'. }
           exists (S k). simpl lookahead. rewrite Ec, Ec', Hin, Hk.
           split; [reflexivity|].
           rewrite (not_ws_not_space c' Ec').
           eapply eq_trans; [exact Hs|]. simpl firstn. simpl skipn.
           rewrite <- app_assoc. simpl. now rewrite Nat.add_succ_r.
    + destruct (IH (S pos) st (tok ++ [c]) Ho) as (k & Hk & Hs).
      { left. now rewrite last_ws_app. }
      exists (S k). rewrite (lookahead_not_ws c r Ec), Hk.
      unfold in_class. rewrite Ec. split; [reflexivity|].
      rewrite (not_ws_not_space c Ec).
      eapply eq_trans; [exact Hs|]. simpl firstn. simpl skipn.
      rewrite <- app_assoc. simpl. now rewrite Nat.add_succ_r.
Qed.

Lemma exec_from_spec (s : jsstring) :
  forall pos,
    only_space_ws s = true ->
    match exec_from s pos with
    | None => spec_tokens pos None s = []
    | Some (i, k) =>
        pos <= i
        /\ spec_tokens pos None s
           = (i, trim (firstn k (skipn (i - pos) s)))
               :: spec_tokens (i + k) None (skipn (i - pos + k) s)
    end.
Proof.
  induction s as [|c r IH]; intros pos Ho; [reflexivity|].
  apply only_space_cons in Ho as [Hc Ho].
  rewrite (spec_tokens_cons pos None c r).
  cbn [exec_from match_at]. destruct (is_ws c) eqn:Ec.
  - specialize (Hc eq_refl). specialize (IH (S pos) Ho). rewrite Hc.
    destruct (exec_from r (S pos)) as [[i k]|]; [|exact IH].
    destruct IH as [Hi IH]. split; [lia|]. rewrite IH.
    replace (i - pos) with (S (i - S pos)) by lia. reflexivity.
  - destruct (spec_tokens_token r (S pos) pos [c] Ho) as (k & Hk & Hs).
    { left. simpl. exact Ec. }
    rewrite Hk. simpl option_map. cbv iota. split; [lia|].
    rewrite (not_ws_not_space c Ec).
    eapply eq_trans; [exact Hs|].
    rewrite Nat.sub_diag. simpl skipn. simpl firstn.
    unfold trim. cbn [trimStart]. rewrite Ec.
    now rewrite Nat.add_succ_r.
Qed.

Lemma scan_spec (fuel : nat) (header : jsstring) :
  only_space_ws header = true ->
  forall lastIndex cols poss,
    length header - lastIndex < fuel ->
    let T := spec_tokens lastIndex None (skipn lastIndex header) in
    scan fuel header lastIndex cols poss
    = Some (cols ++ map snd T, poss ++ map (fun t => Z.of_nat (fst t)) T).
Proof.
  intros Ho. induction fuel as [|fuel IH]; intros lastIndex cols poss Hf T.
  - lia.
  - cbn [scan]. subst T.
    pose proof (exec_from_spec (skipn lastIndex header) lastIndex
                  (only_space_skipn lastIndex header Ho)) as Hs.
    fold (exec header lastIndex) in Hs.
    destruct (exec header lastIndex) as [[i k]|] eqn:E.
    + destruct Hs as [Hi Hs]. apply exec_bounds in E.
      rewrite IH by lia. rewrite Hs.
      rewrite !skipn_skipn.
      replace (i - lastIndex + lastIndex) with i by lia.
      replace (i - lastIndex + k + lastIndex) with (i + k) by lia.
      simpl. now rewrite <- !app_assoc.
    + rewrite Hs. simpl. now rewrite !app_nil_r.
Qed.

(** C1, as the code has it: for every header the extractor ends and
    gives a layout with one more offset than columns, the offsets
    strictly ascending and the last one equal to the length of the
    header; for every header whose only whitespace characters are spaces
    the labels and start offsets are those of the maximal tokens
    separated by runs of two or more spaces. *)
Theorem layout_extractor :
  forall header : jsstring,
    exists L, extractLayout header = Some L
      /\ length (colPositions L) = S (length (columns L))
      /\ StronglySorted Z.lt (colPositions L)
      /\ last (colPositions L) 0%Z = len header
      /\ (only_space_ws header = true ->
          columns L = map snd (spec_layout header)
          /\ colPositions L
             = map (fun t => Z.of_nat (fst t)) (spec_layout header)
               ++ [len header]).
Proof.
  intros header.
  destruct (extractLayout_general header) as (L & H1 & H2 & H3 & H4).
  exists L. repeat (split; [assumption|]).
  intros Ho. unfold extractLayout in H1.
  rewrite (scan_spec (S (length header)) header Ho 0 [] []) in H1 by lia.
  injection H1 as <-. simpl. split; reflexivity.
Qed.

Lemma layout_extractor_witness :
  exists L, extractLayout (js "Fed Sex Tit   Name") = Some L
    /\ columns L = [js "Fed Sex Tit"; js "Name"]
    /\ colPositions L = [0; 14; 18]%Z.
Proof.
  destruct (layout_extractor (js "Fed Sex Tit   Name"))
    as (L & H1 & _ & _ & _ & H5).
  exists L. split; [exact H1|]. exact (H5 eq_refl).
Defined.

(** C1, as stated, fails: a header with a run of two spaces and a tab.
    The extractor gives the columns B and C; the tokens between runs of
    two or more spaces are A-tab-B and C. *)
Lemma layout_extractor_tab_counterexample :
  let header := js "A" ++ [TAB] ++ js "B  C" in
  has_space_run header = true
  /\ extractLayout header
     = Some (mkLayout [js "B"; js "C"] [2; 5; 6]%Z)
  /\ map snd (spec_layout header) = [js "A" ++ [TAB] ++ js "B"; js "C"]
  /\ [js "B"; js "C"] <> map snd (spec_layout header).
Proof.
  intros header. repeat split. discriminate.
Qed.

(** ** The delimited-text emitter and its reader *)

Lemma includes_single (c : char) (s : jsstring) :
  includes [c] s = existsb (char_eqb c) s.
Proof.
  induction s as [|x s IH]; [reflexivity|].
  cbn [includes startsWith existsb]. rewrite IH. now rewrite andb_true_r.
Qed.

Lemma csv_unquoted_run (s : jsstring) :
  forall cur rest,
    existsb (char_eqb COMMA) s = false ->
    spec_csv_go Unquoted cur (s ++ rest)
    = spec_csv_go Unquoted (rev s ++ cur) rest.
Proof.
  induction s as [|c s IH]; intros cur rest H; [reflexivity|].
  cbn [existsb] in H. apply orb_false_iff in H as [Hc H].
  unfold char_eqb in Hc. rewrite N.eqb_sym in Hc.
  cbn [app spec_csv_go]. unfold char_eqb at 1. rewrite Hc.
  rewrite IH by assumption. simpl. now rewrite <- app_assoc.
Qed.

Lemma csv_quoted_run (s : jsstring) :
  forall cur rest,
    spec_csv_go Quoted cur (double_quotes s ++ DQUOTE :: rest)
    = spec_csv_go QuoteSeen (rev s ++ cur) rest.
Proof.
  induction s as [|c s IH]; intros cur rest; [reflexivity|].
  unfold double_quotes. cbn [flat_map]. fold (double_quotes s).
  destruct (char_eqb c DQUOTE) eqn:E.
  - unfold char_eqb in E. apply N.eqb_eq in E. subst c.
    cbn [app spec_csv_go]. change (char_eqb DQUOTE DQUOTE) with true. cbv iota.
    rewrite IH. simpl. now rewrite <- app_assoc.
  - cbn [app spec_csv_go]. rewrite E. rewrite IH. simpl.
    now rewrite <- app_assoc.
Qed.

Lemma csv_end_of_field (st : spec_csv_state) (cur rest : jsstring) :
  st = Unquoted \/ st = QuoteSeen -> row_rest rest ->
  spec_csv_go st cur rest = rev cur :: fields_after rest.
Proof.
  intros Hst [-> | [r ->]]; [reflexivity|].
  destruct Hst as [-> | ->]; reflexivity.
Qed.

Lemma csv_field (v : jsval) (rest : jsstring) :
  row_rest rest ->
  spec_csv_go FieldStart [] (csv_cell v ++ rest)
  = str_of v :: fields_after rest.
Proof.
  intros Hr.
  change (csv_cell v)
    with (if includes [COMMA] (str_of v) || includes [DQUOTE] (str_of v)
             || includes [NEWLINE] (str_of v)
          then [DQUOTE] ++ double_quotes (str_of v) ++ [DQUOTE]
          else str_of v).
  generalize (str_of v) as s. intros s.
  rewrite !includes_single.
  destruct (existsb (char_eqb COMMA) s) eqn:Ec;
    [|destruct (existsb (char_eqb DQUOTE) s) eqn:Eq;
      [|destruct (existsb (char_eqb NEWLINE) s) eqn:En]];
    cbn [orb].
  1,2,3: cbn [app spec_csv_go]; change (char_eqb DQUOTE DQUOTE) with true;
    cbv iota;
    rewrite <- app_assoc; cbn [app]; rewrite csv_quoted_run;
    rewrite csv_end_of_field by auto; now rewrite app_nil_r, rev_involutive.
  destruct s as [|c s'] eqn:Es.
  - destruct Hr as [-> | [r ->]]; reflexivity.
  - cbn [existsb] in Ec, Eq.
    apply orb_false_iff in Ec as [Ec1 Ec2].
    apply orb_false_iff in Eq as [Eq1 Eq2].
    unfold char_eqb in Ec1, Eq1. rewrite N.eqb_sym in Ec1, Eq1.
    cbn [app spec_csv_go]. unfold char_eqb at 1 2. rewrite Eq1, Ec1.
    rewrite csv_unquoted_run by assumption.
    rewrite csv_end_of_field by auto.
    rewrite rev_app_distr, rev_involutive. reflexivity.
Qed.

Lemma spec_csv_split_join (vs : list jsval) :
  vs <> [] ->
  spec_csv_split (join [COMMA] (map csv_cell vs)) = map str_of vs.
Proof.
  unfold spec_csv_split. induction vs as [|v vs IH]; [congruence|]. intros _.
  destruct vs as [|v' vs].
  - simpl. rewrite <- (app_nil_r (csv_cell v)).
    rewrite csv_field by (now left). reflexivity.
  - change (join [COMMA] (map csv_cell (v :: v' :: vs)))
      with (csv_cell v ++ COMMA :: join [COMMA] (map csv_cell (v' :: vs))).
    rewrite csv_field by (right; eauto). cbn [fields_after map].
    f_equal. apply IH. discriminate.
Qed.

(** ** The keys of a decoded record depend on the layout only *)

Lemma assign_keys (o1 o2 : obj jsval) (k : jsstring) (v1 v2 : jsval) :
  map fst o1 = map fst o2 ->
  map fst (assign o1 k v1) = map fst (assign o2 k v2).
Proof.
  intros H. unfold assign. destruct (str_eqb k (js "__proto__")); [exact H|].
  rewrite !set_own_keys. now rewrite H.
Qed.

Lemma decode_column_keys (label v1 v2 : jsstring) (o1 o2 : obj jsval) :
  map fst o1 = map fst o2 ->
  map fst (decode_column label v1 o1) = map fst (decode_column label v2 o2).
Proof.
  intros H. unfold decode_column.
  repeat match goal with
         | |- map fst (if ?b then _ else _) = map fst (if ?b then _ else _) =>
             destruct b
         end;
    repeat apply assign_keys; exact H.
Qed.

Lemma decodeLine_keys (L : Layout) (line1 line2 : jsstring) :
  forall idxs o1 o2 r1 r2,
    map fst o1 = map fst o2 ->
    foldM (decode_step L line1) idxs o1 = Ok r1 ->
    foldM (decode_step L line2) idxs o2 = Ok r2 ->
    map fst r1 = map fst r2.
Proof.
  induction idxs as [|i idxs IH]; intros o1 o2 r1 r2 H; simpl.
  - intros [= <-] [= <-]. exact H.
  - unfold decode_step at 1 3.
    destruct (nth_error (columns L) i) as [label|]; simpl; [|discriminate].
    apply IH. now apply decode_column_keys.
Qed.

Lemma map_fst_filter {A} (p : jsstring -> bool) (o : obj A) :
  map fst (filter (fun e => p (fst e)) o) = filter p (map fst o).
Proof.
  induction o as [|[k v] o IH]; simpl; [reflexivity|].
  destruct (p k); simpl; now rewrite IH.
Qed.

Lemma map_fst_insert_by {A} (f : jsstring -> N) (e : jsstring * A)
  (l : obj A) :
  map fst (insert_by (fun x => f (fst x)) e l)
  = insert_by f (fst e) (map fst l).
Proof.
  induction l as [|y l IH]; simpl; [reflexivity|].
  destruct (f (fst e) <=? f (fst y))%N; simpl; [reflexivity|]. now rewrite IH.
Qed.

Lemma map_fst_sort_by {A} (f : jsstring -> N) (l : obj A) :
  map fst (sort_by (fun x => f (fst x)) l) = sort_by f (map fst l).
Proof.
  induction l as [|y l IH]; simpl; [reflexivity|].
  rewrite map_fst_insert_by. now rewrite IH.
Qed.

Lemma own_keys_order {A} (o : obj A) : own_keys o = key_order (map fst o).
Proof.
  unfold own_keys, own_entries, key_order. rewrite map_app.
  rewrite (map_fst_sort_by index_of_key).
  rewrite (map_fst_filter is_array_index).
  now rewrite (map_fst_filter (fun k => negb (is_array_index k))).
Qed.

Lemma insert_by_In {B} (f : B -> N) (x y : B) (l : list B) :
  In y (insert_by f x l) <-> y = x \/ In y l.
Proof.
  induction l as [|z l IH]; simpl; [intuition|].
  destruct (f x <=? f z)%N; simpl; [intuition|]. rewrite IH. intuition.
Qed.

Lemma sort_by_In {B} (f : B -> N) (y : B) (l : list B) :
  In y (sort_by f l) <-> In y l.
Proof.
  induction l as [|z l IH]; simpl; [reflexivity|].
  rewrite insert_by_In, IH. intuition.
Qed.

Lemma key_order_In (ks : list jsstring) (k : jsstring) :
  In k (key_order ks) <-> In k ks.
Proof.
  unfold key_order. rewrite in_app_iff, sort_by_In, !filter_In.
  destruct (is_array_index k); simpl; intuition discriminate.
Qed.

Lemma In_keys_get_own {A} (o : obj A) (k : jsstring) :
  In k (map fst o) -> exists v, get_own o k = Some v /\ In (k, v) o.
Proof.
  induction o as [|[k0 v0] o IH]; simpl; [intros []|].
  destruct (str_eqb k0 k) eqn:E.
  - apply str_eqb_eq in E. subst. intros _. exists v0. auto.
  - intros [H|H]; [subst; now rewrite str_eqb_refl in E|].
    destruct (IH H) as (v & H1 & H2). exists v. auto.
Qed.

(** C5: a record of the row decoder, written as a row of the CSV file
    under the columns of the first record of its group and split again
    on the commas with the quoting honoured, gives back the value of
    every field; the columns are the keys of the record itself. *)
Theorem csv_round_trip :
  forall (L : Layout) (line0 line : jsstring) (row0 row : obj jsval),
    decodeLine L line0 = Ok row0 ->
    decodeLine L line = Ok row ->
    let csvColumns := own_keys row0 in
    own_keys row = csvColumns
    /\ (forall col, In col csvColumns ->
                    get_own row col = Some (VStr (field row col)))
    /\ spec_csv_split (csv_row csvColumns row)
       = match csvColumns with
         | [] => [[]]
         | _ => map (field row) csvColumns
         end.
Proof.
  intros L line0 line row0 row H0 H csvColumns.
  assert (Hk : own_keys row = csvColumns).
  { unfold csvColumns. rewrite !own_keys_order. f_equal.
    exact (decodeLine_keys L line line0 _ [] [] row row0 eq_refl H H0). }
  split; [exact Hk|]. split.
  - intros col Hc. rewrite <- Hk, own_keys_order, key_order_In in Hc.
    destruct (In_keys_get_own row col Hc) as (v & Hv & Hin).
    destruct (decodeLine_total L line) as (r & Hr & Hs).
    rewrite H in Hr. injection Hr as <-.
    unfold all_strings in Hs. rewrite Forall_forall in Hs.
    destruct (Hs _ Hin) as [s Es]. simpl in Es. subst v.
    unfold field, prop. now rewrite Hv.
  - unfold csv_row. destruct csvColumns as [|c cs] eqn:E; [reflexivity|].
    rewrite <- (map_map (prop row) csv_cell).
    rewrite spec_csv_split_join by discriminate.
    rewrite map_map. reflexivity.
Qed.

Lemma csv_round_trip_witness :
  let L := mkLayout [js "Name"; js "Fed Sex Tit"] [0; 12; 24]%Z in
  let quoted := js "Doe, J " ++ [DQUOTE] ++ js "JD" ++ [DQUOTE] in
  let line := quoted ++ js " USA m  GM" in
  exists row,
    decodeLine L line = Ok row
    /\ csv_row (own_keys row) row
       = [DQUOTE] ++ js "Doe, J " ++ [DQUOTE; DQUOTE] ++ js "JD"
         ++ [DQUOTE; DQUOTE; DQUOTE] ++ js ",USA,m,GM"
    /\ spec_csv_split (csv_row (own_keys row) row)
       = [quoted; js "USA"; js "m"; js "GM"].
Proof.
  intros L quoted line.
  destruct (decodeLine L line) as [row|e] eqn:E; [|discriminate E].
  exists row. split; [reflexivity|].
  destruct (csv_round_trip L line line row row E E) as (_ & _ & H).
  injection E as <-. split; [reflexivity|]. exact H.
Defined.

(** ** formatBytes *)

Lemma string_of_uint_numeric (d : Decimal.uint) :
  numeric (js (NilEmpty.string_of_uint d)).
Proof.
  induction d; simpl; constructor; try reflexivity; assumption.
Qed.

Lemma digits_numeric (n : N) : numeric (digits n).
Proof.
  unfold digits, NilZero.string_of_uint.
  destruct (N.to_uint n); try apply string_of_uint_numeric.
  repeat constructor.
Qed.

Lemma digits_nonempty (n : N) : 1 <= length (digits n).
Proof.
  unfold digits, NilZero.string_of_uint.
  destruct (N.to_uint n); simpl; lia.
Qed.

Lemma numeric_not_In (s : jsstring) (c : char) :
  numeric s -> is_digit c = false -> ~ In c s.
Proof.
  intros H Hc Hin. unfold numeric in H. rewrite Forall_forall in H.
  apply H in Hin. congruence.
Qed.

Lemma char_eqb_eq (a b : char) : char_eqb a b = true <-> a = b.
Proof. apply N.eqb_eq. Qed.

Lemma before_app (stop : char) (a b : jsstring) :
  ~ In stop a -> before stop (a ++ stop :: b) = a.
Proof.
  induction a as [|c a IH]; intros H; simpl.
  - now rewrite (proj2 (char_eqb_eq stop stop) eq_refl).
  - destruct (char_eqb c stop) eqn:E.
    + apply char_eqb_eq in E. subst. exfalso. apply H. now left.
    + f_equal. apply IH. intros Hin. apply H. now right.
Qed.

Lemma after_app (stop : char) (a b : jsstring) :
  ~ In stop a -> after stop (a ++ stop :: b) = b.
Proof.
  induction a as [|c a IH]; intros H; simpl.
  - now rewrite (proj2 (char_eqb_eq stop stop) eq_refl).
  - destruct (char_eqb c stop) eqn:E.
    + apply char_eqb_eq in E. subst. exfalso. apply H. now left.
    + apply IH. intros Hin. apply H. now right.
Qed.

Lemma after_absent (stop : char) (a : jsstring) :
  ~ In stop a -> after stop a = [].
Proof.
  induction a as [|c a IH]; intros H; simpl; [reflexivity|].
  destruct (char_eqb c stop) eqn:E.
  - apply char_eqb_eq in E. subst. exfalso. apply H. now left.
  - apply IH. intros Hin. apply H. now right.
Qed.

Lemma numeric_app (a b : jsstring) : numeric a -> numeric b -> numeric (a ++ b).
Proof. intros Ha Hb. apply Forall_app. now split. Qed.

Lemma numeric_firstn (n : nat) (a : jsstring) :
  numeric a -> numeric (firstn n a).
Proof.
  intros H. unfold numeric in *. rewrite <- (firstn_skipn n a) in H.
  now apply Forall_app in H.
Qed.

Lemma numeric_skipn (n : nat) (a : jsstring) :
  numeric a -> numeric (skipn n a).
Proof.
  intros H. unfold numeric in *. rewrite <- (firstn_skipn n a) in H.
  now apply Forall_app in H.
Qed.

Lemma numeric_zeros (n : nat) : numeric (repeat 48%N n).
Proof. induction n; simpl; constructor; auto. Qed.

(** The shape of [toFixed]: digits only with no decimals; digits, the
    point and one digit with one decimal. *)
Lemma toFixed_0 (num den : N) :
  exists a, toFixed num den 0 = a /\ numeric a.
Proof. eexists. split; [reflexivity|]. apply digits_numeric. Qed.

Lemma toFixed_1 (num den : N) :
  exists a b, toFixed num den 1 = a ++ DOT :: b
              /\ numeric a /\ numeric b /\ length b = 1.
Proof.
  unfold toFixed.
  set (d := digits ((2 * num * 10 ^ N.of_nat 1 + den) / (2 * den))).
  set (m := repeat 48%N (1 + 1 - length d) ++ d).
  assert (Hm : numeric m)
    by (apply numeric_app; [apply numeric_zeros|apply digits_numeric]).
  assert (Hl : 2 <= length m).
  { assert (Hd : 1 <= length d) by apply digits_nonempty.
    unfold m. rewrite length_app, repeat_length. clearbody d. lia. }
  exists (firstn (length m - 1) m), (skipn (length m - 1) m).
  split; [reflexivity|]. split; [now apply numeric_firstn|].
  split; [now apply numeric_skipn|]. rewrite length_skipn. lia.
Qed.

Lemma log1024_small (bytes : N) :
  (0 < bytes < 1024 ^ 5)%N -> (log1024 bytes < 5)%N.
Proof.
  intros [H0 H]. unfold log1024.
  apply N.Div0.div_lt_upper_bound.
  change (10 * 5)%N with 50%N. apply N.log2_lt_pow2; [assumption|].
  exact H.
Qed.

Lemma log1024_zero (bytes : N) :
  (0 < bytes)%N -> (log1024 bytes =? 0)%N = (bytes <? 1024)%N.
Proof.
  intros H0. unfold log1024.
  destruct (bytes <? 1024)%N eqn:E.
  - apply N.ltb_lt in E. apply N.eqb_eq. apply N.div_small.
    apply N.log2_lt_pow2; assumption.
  - apply N.ltb_ge in E. apply N.eqb_neq. intros Hd.
    assert (Hl : (10 <= N.log2 bytes)%N).
    { change 10%N with (N.log2 1024). now apply N.log2_le_mono. }
    pose proof (N.Div0.mul_div_le (N.log2 bytes) 10) as Hm.
    pose proof (N.mod_upper_bound (N.log2 bytes) 10) as Hu.
    pose proof (N.div_mod (N.log2 bytes) 10) as Hq.
    lia.
Qed.

(** C9, as the code has it: up to 1024^5 - 1024 bytes the size string
    ends in one of the units B, KB, MB, GB, TB, the one of the 1024-based
    scale of the count, and shows no decimal place when the unit is bytes
    or the scaled value itself is at least 10, and one decimal place
    otherwise. *)
Theorem formatBytes_decimals :
  forall bytes : N,
    (bytes <= 1024 ^ 5 - 1024)%N ->
    In (unit_of (formatBytes bytes)) units
    /\ nth_error units (N.to_nat (if (bytes =? 0)%N then 0%N
                                  else log1024 bytes))
       = Some (unit_of (formatBytes bytes))
    /\ decimal_places (formatBytes bytes)
       = if ((bytes <? 1024) || (10 * 1024 ^ log1024 bytes <=? bytes))%N
         then 0 else 1.
Proof.
  intros bytes Hb'. assert (Hb : (bytes < 1024 ^ 5)%N).
  { change (1024 ^ 5 - 1024)%N with 1125899906841600%N in Hb'.
    change (1024 ^ 5)%N with 1125899906842624%N. lia. }
  clear Hb'. unfold formatBytes. cbv zeta.
  destruct (bytes =? 0)%N eqn:E0.
  - apply N.eqb_eq in E0. subst bytes. repeat split. simpl. auto.
  - apply N.eqb_neq in E0. assert (H0 : (0 < bytes)%N) by lia.
    pose proof (log1024_small bytes (conj H0 Hb)) as Hi.
    rewrite (log1024_zero bytes H0).
    set (i := log1024 bytes) in *.
    destruct (nth_error units (N.to_nat i)) as [u|] eqn:Eu.
    2:{ apply nth_error_None in Eu. simpl in Eu. lia. }
    assert (Hsp : forall a, numeric a -> ~ In SPACE a)
      by (intros a Ha; now apply numeric_not_In).
    assert (Hdot : forall a, numeric a -> ~ In DOT a)
      by (intros a Ha; now apply numeric_not_In).
    rewrite (orb_comm (bytes <? 1024)%N).
    destruct ((10 * 1024 ^ i <=? bytes)%N || (bytes <? 1024)%N).
    + destruct (toFixed_0 bytes (1024 ^ i)) as (a & -> & Ha).
      unfold unit_of, decimal_places. change (js " ") with [SPACE].
      cbn [app]. rewrite after_app, before_app by auto.
      rewrite after_absent by auto.
      repeat split. eapply nth_error_In; eauto.
    + destruct (toFixed_1 bytes (1024 ^ i)) as (a & b & -> & Ha & Hb' & Hl).
      assert (Hab : ~ In SPACE (a ++ DOT :: b)).
      { rewrite in_app_iff. intros [H|[H|H]];
          [now apply (Hsp a) | discriminate H | now apply (Hsp b)]. }
      unfold unit_of, decimal_places. change (js " ") with [SPACE].
      cbn [app]. rewrite after_app, before_app by auto.
      rewrite after_app by auto.
      repeat split; [eapply nth_error_In; eauto | exact Hl].
Qed.

Lemma formatBytes_decimals_witness :
  In (unit_of (formatBytes 1536)) units
  /\ decimal_places (formatBytes 1536) = 1
  /\ formatBytes 1536 = js "1.5 KB".
Proof.
  assert (Hb : (1536 <= 1024 ^ 5 - 1024)%N) by (vm_compute; discriminate).
  destruct (formatBytes_decimals 1536 Hb) as (H0 & _ & H2).
  split; [exact H0|]. split; [exact H2|reflexivity].
Defined.

(** C9, as stated, fails: 10239 bytes are 9.999 KB, which rounds to 10.0
    of the unit, and the code prints one decimal place; and 2^51 bytes
    have no unit among the five. *)
Lemma formatBytes_rounding_counterexample :
  rounded_tenths 10239 = 100%N
  /\ formatBytes 10239 = js "10.0 KB"
  /\ decimal_places (formatBytes 10239) = 1
  /\ formatBytes (2 ^ 51) = js "2.0 undefined".
Proof. repeat split. Qed.

(** ** The order of the groups *)

Lemma str_leb_total (a : jsstring) :
  forall b, str_leb a b = false -> str_leb b a = true.
Proof.
  induction a as [|x a IH]; intros [|y b]; simpl; try discriminate; auto.
  intros H. apply orb_false_iff in H as [H1 H2].
  apply N.ltb_ge in H1. destruct (N.eqb_spec x y) as [->|Hn].
  - simpl in H2. rewrite N.eqb_refl. simpl. rewrite (IH b H2).
    apply orb_true_r.
  - assert (Hlt : (y < x)%N) by lia. apply N.ltb_lt in Hlt.
    now rewrite Hlt.
Qed.

Lemma insert_str_hd (x y : jsstring) (l : list jsstring) :
  lex_le y x -> HdRel lex_le y l -> HdRel lex_le y (insert_str x l).
Proof.
  intros Hyx Hl. destruct l as [|z l]; simpl.
  - now constructor.
  - destruct (str_leb x z); constructor; [assumption|].
    now inversion Hl.
Qed.

Lemma insert_str_sorted (x : jsstring) (l : list jsstring) :
  Sorted lex_le l -> Sorted lex_le (insert_str x l).
Proof.
  induction 1 as [|y l Hs IH Hh]; simpl.
  - repeat constructor.
  - destruct (str_leb x y) eqn:E.
    + constructor; [now constructor|]. now constructor.
    + constructor; [exact IH|]. apply insert_str_hd; [|exact Hh].
      now apply str_leb_total.
Qed.

Lemma sort_strings_sorted (l : list jsstring) : Sorted lex_le (sort_strings l).
Proof.
  induction l as [|x l IH]; simpl; [constructor|].
  now apply insert_str_sorted.
Qed.

Lemma insert_str_perm (x : jsstring) (l : list jsstring) :
  Permutation (insert_str x l) (x :: l).
Proof.
  induction l as [|y l IH]; simpl; [reflexivity|].
  destruct (str_leb x y); [reflexivity|].
  rewrite IH. apply perm_swap.
Qed.

Lemma sort_strings_perm (l : list jsstring) : Permutation (sort_strings l) l.
Proof.
  induction l as [|x l IH]; simpl; [reflexivity|].
  rewrite insert_str_perm. now constructor.
Qed.

Lemma federations_keys (summary : obj (obj SummaryEntry)) :
  map fst (federations summary) = sort_strings (own_keys summary).
Proof. unfold federations. rewrite map_map. simpl. apply map_id. Qed.

Lemma groupLines_keys (header : jsstring) (dataLines : list jsstring) :
  forall m0 m,
    foldM (group_step header) dataLines m0 = Ok m ->
    map fst m
    = fold_left add_key (filter nonempty (map (fed_of header) dataLines))
                (map fst m0).
Proof.
  induction dataLines as [|line rest IH]; intros m0 m; simpl.
  - now intros [= <-].
  - rewrite group_step_ok. simpl.
    destruct (fed_of header line) as [|c fed] eqn:E; simpl.
    + apply IH.
    + intros H. apply IH in H. rewrite H. now rewrite set_own_keys.
Qed.

Lemma emission_order_spec (header : jsstring) (dataLines : list jsstring) :
  emission_order header dataLines
  = Ok (key_order (first_seen header dataLines)).
Proof.
  unfold emission_order.
  destruct (groupLines_spec header dataLines) as (m & Hm & _).
  rewrite Hm. simpl. rewrite own_keys_order.
  unfold groupLines in Hm. apply groupLines_keys in Hm. now rewrite Hm.
Qed.

(** C8, as the code has it: the listing page names the groups in
    lexicographic order of their keys, whatever the order in which they
    were collected, and the sort is made when the page is generated; the
    loop that writes the files of a dataset visits the groups in the
    order of the keys of the object, which is the order of first
    appearance for keys that are not array indices. *)
Theorem listing_sorted_emission_in_key_order :
  forall (path_join : list jsstring -> jsstring)
         (template : list jsstring -> list FederationRow -> jsstring)
         (w : World) (header : jsstring) (dataLines : list jsstring),
    let summary := match fedSummary w with Some s => s | None => [] end in
    let listed := map fst (federations summary) in
    events (generateIndexHtml path_join template w)
    = events w ++ [WriteFile (path_join [js "data"; js "index.html"])
                             (template ratingTypes (federations summary))]
    /\ Sorted lex_le listed
    /\ Permutation listed (own_keys summary)
    /\ emission_order header dataLines
       = Ok (key_order (first_seen header dataLines))
    /\ (forallb (fun k => negb (is_array_index k))
                (first_seen header dataLines) = true ->
        emission_order header dataLines = Ok (first_seen header dataLines)).
Proof.
  intros path_join template w header dataLines summary listed.
  split; [reflexivity|]. unfold listed. rewrite federations_keys.
  split; [apply sort_strings_sorted|]. split; [apply sort_strings_perm|].
  split; [apply emission_order_spec|].
  intros H. rewrite emission_order_spec. f_equal. unfold key_order.
  induction (first_seen header dataLines) as [|k ks IH]; [reflexivity|].
  simpl in H. apply andb_true_iff in H as [Hk H].
  apply negb_true_iff in Hk. cbn [filter]. rewrite Hk. cbn [negb].
  specialize (IH H).
  destruct (filter is_array_index ks) as [|a l] eqn:Ef.
  - simpl in *. now rewrite IH.
  - exfalso. assert (Ha : In a (filter is_array_index ks))
      by (rewrite Ef; now left).
    apply filter_In in Ha as [Hin Ha]. rewrite forallb_forall in H.
    apply H in Hin. now rewrite Ha in Hin.
Qed.

Lemma listing_sorted_emission_in_key_order_witness :
  let header := js "ID  Fed" in
  let dataLines := [js "1   USA"; js "2   IND"; js "3   USA"] in
  emission_order header dataLines = Ok (first_seen header dataLines)
  /\ first_seen header dataLines = [js "USA"; js "IND"].
Proof.
  intros header dataLines.
  destruct (listing_sorted_emission_in_key_order
              (fun _ => []) (fun _ _ => []) (mkWorld [] None)
              header dataLines) as (_ & _ & _ & _ & H).
  split; [exact (H eq_refl)|reflexivity].
Defined.

(** C8, as stated, fails: with a line of USA before a line of IND the
    emission loop visits USA first, and USA does not come before IND in
    lexicographic order. *)
Lemma emission_order_counterexample :
  emission_order (js "ID  Fed") [js "1   USA"; js "2   IND"]
  = Ok [js "USA"; js "IND"]
  /\ str_leb (js "USA") (js "IND") = false
  /\ sort_strings [js "USA"; js "IND"] = [js "IND"; js "USA"].
Proof. repeat split. Qed.

(** ** The summary without its Parquet sizes *)

Lemma get_own_map_obj {A B} (f : A -> B) (o : obj A) (k : jsstring) :
  get_own (map_obj f o) k = option_map f (get_own o k).
Proof.
  induction o as [|[k0 v0] o IH]; simpl; [reflexivity|].
  destruct (str_eqb k0 k); [reflexivity|exact IH].
Qed.

Lemma set_own_map_obj {A B} (f : A -> B) (o : obj A) (k : jsstring) (v : A) :
  map_obj f (set_own o k v) = set_own (map_obj f o) k (f v).
Proof.
  induction o as [|[k0 v0] o IH]; simpl; [reflexivity|].
  destruct (str_eqb k0 k); simpl; [reflexivity|]. f_equal. exact IH.
Qed.

Lemma lookup_map_obj {A B} (f : A -> B) (o : obj A) (k : jsstring) :
  lookup (map_obj f o) k
  = match lookup o k with
    | Own a => Own (f a)
    | Inherited => Inherited
    | Absent => Absent
    end.
Proof.
  unfold lookup. rewrite get_own_map_obj.
  destruct (get_own o k); simpl; [reflexivity|].
  destruct (inherited k); reflexivity.
Qed.

Lemma assign_obj_map_obj {A B} (f : A -> B) (o : obj A) (k : jsstring)
  (v : A) :
  map_obj f (assign_obj o k v) = assign_obj (map_obj f o) k (f v).
Proof.
  unfold assign_obj. destruct (str_eqb k (js "__proto__")); [reflexivity|].
  apply set_own_map_obj.
Qed.

Lemma record_summary_erase (s : obj (obj SummaryEntry))
  (fed ratingType : jsstring) (e : SummaryEntry) :
  erase_summary (record_summary s fed ratingType e)
  = record_summary (erase_summary s) fed ratingType (without_parquetSize e).
Proof.
  unfold record_summary, erase_summary.
  rewrite (lookup_map_obj (map_obj without_parquetSize) s fed).
  destruct (lookup s fed) as [inner| |] eqn:E.
  - rewrite (lookup_map_obj (map_obj without_parquetSize) s fed), E.
    now rewrite set_own_map_obj, assign_obj_map_obj.
  - now rewrite (lookup_map_obj (map_obj without_parquetSize) s fed), E.
  - assert (Hx : set_own (map_obj (map_obj without_parquetSize) s) fed []
                 = map_obj (map_obj without_parquetSize) (set_own s fed []))
      by (now rewrite set_own_map_obj).
    rewrite Hx.
    rewrite (lookup_map_obj (map_obj without_parquetSize) (set_own s fed [])).
    destruct (lookup (set_own s fed []) fed) as [inner| |].
    + now rewrite set_own_map_obj, assign_obj_map_obj.
    + reflexivity.
    + reflexivity.
Qed.

Lemma other_events_app (a b : list event) :
  other_events (a ++ b) = other_events a ++ other_events b.
Proof. apply filter_app. Qed.

Lemma mapM_total {A B} (f : A -> result B) (l : list A) :
  (forall a, exists b, f a = Ok b) ->
  exists bs, mapM f l = Ok bs /\ length bs = length l.
Proof.
  intros Hf. induction l as [|a l (bs & Hb & Hl)]; simpl.
  - now exists [].
  - destruct (Hf a) as [b ->]. rewrite Hb. simpl. exists (b :: bs).
    split; [reflexivity|]. simpl. now rewrite Hl.
Qed.

Lemma decode_lines_total (L : Layout) (fedLines : list jsstring) :
  exists jsonData,
    mapM (decodeLine L) fedLines = Ok jsonData
    /\ length jsonData = length fedLines.
Proof.
  apply mapM_total. intros line.
  destruct (decodeLine_total L line) as (r & Hr & _). now exists r.
Qed.

(** ** The model on a header and a line of the published shape *)

Example sample_layout :
  extractLayout sample_header
  = Some (mkLayout
            [js "ID Number"; js "Name"; js "Fed Sex Tit"; js "WTit OTit";
             js "FOA AUG25 Gms K"; js "B-day Flag"]
            [0; 11; 24; 37; 48; 65; 75]%Z).
Proof. reflexivity. Qed.

Example sample_record :
  forall L, extractLayout sample_header = Some L ->
    decodeLine L sample_line
    = Ok [(js "ID Number", VStr (js "10292519"));
          (js "Name", VStr (js "Carlsen, M"));
          (js "Fed", VStr (js "NOR")); (js "Sex", VStr (js "M"));
          (js "Title", VStr (js "GM"));
          (js "WTit", VStr (js "WGM")); (js "OTit", VStr []);
          (js "FOA", VStr (js "2839")); (js "Rating", VStr (js "AUG25"));
          (js "Gms", VStr (js "0")); (js "K", VStr (js "10"));
          (js "B-day", VStr (js "1990")); (js "Flag", VStr (js "wi"))].
Proof. intros L H. rewrite sample_layout in H. now injection H as <-. Qed.

Example sample_key : fed_of sample_header sample_line = js "NOR".
Proof. reflexivity. Qed.

Example sample_sizes :
  map formatBytes [0; 1023; 1024; 1536; 10239; 10240; 1048576]%N
  = map js ["0 B"; "1023 B"; "1.0 KB"; "1.5 KB"; "10.0 KB"; "10 KB";
            "1.0 MB"]%string.
Proof. reflexivity. Qed.

(** * Further properties of the code *)

(** ** The other branches of the row decoder *)

(** X1: under the label WTit OTit the decoder stores the first and the
    second whitespace-separated token of the sliced value under WTit and
    OTit (the empty string when absent); further tokens are dropped and
    no other key of the record changes. *)
Theorem wtit_otit_decoded :
  forall (slice : jsstring) (o : obj jsval),
    let r := decode_column (js "WTit OTit") (trim slice) o in
    get_own r (js "WTit") = Some (VStr (spec_word 0 slice))
    /\ get_own r (js "OTit") = Some (VStr (spec_word 1 slice))
    /\ (forall k, k <> js "WTit" -> k <> js "OTit" ->
                  get_own r k = get_own o k).
Proof.
  intros slice o r. subst r. unfold decode_column.
  change (str_eqb (js "WTit OTit") (js "Fed Sex Tit")) with false.
  change (str_eqb (js "WTit OTit") (js "WTit OTit")) with true. cbv iota.
  rewrite !(split_ws_word (trim slice)) by apply trim_no_lead.
  unfold spec_word. rewrite spec_words_trim.
  split; [|split].
  - rewrite !get_own_assign by reflexivity. eval_keys. reflexivity.
  - rewrite !get_own_assign by reflexivity. eval_keys. reflexivity.
  - intros k H1 H2. rewrite !get_own_assign by reflexivity.
    apply str_eqb_neq in H1, H2. rewrite str_eqb_sym in H1, H2.
    now rewrite H1, H2.
Qed.

(** X2: under the label B-day Flag the decoder stores the first
    whitespace-separated token of the sliced value under B-day and the
    other tokens, joined by single spaces, under Flag (the empty string
    when absent); no other key of the record changes. *)
Theorem bday_flag_decoded :
  forall (slice : jsstring) (o : obj jsval),
    let r := decode_column (js "B-day Flag") (trim slice) o in
    get_own r (js "B-day") = Some (VStr (spec_word 0 slice))
    /\ get_own r (js "Flag")
       = Some (VStr (join (js " ") (tl (spec_words slice))))
    /\ (forall k, k <> js "B-day" -> k <> js "Flag" ->
                  get_own r k = get_own o k).
Proof.
  intros slice o r. subst r. unfold decode_column.
  change (str_eqb (js "B-day Flag") (js "Fed Sex Tit")) with false.
  change (str_eqb (js "B-day Flag") (js "WTit OTit")) with false.
  change (startsWith (js "FOA AUG") (js "B-day Flag")) with false.
  change (str_eqb (js "B-day Flag") (js "B-day Flag")) with true. cbv iota.
  rewrite (split_ws_word (trim slice)) by apply trim_no_lead.
  rewrite js_or_str.
  rewrite split_ws_trimmed by (apply trim_no_lead || apply trim_last).
  unfold spec_word. rewrite <- (spec_words_trim slice).
  split; [|split].
  - rewrite !get_own_assign by reflexivity. eval_keys. reflexivity.
  - rewrite !get_own_assign by reflexivity. eval_keys.
    generalize (trim slice) as v. now intros [|c v].
  - intros k H1 H2. rewrite !get_own_assign by reflexivity.
    apply str_eqb_neq in H1, H2. rewrite str_eqb_sym in H1, H2.
    now rewrite H1, H2.
Qed.

Lemma set_own_fresh {A} (o : obj A) (k : jsstring) (v : A) :
  ~ In k (map fst o) -> set_own o k v = o ++ [(k, v)].
Proof.
  induction o as [|[k0 v0] o IH]; simpl; intros H; [reflexivity|].
  destruct (str_eqb k0 k) eqn:E.
  - apply str_eqb_eq in E. subst. exfalso. apply H. now left.
  - f_equal. apply IH. intros Hin. apply H. now right.
Qed.

Lemma decode_column_plain (label value : jsstring) (o : obj jsval) :
  plain_label label = true ->
  decode_column label value o = set_own o label (VStr value).
Proof.
  unfold plain_label, decode_column, assign. intros H.
  repeat (apply andb_true_iff in H as [H ?]).
  repeat match goal with
         | E : negb ?b = true |- _ => apply negb_true_iff in E; rewrite E
         end.
  reflexivity.
Qed.

Lemma map_nth_seq {A} (l : list A) (d : A) :
  forall n, n <= length l -> map (fun i => nth i l d) (seq 0 n) = firstn n l.
Proof.
  induction l as [|c l IH]; intros [|n] H; simpl in *;
    try reflexivity; try lia.
  f_equal. rewrite <- seq_shift, map_map. apply IH. lia.
Qed.

Lemma plain_record_keys (L : Layout) (line : jsstring) (n : nat) :
  n <= length (columns L) ->
  map fst (plain_record L line n) = firstn n (columns L).
Proof.
  intros Hn. unfold plain_record. rewrite map_map. cbn [fst].
  now apply map_nth_seq.
Qed.

Lemma decode_plain_from (L : Layout) (line : jsstring) (n : nat) :
  forallb plain_label (columns L) = true ->
  NoDup (columns L) ->
  forall a, a + n = length (columns L) ->
    foldM (decode_step L line) (seq a n) (plain_record L line a)
    = Ok (plain_record L line (a + n)).
Proof.
  intros Hp Hd. induction n as [|n IH]; intros a Ha.
  - now rewrite Nat.add_0_r.
  - cbn [seq foldM]. unfold decode_step at 1.
    destruct (nth_error (columns L) a) as [label|] eqn:E.
    2:{ apply nth_error_None in E. lia. }
    assert (Hn : nth a (columns L) [] = label)
      by (now apply nth_error_nth).
    rewrite forallb_forall in Hp.
    rewrite decode_column_plain by (apply Hp; eapply nth_error_In; eauto).
    cbn [bind]. rewrite set_own_fresh.
    + replace (plain_record L line a ++ [(label, VStr (slice_value L line a))])
        with (plain_record L line (S a)).
      * rewrite IH by lia. f_equal. f_equal. lia.
      * unfold plain_record. rewrite seq_S, map_app. cbn [map Nat.add].
        now rewrite Hn.
    + rewrite plain_record_keys by lia. intros Hin.
      rewrite <- (firstn_skipn a (columns L)) in Hd.
      apply NoDup_app_remove_l in Hd as Hd'.
      assert (Hs : In label (skipn a (columns L))).
      { rewrite <- Hn. clear - E.
        revert a E. induction (columns L) as [|c cs IHc]; intros [|a] E;
          simpl in *; try discriminate; auto. }
      clear Hd'.
      revert Hd Hin Hs. generalize (firstn a (columns L)) as xs.
      generalize (skipn a (columns L)) as ys. intros ys xs Hd Hin Hs.
      induction xs as [|x xs IHx]; [destruct Hin|].
      simpl in Hd. inversion Hd as [|? ? Hx Hd']; subst.
      destruct Hin as [->|Hin]; [|now apply IHx].
      apply Hx. apply in_or_app. now right.
Qed.

(** X3: for a layout whose labels are distinct and plain (none of the
    compound labels, not __proto__) the decoded record lists the columns
    in the order of the header, each label with the trimmed slice of the
    line under it. *)
Theorem plain_layout_decoded :
  forall (L : Layout) (line : jsstring),
    forallb plain_label (columns L) = true ->
    NoDup (columns L) ->
    decodeLine L line
    = Ok (map (fun i => (nth i (columns L) [],
                         VStr (slice_value L line i)))
              (seq 0 (length (columns L)))).
Proof.
  intros L line Hp Hd. unfold decodeLine.
  exact (decode_plain_from L line (length (columns L)) Hp Hd 0 eq_refl).
Qed.

Lemma plain_layout_decoded_witness :
  let L := mkLayout [js "ID Number"; js "Name"] [0; 11; 24]%Z in
  decodeLine L (js "10292519   Carlsen, M   NOR")
  = Ok [(js "ID Number", VStr (js "10292519"));
        (js "Name", VStr (js "Carlsen, M"))].
Proof.
  intros L.
  assert (Hd : NoDup (columns L)).
  { repeat constructor; simpl; intuition discriminate. }
  exact (plain_layout_decoded L (js "10292519   Carlsen, M   NOR")
           eq_refl Hd).
Defined.

(** ** Lines of the text file *)

Lemma split_lines_go_no_lf (n : nat) :
  forall s cur,
    length s <= n -> ~ In NEWLINE cur ->
    Forall (fun l => ~ In NEWLINE l) (split_lines_go cur s).
Proof.
  induction n as [|n IH]; intros s cur Hn Hc.
  - destruct s; [|simpl in Hn; lia]. simpl. constructor; [|constructor].
    now rewrite <- in_rev.
  - destruct s as [|c r].
    + simpl. constructor; [|constructor]. now rewrite <- in_rev.
    + simpl in Hn. cbn [split_lines_go].
      destruct (char_eqb c NEWLINE) eqn:Ec.
      * constructor; [now rewrite <- in_rev|]. apply IH; [lia|intros []].
      * assert (Hc' : ~ In NEWLINE (c :: cur)).
        { intros [H|H]; [|contradiction]. subst c.
          now rewrite (proj2 (char_eqb_eq NEWLINE NEWLINE) eq_refl) in Ec. }
        destruct r as [|c2 r2]; [apply IH; [simpl; lia|assumption]|].
        destruct (char_eqb c CR && char_eqb c2 NEWLINE).
        -- constructor; [now rewrite <- in_rev|].
           apply IH; [simpl in Hn; lia|intros []].
        -- apply IH; [simpl in *; lia|assumption].
Qed.

Lemma split_lines_clean (txtContent : jsstring) :
  Forall (fun l => l <> [] /\ ~ In NEWLINE l) (split_lines txtContent).
Proof.
  unfold split_lines. apply Forall_forall. intros l Hl.
  apply filter_In in Hl as [Hl Hne]. split.
  - intros ->. discriminate Hne.
  - pose proof (split_lines_go_no_lf (length txtContent) txtContent []
                  (Nat.le_refl _) (fun H => H)) as H.
    rewrite Forall_forall in H. now apply H.
Qed.

Lemma not_newline (c : char) (l : jsstring) :
  ~ In NEWLINE (c :: l) -> char_eqb c NEWLINE = false /\ ~ In NEWLINE l.
Proof.
  intros H. split.
  - destruct (char_eqb c NEWLINE) eqn:E; [|reflexivity].
    apply char_eqb_eq in E. exfalso. apply H. now left.
  - intros Hin. apply H. now right.
Qed.

Lemma split_lines_go_end (l : jsstring) :
  forall cur, ~ In NEWLINE l -> split_lines_go cur l = [rev (rev l ++ cur)].
Proof.
  induction l as [|c l IH]; intros cur H; [reflexivity|].
  apply not_newline in H as [Hc H]. cbn [split_lines_go]. rewrite Hc.
  destruct l as [|c2 l'].
  - reflexivity.
  - destruct (not_newline c2 l' H) as [Hc2 _]. rewrite Hc2, andb_false_r.
    rewrite IH by assumption. simpl. now rewrite <- !app_assoc.
Qed.

Lemma split_lines_go_lf (l : jsstring) :
  forall cur rest,
    ~ In NEWLINE l -> last l 0%N <> CR ->
    split_lines_go cur (l ++ NEWLINE :: rest)
    = rev (rev l ++ cur) :: split_lines_go [] rest.
Proof.
  induction l as [|c l IH]; intros cur rest H Hl.
  - reflexivity.
  - apply not_newline in H as [Hc H]. cbn [app split_lines_go]. rewrite Hc.
    destruct l as [|c2 l'].
    + cbn [app]. simpl in Hl.
      assert (Ecr : char_eqb c CR = false).
      { destruct (char_eqb c CR) eqn:E; [|reflexivity].
        apply char_eqb_eq in E. contradiction. }
      rewrite Ecr. reflexivity.
    + destruct (not_newline c2 l' H) as [Hc2 _]. cbn [app].
      rewrite Hc2, andb_false_r.
      change (c2 :: l' ++ NEWLINE :: rest) with ((c2 :: l') ++ NEWLINE :: rest).
      rewrite IH by assumption. simpl. now rewrite <- !app_assoc.
Qed.

Lemma split_lines_go_crlf (l : jsstring) :
  forall cur rest,
    ~ In NEWLINE l ->
    split_lines_go cur (l ++ CR :: NEWLINE :: rest)
    = rev (rev l ++ cur) :: split_lines_go [] rest.
Proof.
  induction l as [|c l IH]; intros cur rest H.
  - reflexivity.
  - apply not_newline in H as [Hc H]. cbn [app split_lines_go]. rewrite Hc.
    destruct l as [|c2 l'].
    + cbn [app]. change (char_eqb CR NEWLINE) with false.
      rewrite andb_false_r. reflexivity.
    + destruct (not_newline c2 l' H) as [Hc2 _]. cbn [app].
      rewrite Hc2, andb_false_r.
      change (c2 :: l' ++ CR :: NEWLINE :: rest)
        with ((c2 :: l') ++ CR :: NEWLINE :: rest).
      rewrite IH by assumption. simpl. now rewrite <- !app_assoc.
Qed.

Lemma filter_nonempty_id (lines : list jsstring) :
  Forall (fun l => l <> []) lines -> filter nonempty lines = lines.
Proof.
  induction 1 as [|l lines Hl H IH]; simpl; [reflexivity|].
  destruct l; [congruence|]. simpl. now rewrite IH.
Qed.

Lemma split_join_crlf (lines : list jsstring) :
  Forall (fun l => l <> [] /\ ~ In NEWLINE l) lines ->
  split_lines (join [CR; NEWLINE] lines) = lines.
Proof.
  intros H. unfold split_lines.
  destruct lines as [|l0 lines]; [reflexivity|].
  assert (Hgo : split_lines_go [] (join [CR; NEWLINE] (l0 :: lines))
                = l0 :: lines).
  { revert l0 H. induction lines as [|l1 lines IH]; intros l0 H.
    - inversion H as [|? ? [_ H0] _]; subst. simpl.
      rewrite split_lines_go_end by assumption.
      now rewrite app_nil_r, rev_involutive.
    - inversion H as [|? ? [_ H0] H']; subst.
      change (join [CR; NEWLINE] (l0 :: l1 :: lines))
        with (l0 ++ CR :: NEWLINE :: join [CR; NEWLINE] (l1 :: lines)).
      rewrite split_lines_go_crlf by assumption.
      rewrite IH by assumption. now rewrite app_nil_r, rev_involutive. }
  rewrite Hgo. apply filter_nonempty_id.
  eapply Forall_impl; [|exact H]. now intros l [Hl _].
Qed.

Lemma split_join_lf (lines : list jsstring) :
  Forall (fun l => l <> [] /\ ~ In NEWLINE l /\ last l 0%N <> CR) lines ->
  split_lines (join [NEWLINE] lines) = lines.
Proof.
  intros H. unfold split_lines.
  destruct lines as [|l0 lines]; [reflexivity|].
  assert (Hgo : split_lines_go [] (join [NEWLINE] (l0 :: lines))
                = l0 :: lines).
  { revert l0 H. induction lines as [|l1 lines IH]; intros l0 H.
    - inversion H as [|? ? (_ & H0 & _) _]; subst. simpl.
      rewrite split_lines_go_end by assumption.
      now rewrite app_nil_r, rev_involutive.
    - inversion H as [|? ? (_ & H0 & H1) H']; subst.
      change (join [NEWLINE] (l0 :: l1 :: lines))
        with (l0 ++ NEWLINE :: join [NEWLINE] (l1 :: lines)).
      rewrite split_lines_go_lf by assumption.
      rewrite IH by assumption. now rewrite app_nil_r, rev_involutive. }
  rewrite Hgo. apply filter_nonempty_id.
  eapply Forall_impl; [|exact H]. now intros l [Hl _].
Qed.

(** X4: the lines the text is cut into are never empty and hold no line
    feed, and cutting is idempotent: the lines written back with CR LF
    between them are cut into the same lines. *)
Theorem split_lines_normal_form :
  forall txtContent : jsstring,
    Forall (fun l => l <> [] /\ ~ In NEWLINE l) (split_lines txtContent)
    /\ split_lines (join [CR; NEWLINE] (split_lines txtContent))
       = split_lines txtContent.
Proof.
  intros txtContent. split; [apply split_lines_clean|].
  apply split_join_crlf, split_lines_clean.
Qed.

(** X5: the text file written for a federation, the header and the lines
    of the group joined by line feeds, is cut back into the header and
    those lines by the same splitter, when no line is empty, holds a line
    feed or ends with a carriage return. *)
Theorem txt_file_round_trip :
  forall (header : jsstring) (fedLines : list jsstring),
    Forall (fun l => l <> [] /\ ~ In NEWLINE l /\ last l 0%N <> CR)
           (header :: fedLines) ->
    split_lines (join [NEWLINE] (header :: fedLines)) = header :: fedLines.
Proof. intros header fedLines H. now apply split_join_lf. Qed.

Lemma txt_file_round_trip_witness :
  split_lines (join [NEWLINE] [js "ID  Fed"; js "1   USA"; js "3   USA"])
  = [js "ID  Fed"; js "1   USA"; js "3   USA"].
Proof.
  apply (txt_file_round_trip (js "ID  Fed") [js "1   USA"; js "3   USA"]).
  repeat constructor; try discriminate;
    simpl; intuition discriminate.
Defined.

(** ** More on the partitioner *)

Lemma group_single (header fed : jsstring) (ls : list jsstring) :
  fed <> [] ->
  (forall l, In l ls -> fed_of header l = fed) ->
  forall pre,
    foldM (group_step header) ls [(fed, pre)] = Ok [(fed, pre ++ ls)].
Proof.
  intros Hne. induction ls as [|l ls IH]; intros Hk pre.
  - simpl. now rewrite app_nil_r.
  - cbn [foldM]. rewrite group_step_ok.
    rewrite (Hk l (or_introl eq_refl)).
    destruct fed as [|c fed]; [congruence|]. cbn [bind].
    cbn [get_own set_own]. rewrite str_eqb_refl.
    rewrite IH by (intros l' Hl'; apply Hk; now right).
    now rewrite <- app_assoc.
Qed.

(** X6: the lines of one group, partitioned again under the same header,
    give that group alone, with the same key and the same lines in the
    same order. *)
Theorem regrouping_a_group :
  forall (header : jsstring) (dataLines : list jsstring)
         (fedMap : obj (list jsstring)) (fed : jsstring)
         (fedLines : list jsstring),
    groupLines header dataLines = Ok fedMap ->
    In (fed, fedLines) fedMap ->
    groupLines header fedLines = Ok [(fed, fedLines)].
Proof.
  intros header dataLines fedMap fed fedLines Hg Hin.
  destruct (groups_partition header dataLines) as (m & Hm & _ & H1 & _).
  rewrite Hg in Hm. injection Hm as <-.
  destruct (H1 fed fedLines Hin) as (Hne & Hl & Hf).
  assert (Hk : forall l, In l fedLines -> fed_of header l = fed).
  { intros l Hl'. rewrite Hf in Hl'. apply filter_In in Hl' as [_ E].
    now apply str_eqb_eq. }
  unfold groupLines. destruct fedLines as [|l ls]; [congruence|].
  cbn [foldM]. rewrite group_step_ok. rewrite (Hk l (or_introl eq_refl)).
  destruct fed as [|c fed]; [congruence|]. cbn [bind get_own set_own app].
  rewrite (group_single header (c :: fed) ls Hne)
    by (intros l' Hl'; apply Hk; now right).
  reflexivity.
Qed.

Lemma regrouping_a_group_witness :
  groupLines (js "ID  Fed") [js "1   USA"; js "3   USA"]
  = Ok [(js "USA", [js "1   USA"; js "3   USA"])].
Proof.
  apply (regrouping_a_group (js "ID  Fed")
           [js "1   USA"; js "2   IND"; js "3   USA"]
           [(js "USA", [js "1   USA"; js "3   USA"]);
            (js "IND", [js "2   IND"])]
           (js "USA") [js "1   USA"; js "3   USA"]).
  - reflexivity.
  - now left.
Defined.

Lemma concat_set_own (m : obj (list jsstring)) (k line : jsstring) :
  Permutation
    (concat (map snd (set_own m k (match get_own m k with
                                   | Some arr => arr
                                   | None => []
                                   end ++ [line]))))
    (line :: concat (map snd m)).
Proof.
  induction m as [|[k0 v0] m IH]; simpl.
  - reflexivity.
  - destruct (str_eqb k0 k); simpl.
    + rewrite <- app_assoc. simpl.
      symmetry. apply Permutation_middle.
    + rewrite IH. symmetry. apply Permutation_middle.
Qed.

Lemma groupLines_concat (header : jsstring) (dataLines : list jsstring) :
  forall m0 m,
    foldM (group_step header) dataLines m0 = Ok m ->
    Permutation (concat (map snd m))
                (concat (map snd m0)
                 ++ filter (fun l => nonempty (fed_of header l)) dataLines).
Proof.
  induction dataLines as [|line rest IH]; intros m0 m; cbn [foldM filter].
  - intros [= <-]. now rewrite app_nil_r.
  - rewrite group_step_ok. cbn [bind].
    destruct (fed_of header line) as [|c fed] eqn:E; cbn [nonempty].
    + apply IH.
    + intros H. apply IH in H. rewrite H.
      rewrite concat_set_own. simpl. apply Permutation_middle.
Qed.

(** X7: the groups hold the kept lines and nothing else: the lines of
    all groups together are the lines with a key that is not empty, each
    as often as in the file, so the sizes of the groups add up to the
    number of kept lines. *)
Theorem groups_cover_kept_lines :
  forall (header : jsstring) (dataLines : list jsstring),
    exists fedMap,
      groupLines header dataLines = Ok fedMap
      /\ Permutation (concat (map snd fedMap))
                     (filter (fun l => nonempty (fed_of header l)) dataLines)
      /\ length (concat (map snd fedMap))
         = length (filter (fun l => nonempty (fed_of header l)) dataLines).
Proof.
  intros header dataLines.
  destruct (groupLines_spec header dataLines) as (m & Hm & _).
  exists m. split; [exact Hm|].
  pose proof (groupLines_concat header dataLines [] m Hm) as H.
  simpl in H. split; [exact H|]. now apply Permutation_length.
Qed.

(** ** The summary of the run *)

Lemma not_inherited_lookup {A} (o : obj A) (k : jsstring) :
  inherited k = false ->
  lookup o k = match get_own o k with Some a => Own a | None => Absent end.
Proof. intros H. unfold lookup. now rewrite H. Qed.

Lemma record_summary_eq (s : obj (obj SummaryEntry))
  (fed rt : jsstring) (e : SummaryEntry) :
  inherited fed = false ->
  str_eqb rt (js "__proto__") = false ->
  record_summary s fed rt e
  = set_own s fed (set_own match get_own s fed with
                           | Some inner => inner
                           | None => []
                           end rt e).
Proof.
  intros Hi Hp. unfold record_summary, assign_obj. rewrite Hp.
  rewrite (not_inherited_lookup s fed Hi).
  destruct (get_own s fed) as [inner|] eqn:E.
  - rewrite (not_inherited_lookup s fed Hi), E. reflexivity.
  - rewrite (not_inherited_lookup _ fed Hi).
    rewrite get_own_set_own, str_eqb_refl. apply set_own_twice.
Qed.

Lemma record_summary_entry (s : obj (obj SummaryEntry))
  (fed rt : jsstring) (e : SummaryEntry) (fed' rt' : jsstring) :
  inherited fed = false ->
  str_eqb rt (js "__proto__") = false ->
  entry_of (record_summary s fed rt e) fed' rt'
  = if str_eqb fed fed' && str_eqb rt rt' then Some e
    else entry_of s fed' rt'.
Proof.
  intros Hi Hp. rewrite record_summary_eq by assumption.
  unfold entry_of. rewrite get_own_set_own.
  destruct (str_eqb fed fed') eqn:Ef; cbn [andb]; [|reflexivity].
  apply str_eqb_eq in Ef. subst fed'. rewrite get_own_set_own.
  destruct (str_eqb rt rt'); [reflexivity|].
  now destruct (get_own s fed).
Qed.

(** X9: recording a summary entry and reading it back: the entry is
    found under its federation and rating type, every other entry of the
    summary is as before, and the federation keeps its place among the
    keys or is added last. *)
Theorem summary_entry_recorded :
  forall (s : obj (obj SummaryEntry)) (fed rt : jsstring) (e : SummaryEntry),
    inherited fed = false ->
    rt <> js "__proto__" ->
    entry_of (record_summary s fed rt e) fed rt = Some e
    /\ (forall fed' rt',
           fed' <> fed \/ rt' <> rt ->
           entry_of (record_summary s fed rt e) fed' rt'
           = entry_of s fed' rt')
    /\ map fst (record_summary s fed rt e) = add_key (map fst s) fed.
Proof.
  intros s fed rt e Hi Hp. apply str_eqb_neq in Hp. split; [|split].
  - rewrite record_summary_entry by assumption.
    now rewrite !str_eqb_refl.
  - intros fed' rt' H. rewrite record_summary_entry by assumption.
    destruct (str_eqb fed fed') eqn:Ef; [|reflexivity].
    destruct (str_eqb rt rt') eqn:Er; [|reflexivity].
    apply str_eqb_eq in Ef, Er. subst. destruct H; congruence.
  - rewrite record_summary_eq by assumption. apply set_own_keys.
Qed.

Lemma summary_entry_recorded_witness :
  let e := mkSummaryEntry 2 [] [] [] [] [] [] [] [] [] [] [] [] [] [] in
  entry_of (record_summary [] (js "USA") (js "rapid") e) (js "USA")
           (js "rapid") = Some e.
Proof.
  intros e.
  assert (Hp : js "rapid" <> js "__proto__") by discriminate.
  exact (proj1 (summary_entry_recorded [] (js "USA") (js "rapid") e
                  eq_refl Hp)).
Defined.

Lemma insert_by_perm {B} (f : B -> N) (x : B) (l : list B) :
  Permutation (insert_by f x l) (x :: l).
Proof.
  induction l as [|y l IH]; simpl; [reflexivity|].
  destruct (f x <=? f y)%N; [reflexivity|]. rewrite IH. apply perm_swap.
Qed.

Lemma sort_by_perm {B} (f : B -> N) (l : list B) :
  Permutation (sort_by f l) l.
Proof.
  induction l as [|x l IH]; simpl; [reflexivity|].
  rewrite insert_by_perm. now constructor.
Qed.

Lemma filter_split_perm {B} (p : B -> bool) (l : list B) :
  Permutation (filter p l ++ filter (fun x => negb (p x)) l) l.
Proof.
  induction l as [|x l IH]; simpl; [reflexivity|].
  destruct (p x); simpl.
  - now constructor.
  - rewrite <- Permutation_middle. now constructor.
Qed.

Lemma own_entries_perm {A} (o : obj A) : Permutation (own_entries o) o.
Proof.
  unfold own_entries. rewrite sort_by_perm.
  apply (filter_split_perm (fun e => is_array_index (fst e))).
Qed.

Lemma short_not_inherited (k : jsstring) :
  length k <= 3 -> inherited k = false.
Proof.
  intros H. destruct (inherited k) eqn:E; [|reflexivity].
  apply inherited_long in E. lia.
Qed.

(** ** More on formatBytes *)

(** X11: below 1024 bytes formatBytes prints the count itself, in
    decimal and without a decimal place, followed by the unit B. *)
Theorem formatBytes_exact_below_1024 :
  forall bytes : N,
    (bytes < 1024)%N -> formatBytes bytes = digits bytes ++ js " B".
Proof.
  intros bytes Hb. unfold formatBytes. cbv zeta.
  destruct (bytes =? 0)%N eqn:E0.
  - apply N.eqb_eq in E0. now subst.
  - apply N.eqb_neq in E0. assert (H0 : (0 < bytes)%N) by lia.
    pose proof (log1024_zero bytes H0) as Hz.
    apply N.ltb_lt in Hb. rewrite Hb in Hz. apply N.eqb_eq in Hz.
    rewrite Hz. change (0 =? 0)%N with true. rewrite orb_true_r.
    cbn [N.to_nat nth_error units map]. unfold toFixed.
    change (N.of_nat 0) with 0%N. change (1024 ^ 0)%N with 1%N.
    change (10 ^ 0)%N with 1%N.
    replace ((2 * bytes * 1 + 1) / (2 * 1))%N with bytes; [reflexivity|].
    apply (N.div_unique _ _ _ 1%N); lia.
Qed.

Lemma formatBytes_exact_below_1024_witness :
  formatBytes 1023 = js "1023 B".
Proof. exact (formatBytes_exact_below_1024 1023 eq_refl). Defined.

(** ** The rows of the CSV file *)

Lemma csv_unquoted_count (s : jsstring) :
  forall st cur,
    st = FieldStart \/ st = Unquoted ->
    ~ In DQUOTE s ->
    length (spec_csv_go st cur s) = S (commas s).
Proof.
  unfold commas.
  induction s as [|c s IH]; intros st cur Hst Hq; [reflexivity|].
  assert (Hc : char_eqb c DQUOTE = false).
  { destruct (char_eqb c DQUOTE) eqn:E; [|reflexivity].
    apply char_eqb_eq in E. exfalso. apply Hq. now left. }
  assert (Hq' : ~ In DQUOTE s) by (intros H; apply Hq; now right).
  cbn [filter]. unfold char_eqb at 1. rewrite N.eqb_sym.
  fold (char_eqb c COMMA).
  destruct Hst as [-> | ->]; cbn [spec_csv_go]; rewrite ?Hc;
    destruct (char_eqb c COMMA); cbn [length]; rewrite IH; auto.
Qed.

Lemma commas_app (a b : jsstring) : commas (a ++ b) = commas a + commas b.
Proof. unfold commas. now rewrite filter_app, length_app. Qed.

Lemma commas_join (cols : list jsstring) :
  cols <> [] ->
  commas (join [COMMA] cols) = length cols - 1 + commas (concat cols).
Proof.
  induction cols as [|k cols IH]; [congruence|]. intros _.
  destruct cols as [|k' cols].
  - simpl. now rewrite app_nil_r.
  - change (join [COMMA] (k :: k' :: cols))
      with (k ++ COMMA :: join [COMMA] (k' :: cols)).
    change (concat (k :: k' :: cols)) with (k ++ concat (k' :: cols)).
    rewrite !commas_app.
    change (commas (COMMA :: join [COMMA] (k' :: cols)))
      with (S (commas (join [COMMA] (k' :: cols)))).
    rewrite IH by discriminate. simpl. lia.
Qed.

Lemma join_no_quote (cols : list jsstring) :
  Forall (fun k => ~ In DQUOTE k) cols -> ~ In DQUOTE (join [COMMA] cols).
Proof.
  induction 1 as [|k cols Hk H IH]; [intros []|].
  destruct cols as [|k' cols]; [exact Hk|].
  change (join [COMMA] (k :: k' :: cols))
    with (k ++ COMMA :: join [COMMA] (k' :: cols)).
  rewrite in_app_iff. intros [Hin|[Hin|Hin]];
    [now apply Hk | discriminate Hin | now apply IH].
Qed.

Lemma csv_raw_field (s rest : jsstring) :
  ~ In DQUOTE s -> ~ In COMMA s -> row_rest rest ->
  spec_csv_go FieldStart [] (s ++ rest) = s :: fields_after rest.
Proof.
  intros Hq Hc Hr. destruct s as [|c s].
  - destruct Hr as [-> | [r ->]]; reflexivity.
  - assert (E1 : char_eqb c DQUOTE = false).
    { destruct (char_eqb c DQUOTE) eqn:E; [|reflexivity].
      apply char_eqb_eq in E. exfalso. apply Hq. now left. }
    assert (E2 : char_eqb c COMMA = false).
    { destruct (char_eqb c COMMA) eqn:E; [|reflexivity].
      apply char_eqb_eq in E. exfalso. apply Hc. now left. }
    cbn [app spec_csv_go]. rewrite E1, E2.
    rewrite csv_unquoted_run.
    + rewrite csv_end_of_field by auto.
      now rewrite rev_app_distr, rev_involutive.
    + destruct (existsb (char_eqb COMMA) s) eqn:E; [|reflexivity].
      apply existsb_exists in E as (x & Hx & Ex).
      apply char_eqb_eq in Ex. subst x. exfalso. apply Hc. now right.
Qed.

Lemma csv_raw_fields (cols : list jsstring) :
  cols <> [] ->
  Forall (fun k => ~ In DQUOTE k /\ ~ In COMMA k) cols ->
  spec_csv_split (join [COMMA] cols) = cols.
Proof.
  unfold spec_csv_split.
  induction cols as [|k cols IH]; [congruence|]. intros _ H.
  inversion H as [|? ? [Hq Hc] H']; subst.
  destruct cols as [|k' cols].
  - simpl. rewrite <- (app_nil_r k) at 1.
    rewrite csv_raw_field by (auto; now left). reflexivity.
  - change (join [COMMA] (k :: k' :: cols))
      with (k ++ COMMA :: join [COMMA] (k' :: cols)).
    rewrite csv_raw_field by (auto; right; eauto). cbn [fields_after].
    f_equal. apply IH; [discriminate|assumption].
Qed.

(** X12: the first row of the CSV file is the column names joined by
    commas without any quoting.  When no name holds a double quote it
    splits into as many fields as there are names plus one for each comma
    inside a name, and into the names themselves when no name holds a
    comma either; every other row splits into one field per column. *)
Theorem csv_header_row_unquoted :
  forall jsonData : list (obj jsval),
    let csvColumns := own_keys (hd [] jsonData) in
    let head_row := hd [] (csvRows jsonData) in
    length (csvRows jsonData) = S (length jsonData)
    /\ (csvColumns <> [] ->
        Forall (fun k => ~ In DQUOTE k) csvColumns ->
        length (spec_csv_split head_row)
        = length csvColumns + commas (concat csvColumns))
    /\ (csvColumns <> [] ->
        Forall (fun k => ~ In DQUOTE k /\ ~ In COMMA k) csvColumns ->
        spec_csv_split head_row = csvColumns)
    /\ (forall row,
           length (spec_csv_split (csv_row csvColumns row))
           = Nat.max 1 (length csvColumns)).
Proof.
  intros jsonData csvColumns head_row.
  assert (Hh : head_row = join [COMMA] csvColumns) by reflexivity.
  split; [|split; [|split]].
  - unfold csvRows. cbn [length]. now rewrite length_map.
  - intros Hne Hq. rewrite Hh. unfold spec_csv_split.
    rewrite csv_unquoted_count by (auto using join_no_quote).
    rewrite commas_join by assumption.
    destruct csvColumns; [congruence|]. simpl. lia.
  - intros Hne H. rewrite Hh. now apply csv_raw_fields.
  - intros row. unfold csv_row. destruct csvColumns as [|c cs].
    + reflexivity.
    + rewrite <- (map_map (prop row) csv_cell).
      rewrite spec_csv_split_join by discriminate.
      rewrite !length_map. simpl. reflexivity.
Qed.

Lemma csv_header_row_unquoted_witness :
  let row := [(js "Name, First", VStr (js "Doe, J")); (js "Fed", VStr (js "USA"))] in
  spec_csv_split (hd [] (csvRows [row])) = [js "Name"; js " First"; js "Fed"]
  /\ length (spec_csv_split (hd [] (csvRows [row]))) = 3.
Proof.
  intros row.
  destruct (csv_header_row_unquoted [row]) as (_ & H & _).
  split; [reflexivity|].
  apply H; [discriminate|].
  repeat constructor; simpl; intuition discriminate.
Defined.

(** ** The rows handed to the Parquet writer *)

Lemma assign_shape (o : obj jsval) (k : jsstring) (v : jsval) :
  (exists s, v = VStr s) -> decoded_shape o -> decoded_shape (assign o k v).
Proof.
  intros Hv (Hd & Hp & Hs). split; [|split].
  - unfold assign. destruct (str_eqb k (js "__proto__")); [assumption|].
    rewrite set_own_keys. now apply add_key_NoDup.
  - unfold assign. destruct (str_eqb k (js "__proto__")) eqn:E; [assumption|].
    rewrite set_own_keys, add_key_In. intros [H|H]; [auto|].
    subst k. now rewrite str_eqb_refl in E.
  - now apply assign_all_strings.
Qed.

Lemma decode_column_shape (label value : jsstring) (o : obj jsval) :
  decoded_shape o -> decoded_shape (decode_column label value o).
Proof.
  intros H. unfold decode_column.
  repeat match goal with
         | |- decoded_shape (if ?b then _ else _) => destruct b
         | |- decoded_shape (assign _ _ _) => apply assign_shape
         | |- exists s, js_or _ (VStr _) = VStr s => apply js_or_is_str
         | |- exists s, VStr _ = VStr s => eexists; reflexivity
         end; assumption.
Qed.

Lemma decodeLine_shape (L : Layout) (line : jsstring) (r : obj jsval) :
  decodeLine L line = Ok r -> decoded_shape r.
Proof.
  intros E.
  destruct (foldM_invariant (decode_step L line) decoded_shape
              (fun i => i < length (columns L)) (seq 0 (length (columns L))))
    with (s := @nil (jsstring * jsval)) as (r' & E' & H).
  - intros o i Ho Hi. unfold decode_step.
    destruct (nth_error (columns L) i) as [label|] eqn:En.
    + eexists. split; [reflexivity|]. now apply decode_column_shape.
    + apply nth_error_None in En. lia.
  - apply seq_below.
  - split; [constructor|split; [intros []|constructor]].
  - unfold decodeLine in E. rewrite E in E'. now injection E' as <-.
Qed.

Lemma key_order_perm (ks : list jsstring) : Permutation (key_order ks) ks.
Proof.
  unfold key_order. rewrite sort_by_perm. apply filter_split_perm.
Qed.

Lemma strRow_entries (row : obj jsval) (cols : list jsstring) :
  NoDup cols -> ~ In (js "__proto__") cols ->
  strRow cols row = map (fun c => (c, VStr (field row c))) cols.
Proof.
  unfold strRow.
  enough (H : forall o : obj jsval,
             NoDup cols -> ~ In (js "__proto__") cols ->
             (forall c, In c cols -> ~ In c (map fst o)) ->
             fold_left (fun o col =>
                          assign o col (match prop row col with
                                        | VUndefined => VStr []
                                        | VStr s => VStr s
                                        end)) cols o
             = o ++ map (fun c => (c, VStr (field row c))) cols).
  { intros Hd Hp. apply (H [] Hd Hp). intros c _ []. }
  induction cols as [|k ks IH]; intros o Hd Hp Hf; cbn [fold_left map].
  - now rewrite app_nil_r.
  - inversion Hd as [|? ? Hk Hd']; subst.
    assert (Ek : str_eqb k (js "__proto__") = false).
    { apply str_eqb_neq. intros ->. apply Hp. now left. }
    unfold assign at 2. rewrite Ek.
    rewrite set_own_fresh by (apply Hf; now left).
    rewrite IH.
    + rewrite <- app_assoc. cbn [app]. do 3 f_equal.
      unfold field. now destruct (prop row k).
    + assumption.
    + intros H. apply Hp. now right.
    + intros c Hc. rewrite map_app, in_app_iff. cbn [map fst In].
      intros [H|[H|[]]].
      * apply (Hf c); [now right|assumption].
      * subst c. contradiction.
Qed.

(** X13: the row handed to the Parquet writer for a decoded record holds,
    for the columns of the first record in Object.keys order, the
    record's own value of each column; the empty-string default for a
    missing value is never used, because every record of a group has the
    columns of the first one. *)
Theorem parquet_row_is_the_record :
  forall (L : Layout) (line0 line : jsstring) (row0 row : obj jsval),
    decodeLine L line0 = Ok row0 ->
    decodeLine L line = Ok row ->
    let csvColumns := own_keys row0 in
    strRow csvColumns row = map (fun c => (c, VStr (field row c))) csvColumns
    /\ (forall c, In c csvColumns -> get_own row c = Some (VStr (field row c)))
    /\ (forall c, ~ In c csvColumns -> get_own row c = None).
Proof.
  intros L line0 line row0 row E0 E csvColumns.
  destruct (decodeLine_shape _ _ _ E0) as (Hd0 & Hp0 & _).
  destruct (decodeLine_shape _ _ _ E) as (Hd & Hp & Hs).
  assert (Hk : map fst row0 = map fst row).
  { unfold decodeLine in E0, E.
    exact (decodeLine_keys L line0 line _ [] [] row0 row eq_refl E0 E). }
  assert (Hin : forall c, In c csvColumns <-> In c (map fst row)).
  { intros c. unfold csvColumns. now rewrite own_keys_order, key_order_In, Hk. }
  split; [|split].
  - apply strRow_entries.
    + unfold csvColumns. rewrite own_keys_order.
      eapply Permutation_NoDup; [|exact Hd0].
      symmetry. apply key_order_perm.
    + rewrite Hin. exact Hp.
  - intros c Hc. apply Hin in Hc.
    destruct (In_keys_get_own row c Hc) as (v & Eg & Hv).
    unfold all_strings in Hs. rewrite Forall_forall in Hs.
    destruct (Hs _ Hv) as [s Es]. cbn [snd] in Es. subst v.
    unfold field, prop. now rewrite Eg.
  - intros c Hc. destruct (get_own row c) as [v|] eqn:Eg; [|reflexivity].
    exfalso. apply Hc, Hin. apply get_own_In in Eg.
    apply in_map_iff. now exists (c, v).
Qed.

Lemma parquet_row_is_the_record_witness :
  let L := {| columns := [js "ID"; js "Name"]; colPositions := [0; 3; 8]%Z |} in
  let row0 := [(js "ID", VStr (js "1")); (js "Name", VStr (js "Ann"))] in
  let row := [(js "ID", VStr (js "2")); (js "Name", VStr (js "Bob"))] in
  decodeLine L (js "1  Ann") = Ok row0
  /\ decodeLine L (js "2  Bob") = Ok row
  /\ strRow (own_keys row0) row = row.
Proof.
  intros L row0 row.
  assert (E0 : decodeLine L (js "1  Ann") = Ok row0) by reflexivity.
  assert (E : decodeLine L (js "2  Bob") = Ok row) by reflexivity.
  split; [exact E0|split; [exact E|]].
  exact (proj1 (parquet_row_is_the_record L _ _ _ _ E0 E)).
Defined.

(** ** The labels of the layout in the header *)

Lemma exec_from_match (s : jsstring) :
  forall pos i k,
    exec_from s pos = Some (i, k) -> match_at (skipn (i - pos) s) = Some k.
Proof.
  induction s as [|c r IH]; intros pos i k.
  - simpl. discriminate.
  - cbn [exec_from]. destruct (match_at (c :: r)) as [k0|] eqn:E.
    + intros [= <- <-]. now rewrite Nat.sub_diag.
    + intros H. pose proof (exec_from_bounds _ _ _ _ H) as Hb.
      apply IH in H. replace (i - pos) with (S (i - S pos)) by lia.
      exact H.
Qed.

Lemma exec_match (header : jsstring) (lastIndex i k : nat) :
  exec header lastIndex = Some (i, k) -> match_at (skipn i header) = Some k.
Proof.
  unfold exec. intros H. pose proof (exec_from_bounds _ _ _ _ H) as Hb.
  apply exec_from_match in H. rewrite skipn_skipn in H.
  now replace (i - lastIndex + lastIndex) with i in H by lia.
Qed.

Section Chain.

Variable P : jsstring -> Prop.
Variable header : jsstring.
Hypothesis Hex :
  forall lastIndex,
    match exec header lastIndex with
    | Some (i, _) => P (firstn (i - lastIndex) (skipn lastIndex header))
    | None => P (skipn lastIndex header)
    end.

Lemma scan_chain (fuel : nat) :
  forall lastIndex cols poss,
    length header - lastIndex < fuel ->
    exists ms,
      scan fuel header lastIndex cols poss
      = Some (cols ++ map (label_at header) ms,
              poss ++ map (fun m => Z.of_nat (fst m)) ms)
      /\ match_chain P header lastIndex ms.
Proof.
  induction fuel as [|fuel IH]; intros lastIndex cols poss Hf; [lia|].
  cbn [scan]. pose proof (Hex lastIndex) as Hgap.
  destruct (exec header lastIndex) as [[i k]|] eqn:E.
  - pose proof (exec_bounds _ _ _ _ E) as Hb.
    destruct (IH (i + k) (cols ++ [trim (firstn k (skipn i header))])
                 (poss ++ [Z.of_nat i])) as (ms & Es & Hc); [lia|].
    exists ((i, k) :: ms). split.
    + rewrite Es. cbn [map fst snd]. unfold label_at at 2. cbn [fst snd].
      now rewrite <- !app_assoc.
    + cbn [match_chain]. split; [lia|]. split; [exact Hgap|].
      split; [|exact Hc]. eapply exec_match; exact E.
  - exists []. split; [|exact Hgap]. simpl. now rewrite !app_nil_r.
Qed.

Lemma extractLayout_chain :
  exists ms,
    extractLayout header
    = Some (mkLayout (map (label_at header) ms)
                     (map Z.of_nat (map fst ms ++ [length header])))
    /\ match_chain P header 0 ms.
Proof.
  destruct (scan_chain (S (length header)) 0 [] []) as (ms & E & Hc); [lia|].
  exists ms. split; [|exact Hc]. unfold extractLayout. rewrite E.
  cbn [app]. now rewrite map_app, map_map.
Qed.

Lemma chain_nth :
  forall ms lastIndex j i k,
    match_chain P header lastIndex ms ->
    nth_error ms j = Some (i, k) ->
    lastIndex <= i
    /\ match_at (skipn i header) = Some k
    /\ (forall nxt,
           nth_error (map fst ms ++ [length header]) (S j) = Some nxt ->
           i + k <= nxt
           /\ P (firstn (nxt - (i + k)) (skipn (i + k) header))).
Proof.
  induction ms as [|[i0 k0] ms IH]; intros lastIndex j i k Hc Hj.
  - destruct j; discriminate.
  - destruct Hc as (Hle & _ & Hm & Hc). destruct j as [|j].
    + injection Hj as <- <-. split; [exact Hle|]. split; [exact Hm|].
      intros nxt Hn. cbn [map app nth_error] in Hn.
      destruct ms as [|[i2 k2] ms].
      * injection Hn as <-. cbn [match_chain] in Hc.
        apply match_at_bounds in Hm. rewrite length_skipn in Hm.
        split; [lia|]. rewrite firstn_all2; [exact Hc|].
        rewrite length_skipn. lia.
      * injection Hn as <-. destruct Hc as (H1 & H2 & _). split; assumption.
    + destruct (IH (i0 + k0) j i k Hc Hj) as (H1 & H2 & H3).
      split; [lia|]. split; [exact H2|]. exact H3.
Qed.

End Chain.

Lemma trimStart_suffix (s : jsstring) :
  exists pre, s = pre ++ trimStart s /\ all_ws pre.
Proof.
  unfold all_ws.
  induction s as [|c r (pre & IH & Hw)]; [now exists []|]. simpl.
  destruct (is_ws c) eqn:Ec.
  - exists (c :: pre). simpl. rewrite Ec, Hw, <- IH. now split.
  - now exists [].
Qed.

Lemma trimEnd_prefix (s : jsstring) :
  exists t, s = trimEnd s ++ t /\ all_ws t.
Proof.
  unfold trimEnd. destruct (trimStart_suffix (rev s)) as (pre & E & Hw).
  exists (rev pre). split.
  - rewrite <- rev_app_distr, <- E. now rewrite rev_involutive.
  - unfold all_ws in *. rewrite forallb_forall in *.
    intros x Hx. apply Hw. now apply in_rev.
Qed.

Lemma firstn_length_app {A} (a b : list A) : firstn (length a) (a ++ b) = a.
Proof. induction a as [|x a IH]; simpl; [reflexivity|]. now rewrite IH. Qed.

Lemma match_at_label (s : jsstring) (k : nat) :
  match_at s = Some k ->
  exists c rest,
    trim (firstn k s) = c :: rest
    /\ is_ws c = false
    /\ trim (firstn k s) = trimEnd (firstn k s)
    /\ firstn (length (c :: rest)) s = c :: rest
    /\ length (c :: rest) <= k.
Proof.
  destruct s as [|c r]; [discriminate|]. unfold match_at.
  destruct (is_ws c) eqn:Ec; [discriminate|].
  destruct (lazy_star r) as [k'|] eqn:E; [|discriminate].
  intros [= <-]. change (firstn (S k') (c :: r)) with (c :: firstn k' r).
  unfold trim. cbn [trimStart]. rewrite Ec.
  destruct (trimEnd_cons_keep c (firstn k' r) Ec) as [u Eu].
  exists c, u. split; [exact Eu|]. split; [exact Ec|]. split; [reflexivity|].
  destruct (trimEnd_prefix (c :: firstn k' r)) as (t & Et & _).
  rewrite Eu in Et. split.
  - rewrite <- (firstn_skipn (S k') (c :: r)) at 1.
    change (firstn (S k') (c :: r)) with (c :: firstn k' r).
    rewrite Et, <- app_assoc. apply firstn_length_app.
  - apply (f_equal (@length N)) in Et. rewrite length_app in Et.
    cbn [length] in Et |- *. rewrite length_firstn in Et. lia.
Qed.

(** X14: every label of the layout is the text of the header at its
    offset: it is not empty, starts with the character at the offset,
    which is not whitespace, does not end in whitespace, and ends at or
    before the next offset. *)
Theorem labels_are_header_text :
  forall (header : jsstring) (L : Layout),
    extractLayout header = Some L ->
    forall j label,
      nth_error (columns L) j = Some label ->
      exists p q c rest,
        nth_error (colPositions L) j = Some (Z.of_nat p)
        /\ nth_error (colPositions L) (j + 1) = Some (Z.of_nat q)
        /\ label = c :: rest
        /\ is_ws c = false
        /\ last_ws false label = false
        /\ firstn (length label) (skipn p header) = label
        /\ p + length label <= q <= length header.
Proof.
  intros header L EL j label Hj.
  destruct (extractLayout_chain (fun _ => True) header) as (ms & E & Hc).
  { intros li. now destruct (exec header li) as [[i k]|]. }
  rewrite E in EL. injection EL as <-. cbn [columns colPositions] in *.
  rewrite nth_error_map in Hj.
  destruct (nth_error ms j) as [[i k]|] eqn:Em; [|discriminate].
  injection Hj as <-.
  destruct (chain_nth _ _ _ _ _ _ _ Hc Em) as (_ & Hm & Hn).
  assert (Hlt : j < length ms) by (apply nth_error_Some; congruence).
  destruct (nth_error (map fst ms ++ [length header]) (S j)) as [q|] eqn:Eq.
  2:{ apply nth_error_None in Eq. rewrite length_app, length_map in Eq.
      simpl in Eq. lia. }
  destruct (Hn q eq_refl) as [Hq _].
  assert (Hql : q <= length header).
  { apply nth_error_In in Eq. apply in_app_iff in Eq as [Hin|[<-|[]]]; [|lia].
    apply in_map_iff in Hin as ([i' k'] & <- & Hin).
    apply In_nth_error in Hin as [j' Hj'].
    destruct (chain_nth _ _ _ _ _ _ _ Hc Hj') as (_ & Hm' & _).
    apply match_at_bounds in Hm'. rewrite length_skipn in Hm'. simpl. lia. }
  destruct (match_at_label _ _ Hm) as (c & rest & E1 & E2 & E3 & E4 & E5).
  exists i, q, c, rest. unfold label_at. cbn [fst snd].
  split; [|split; [|split; [exact E1|split; [exact E2|split; [|split]]]]].
  - rewrite nth_error_map, nth_error_app1 by (rewrite length_map; lia).
    rewrite nth_error_map, Em. reflexivity.
  - replace (j + 1) with (S j) by lia. rewrite nth_error_map, Eq. reflexivity.
  - apply trim_last.
  - rewrite E1. exact E4.
  - rewrite E1. lia.
Qed.

Lemma labels_are_header_text_witness :
  let header := js "ID Number   Name " ++ [TAB] ++ js " Fed" in
  let L := mkLayout [js "ID Number"; js "Name"; js "Fed"] [0; 12; 19; 22]%Z in
  extractLayout header = Some L
  /\ exists p q c rest,
      nth_error (colPositions L) 1 = Some (Z.of_nat p)
      /\ nth_error (colPositions L) (1 + 1) = Some (Z.of_nat q)
      /\ js "Name" = c :: rest
      /\ is_ws c = false
      /\ last_ws false (js "Name") = false
      /\ firstn (length (js "Name")) (skipn p header) = js "Name"
      /\ p + length (js "Name") <= q <= length header.
Proof.
  intros header L.
  assert (E : extractLayout header = Some L) by reflexivity.
  split; [exact E|].
  exact (labels_are_header_text header L E 1 (js "Name") eq_refl).
Defined.

(** ** The header read as a line *)

Lemma trimEnd_app_ws (x g : jsstring) :
  all_ws g -> trimEnd (x ++ g) = trimEnd x.
Proof.
  unfold all_ws. induction g as [|w g IH] using rev_ind; intros H.
  - now rewrite app_nil_r.
  - rewrite forallb_app in H. apply andb_true_iff in H as [Hg Hw].
    simpl in Hw. rewrite andb_true_r in Hw.
    rewrite app_assoc, trimEnd_snoc_ws by exact Hw. now apply IH.
Qed.

Lemma lazy_star_only_space (r : jsstring) :
  only_space_ws r = true -> exists k, lazy_star r = Some k.
Proof.
  induction r as [|c r IH]; intros Ho; [now exists 0|].
  rewrite lazy_star_cons. destruct (lookahead (c :: r)); [now exists 0|].
  unfold only_space_ws in Ho. cbn [forallb] in Ho.
  apply andb_true_iff in Ho as [Hc Ho]. unfold in_class. rewrite Hc.
  destruct (IH Ho) as [k ->]. now exists (S k).
Qed.

Lemma exec_from_gap (s : jsstring) :
  only_space_ws s = true ->
  forall pos,
    match exec_from s pos with
    | Some (i, _) => all_ws (firstn (i - pos) s)
    | None => all_ws s
    end.
Proof.
  unfold all_ws. induction s as [|c r IH]; intros Ho pos; [reflexivity|].
  cbn [exec_from]. destruct (match_at (c :: r)) as [k0|] eqn:E.
  - now rewrite Nat.sub_diag.
  - assert (Hc : is_ws c = true).
    { destruct (is_ws c) eqn:Ec; [reflexivity|]. exfalso.
      unfold match_at in E. rewrite Ec in E.
      apply only_space_cons in Ho as [_ Ho].
      destruct (lazy_star_only_space r Ho) as [k Ek]. now rewrite Ek in E. }
    apply only_space_cons in Ho as [_ Ho]. specialize (IH Ho (S pos)).
    destruct (exec_from r (S pos)) as [[i k]|] eqn:E2.
    + apply exec_from_bounds in E2.
      replace (i - pos) with (S (i - S pos)) by lia.
      cbn [firstn forallb]. now rewrite Hc.
    + cbn [forallb]. now rewrite Hc.
Qed.

Lemma firstn_plus {A} (a b : nat) (l : list A) :
  firstn (a + b) l = firstn a l ++ firstn b (skipn a l).
Proof.
  revert l; induction a as [|a IH]; intros l; [reflexivity|].
  destruct l as [|x l]; simpl; [now rewrite firstn_nil|]. now rewrite IH.
Qed.

(** X15: in a header whose only whitespace characters are spaces, the
    slice of each column, cut from the header itself and trimmed, is the
    label of the column: the text between the end of a label and the next
    offset is blank. *)
Theorem header_slices_are_labels :
  forall (header : jsstring) (L : Layout),
    only_space_ws header = true ->
    extractLayout header = Some L ->
    forall j label,
      nth_error (columns L) j = Some label ->
      slice_value L header j = label.
Proof.
  intros header L Ho EL j label Hj.
  destruct (extractLayout_chain all_ws header) as (ms & E & Hc).
  { intros li. unfold exec.
    apply exec_from_gap. now apply only_space_skipn. }
  rewrite E in EL. injection EL as <-. cbn [columns] in Hj.
  rewrite nth_error_map in Hj.
  destruct (nth_error ms j) as [[i k]|] eqn:Em; [|discriminate].
  injection Hj as <-.
  destruct (chain_nth _ _ _ _ _ _ _ Hc Em) as (_ & Hm & Hn).
  assert (Hlt : j < length ms) by (apply nth_error_Some; congruence).
  destruct (nth_error (map fst ms ++ [length header]) (S j)) as [q|] eqn:Eq.
  2:{ apply nth_error_None in Eq. rewrite length_app, length_map in Eq.
      simpl in Eq. lia. }
  destruct (Hn q eq_refl) as [Hq Hgap].
  unfold slice_value. cbn [colPositions].
  replace (j + 1) with (S j) by lia.
  rewrite !nth_error_map, Eq.
  rewrite nth_error_app1 by (rewrite length_map; lia).
  rewrite nth_error_map, Em. cbn [option_map fst].
  rewrite substring_range by lia.
  rewrite <- Nat2Z.inj_sub by lia. rewrite !Nat2Z.id.
  replace (q - i) with (k + (q - (i + k))) by lia.
  rewrite firstn_plus, skipn_skipn. rewrite (Nat.add_comm k i).
  unfold label_at. cbn [fst snd].
  destruct (match_at_label _ _ Hm) as (c & rest & E1 & E2 & E3 & _).
  rewrite E3.
  assert (Ef : exists u, firstn k (skipn i header) = c :: u).
  { destruct (trimEnd_prefix (firstn k (skipn i header))) as (t & Et & _).
    rewrite <- E3, E1 in Et. rewrite Et. now exists (rest ++ t). }
  destruct Ef as [u Ef]. unfold trim. rewrite Ef. cbn [app trimStart].
  rewrite E2. rewrite app_comm_cons. now apply trimEnd_app_ws.
Qed.

Lemma header_slices_are_labels_witness :
  let header := js "ID Number   Name   Fed" in
  let L := mkLayout [js "ID Number"; js "Name"; js "Fed"] [0; 12; 19; 22]%Z in
  slice_value L header 1 = js "Name".
Proof.
  intros header L.
  exact (header_slices_are_labels header L eq_refl eq_refl 1 (js "Name")
           eq_refl).
Defined.

(** ** The lines of a download and the rows of the listing *)

Lemma download_lines_inv (fetch : jsstring -> result Response)
  (url : jsstring) (ls : list jsstring) :
  download_lines fetch url = Some ls ->
  exists res txtEntry,
    fetch url = Ok res /\ res_ok res = true
    /\ find (fun e => endsWith (js ".txt") (fst e)) (zipEntries res)
       = Some txtEntry
    /\ split_lines (snd txtEntry) = ls.
Proof.
  unfold download_lines. destruct (fetch url) as [res|e]; [|discriminate].
  destruct (res_ok res) eqn:Eok; [|discriminate].
  destruct (find _ (zipEntries res)) as [txtEntry|] eqn:Ef; [|discriminate].
  intros [= <-]. now exists res, txtEntry.
Qed.

Lemma federations_row (summary : obj (obj SummaryEntry)) (fed : jsstring)
  (rt : jsstring) (e : SummaryEntry) :
  entry_of summary fed rt = Some e ->
  In (fed, map (entry_of summary fed) ratingTypes) (federations summary).
Proof.
  unfold entry_of at 1. destruct (get_own summary fed) as [inner|] eqn:Eg;
    [|discriminate]. intros _.
  unfold federations. apply in_map_iff. exists fed. split; [reflexivity|].
  apply (Permutation_in _ (Permutation_sym (sort_strings_perm _))).
  rewrite own_keys_order, key_order_In.
  apply get_own_In in Eg. apply in_map_iff. now exists (fed, inner).
Qed.

(** ** The federation of a record and the key of its group *)

Lemma foldM_app {A S} (f : S -> A -> result S) (a b : list A) (s : S) :
  foldM f (a ++ b) s = (s' <- foldM f a s ;; foldM f b s').
Proof.
  revert s; induction a as [|x a IH]; intros s; [reflexivity|].
  cbn [app foldM]. destruct (f s x); [apply IH|reflexivity].
Qed.

Lemma trimStart_all_ws (g : jsstring) : all_ws g -> trimStart g = [].
Proof.
  unfold all_ws. induction g as [|c g IH]; [reflexivity|]. simpl.
  intros H. apply andb_true_iff in H as [Hc Hg]. rewrite Hc. now apply IH.
Qed.

Lemma trim_app_ws (x g : jsstring) : all_ws g -> trim (x ++ g) = trim x.
Proof.
  intros Hg. unfold trim. induction x as [|c x IH].
  - cbn [app]. now rewrite trimStart_all_ws.
  - cbn [app trimStart]. destruct (is_ws c); [exact IH|].
    rewrite app_comm_cons. now apply trimEnd_app_ws.
Qed.

Lemma trim_keep_head (c : char) (x : jsstring) :
  is_ws c = false -> trim (c :: x) = trimEnd (c :: x).
Proof. intros H. unfold trim. cbn [trimStart]. now rewrite H. Qed.

Lemma all_ws_firstn (n : nat) (g : jsstring) : all_ws g -> all_ws (firstn n g).
Proof.
  unfold all_ws. rewrite !forallb_forall. intros H x Hx. apply H.
  rewrite <- (firstn_skipn n g). apply in_app_iff. now left.
Qed.

Lemma trim_firstn_trimEnd (n : nat) (s : jsstring) :
  trim (firstn n (trimEnd s)) = trim (firstn n s).
Proof.
  destruct (trimEnd_prefix s) as (t & E & Hw).
  rewrite E at 2. rewrite firstn_app.
  symmetry. apply trim_app_ws. now apply all_ws_firstn.
Qed.

Lemma decode_column_keeps_fed (label value : jsstring) (o : obj jsval) :
  label <> js "Fed" -> label <> js "Fed Sex Tit" ->
  get_own (decode_column label value o) (js "Fed") = get_own o (js "Fed").
Proof.
  intros H1 H2. apply str_eqb_neq in H1, H2. unfold decode_column.
  rewrite H2.
  destruct (str_eqb label (js "WTit OTit"));
    [rewrite !get_own_assign by reflexivity; reflexivity|].
  destruct (startsWith (js "FOA AUG") label);
    [rewrite !get_own_assign by reflexivity; reflexivity|].
  destruct (str_eqb label (js "B-day Flag"));
    [rewrite !get_own_assign by reflexivity; reflexivity|].
  unfold assign. destruct (str_eqb label (js "__proto__")); [reflexivity|].
  now rewrite get_own_set_own, H1.
Qed.

Lemma decode_prefix_total (L : Layout) (line : jsstring) (i : nat) :
  i <= length (columns L) ->
  exists o, foldM (decode_step L line) (seq 0 i) [] = Ok o.
Proof.
  intros Hi.
  destruct (foldM_invariant (decode_step L line) (fun _ => True)
              (fun j => j < length (columns L)) (seq 0 i))
    with (s := @nil (jsstring * jsval)) as (o & E & _).
  - intros o j _ Hj. unfold decode_step.
    destruct (nth_error (columns L) j) as [label|] eqn:En; [eauto|].
    apply nth_error_None in En. lia.
  - apply Forall_forall. intros j Hj. apply in_seq in Hj. lia.
  - exact I.
  - now exists o.
Qed.

(** X18: when the column Fed Sex Tit starts at the first occurrence of
    Fed in the header and is at least three characters wide, no later
    column is labelled Fed or Fed Sex Tit, and the line has a character
    that is not whitespace at that offset, the Fed value of the decoded
    record is the key under which the partitioner files the line. *)
Theorem record_fed_is_group_key :
  forall (header line : jsstring) (L : Layout) (i : nat) (q : Z) (c : char),
    nth_error (columns L) i = Some (js "Fed Sex Tit") ->
    (forall j label,
        i < j -> nth_error (columns L) j = Some label ->
        label <> js "Fed" /\ label <> js "Fed Sex Tit") ->
    (0 <= fedStart header)%Z ->
    nth_error (colPositions L) i = Some (fedStart header) ->
    nth_error (colPositions L) (i + 1) = Some q ->
    (fedStart header + 3 <= q)%Z ->
    nth_error line (Z.to_nat (fedStart header)) = Some c ->
    is_ws c = false ->
    exists r,
      decodeLine L line = Ok r
      /\ get_own r (js "Fed") = Some (VStr (fed_of header line)).
Proof.
  intros header line L i q c Hl Hlater Hp0 Hp Hq Hw Hc Hnw.
  set (p := fedStart header) in *.
  assert (Hi : i < length (columns L)) by (apply nth_error_Some; congruence).
  (* the value of the column and its first three characters *)
  assert (Hv : trim (substring (slice_value L line i) (Some 0%Z) (Some 3%Z))
               = fed_of header line).
  { unfold slice_value, fed_of, fedEnd. fold p. rewrite Hp, Hq.
    change (len (js "Fed")) with 3%Z.
    rewrite (substring_range _ 0 3) by lia.
    rewrite (substring_range line p q) by lia.
    rewrite (substring_range line p (p + 3)) by lia.
    change (Z.to_nat (3 - 0)) with 3. change (Z.to_nat 0) with 0.
    rewrite skipn_O. replace (Z.to_nat (p + 3 - p)) with 3 by lia.
    set (n := Z.to_nat (q - p)). assert (Hn : 3 <= n) by lia.
    destruct (nth_error_split _ _ Hc) as (l1 & l2 & El & Hlen).
    assert (Es : skipn (Z.to_nat p) line = c :: l2).
    { rewrite El, <- Hlen.
      rewrite skipn_app, Nat.sub_diag, skipn_all. reflexivity. }
    rewrite Es. destruct n as [|n]; [lia|].
    change (firstn (S n) (c :: l2)) with (c :: firstn n l2).
    rewrite (trim_keep_head c _ Hnw), trim_firstn_trimEnd.
    change (c :: firstn n l2) with (firstn (S n) (c :: l2)).
    rewrite firstn_firstn. now replace (Nat.min 3 (S n)) with 3 by lia. }
  (* the columns before, the column itself, the columns after *)
  unfold decodeLine.
  replace (length (columns L)) with (i + S (length (columns L) - S i)) by lia.
  rewrite seq_app. cbn [seq Nat.add]. rewrite foldM_app.
  destruct (decode_prefix_total L line i) as [o1 E1]; [lia|].
  rewrite E1. cbn [bind foldM]. unfold decode_step at 1. rewrite Hl.
  cbn [bind].
  apply (foldM_invariant (decode_step L line)
           (fun o => get_own o (js "Fed") = Some (VStr (fed_of header line)))
           (fun j => i < j < length (columns L))).
  - intros o j Ho Hj. unfold decode_step.
    destruct (nth_error (columns L) j) as [label|] eqn:En.
    + eexists. split; [reflexivity|].
      destruct (Hlater j label (proj1 Hj) En) as [N1 N2].
      now rewrite decode_column_keeps_fed.
    + apply nth_error_None in En. lia.
  - apply Forall_forall. intros j Hj. apply in_seq in Hj. lia.
  - rewrite <- Hv. unfold decode_column.
    change (str_eqb (js "Fed Sex Tit") (js "Fed Sex Tit")) with true.
    cbv iota. rewrite !get_own_assign by reflexivity. eval_keys. reflexivity.
Qed.

Lemma record_fed_is_group_key_witness :
  let header := js "ID  Fed Sex Tit" in
  let L := mkLayout [js "ID"; js "Fed Sex Tit"] [0; 4; 15]%Z in
  exists r,
    decodeLine L (js "1   USA M GM") = Ok r
    /\ get_own r (js "Fed") = Some (VStr (js "USA")).
Proof.
  intros header L.
  assert (Hlater : forall j label,
             1 < j -> nth_error (columns L) j = Some label ->
             label <> js "Fed" /\ label <> js "Fed Sex Tit").
  { intros j label Hj E. destruct j as [|[|j]]; [lia|lia|].
    destruct j; discriminate E. }
  assert (Hp0 : (0 <= fedStart header)%Z) by (vm_compute; discriminate).
  assert (Hw : (fedStart header + 3 <= 15)%Z) by (vm_compute; discriminate).
  exact (record_fed_is_group_key header (js "1   USA M GM") L 1 15%Z 85%N
           eq_refl Hlater Hp0 eq_refl eq_refl Hw eq_refl eq_refl).
Defined.

(** Without the last hypothesis the two differ: a federation code that
    starts one character late is filed under the code, and the record
    holds the code and what follows it. *)
Example record_fed_offset :
  let header := js "ID  Fed Sex Tit" in
  let L := mkLayout [js "ID"; js "Fed Sex Tit"] [0; 4; 15]%Z in
  extractLayout header = Some L
  /\ fed_of header (js "1    X F") = js "X"
  /\ option_map (fun r => get_own r (js "Fed"))
       (match decodeLine L (js "1    X F") with
        | Ok r => Some r
        | Throw _ => None
        end)
     = Some (Some (VStr (js "X F"))).
Proof. vm_compute. repeat split. Qed.

(** ** The lines of the CSV file *)

Lemma In_firstn_skipn {A} (x : A) (n m : nat) (l : list A) :
  In x (firstn n (skipn m l)) -> In x l.
Proof.
  intros H. rewrite <- (firstn_skipn m l). apply in_app_iff. right.
  rewrite <- (firstn_skipn n (skipn m l)). apply in_app_iff. now left.
Qed.

Lemma nl_free_substring (s : jsstring) (a b : option Z) :
  nl_free s -> nl_free (substring s a b).
Proof. unfold nl_free, substring. intros H Hin. eapply H, In_firstn_skipn, Hin. Qed.

Lemma nl_free_trim (s : jsstring) : nl_free s -> nl_free (trim s).
Proof.
  unfold nl_free, trim. intros H Hin. apply H.
  destruct (trimStart_suffix s) as (pre & E & _). rewrite E.
  apply in_app_iff. right.
  destruct (trimEnd_prefix (trimStart s)) as (t & E' & _). rewrite E'.
  apply in_app_iff. now left.
Qed.

Lemma nl_free_split_ws_go (s : jsstring) :
  forall insep cur,
    nl_free cur -> nl_free s -> Forall nl_free (split_ws_go insep cur s).
Proof.
  unfold nl_free.
  induction s as [|c r IH]; intros insep cur Hc Hs; cbn [split_ws_go].
  - constructor; [|constructor]. now rewrite <- in_rev.
  - assert (Hr : ~ In NEWLINE r) by (intros H; apply Hs; now right).
    destruct (is_ws c).
    + destruct insep; [now apply IH|].
      constructor; [now rewrite <- in_rev|]. apply IH; [intros []|exact Hr].
    + apply IH; [|exact Hr]. intros [H|H]; [|now apply Hc].
      apply Hs. now left.
Qed.

Lemma nl_free_split_ws (s : jsstring) :
  nl_free s -> Forall nl_free (split_ws s).
Proof. apply nl_free_split_ws_go. intros []. Qed.

Lemma nl_free_at_index (parts : list jsstring) (i : nat) :
  Forall nl_free parts -> val_nl_free (js_or (at_index parts i) (VStr [])).
Proof.
  intros H. unfold at_index.
  destruct (nth_error parts i) as [s|] eqn:E; [|intros []].
  apply nth_error_In in E. rewrite Forall_forall in H. specialize (H s E).
  destruct s; [intros []|exact H].
Qed.

Lemma nl_free_join (sep : jsstring) (l : list jsstring) :
  nl_free sep -> Forall nl_free l -> nl_free (join sep l).
Proof.
  unfold nl_free. intros Hs. induction 1 as [|x l Hx Hl IH]; [intros []|].
  destruct l as [|y l]; [exact Hx|].
  change (join sep (x :: y :: l)) with (x ++ sep ++ join sep (y :: l)).
  rewrite !in_app_iff. tauto.
Qed.

Lemma nl_free_joined (parts : list jsstring) :
  Forall nl_free parts ->
  val_nl_free (js_or (VStr (join (js " ") parts)) (VStr [])).
Proof.
  intros H. assert (Hj : nl_free (join (js " ") parts)).
  { apply nl_free_join; [nl_const|exact H]. }
  destruct (join (js " ") parts); [intros []|exact Hj].
Qed.

Lemma Forall_tl {A} (P : A -> Prop) (l : list A) :
  Forall P l -> Forall P (tl l).
Proof. destruct 1; [constructor|assumption]. Qed.

Lemma set_own_nl_free (o : obj jsval) (k : jsstring) (v : jsval) :
  nl_free k -> val_nl_free v -> obj_nl_free o -> obj_nl_free (set_own o k v).
Proof.
  unfold obj_nl_free. intros Hk Hv.
  induction 1 as [|[k0 v0] o H0 Ho IH]; simpl.
  - repeat constructor; assumption.
  - destruct (str_eqb k0 k); constructor; auto. split; [apply H0|exact Hv].
Qed.

Lemma assign_nl_free (o : obj jsval) (k : jsstring) (v : jsval) :
  nl_free k -> val_nl_free v -> obj_nl_free o -> obj_nl_free (assign o k v).
Proof.
  intros Hk Hv Ho. unfold assign.
  destruct (str_eqb k (js "__proto__")); [assumption|].
  now apply set_own_nl_free.
Qed.

Lemma decode_column_nl_free (label value : jsstring) (o : obj jsval) :
  nl_free label -> nl_free value -> obj_nl_free o ->
  obj_nl_free (decode_column label value o).
Proof.
  intros Hl Hv Ho. unfold decode_column.
  repeat match goal with
         | |- obj_nl_free (if ?b then _ else _) => destruct b
         | |- obj_nl_free (assign _ _ _) => apply assign_nl_free
         | |- val_nl_free (js_or (at_index _ _) _) => apply nl_free_at_index
         | |- val_nl_free (js_or (VStr (join _ _)) _) => apply nl_free_joined
         | |- val_nl_free (VStr _) => unfold val_nl_free
         | |- Forall nl_free (tl _) => apply Forall_tl
         | |- Forall nl_free (split_ws _) => apply nl_free_split_ws
         | |- nl_free (trim _) => apply nl_free_trim
         | |- nl_free (substring _ _ _) => apply nl_free_substring
         | |- nl_free (js _) => nl_const
         end; assumption.
Qed.

Lemma decodeLine_nl_free (L : Layout) (line : jsstring) (r : obj jsval) :
  Forall nl_free (columns L) -> nl_free line ->
  decodeLine L line = Ok r -> obj_nl_free r.
Proof.
  intros Hc Hl E.
  destruct (foldM_invariant (decode_step L line) obj_nl_free
              (fun i => i < length (columns L)) (seq 0 (length (columns L))))
    with (s := @nil (jsstring * jsval)) as (r' & E' & H).
  - intros o i Ho Hi. unfold decode_step.
    destruct (nth_error (columns L) i) as [label|] eqn:En.
    + eexists. split; [reflexivity|]. apply decode_column_nl_free.
      * apply nth_error_In in En. rewrite Forall_forall in Hc. now apply Hc.
      * unfold slice_value. now apply nl_free_trim, nl_free_substring.
      * exact Ho.
    + apply nth_error_None in En. lia.
  - apply seq_below.
  - constructor.
  - unfold decodeLine in E. rewrite E in E'. now injection E' as <-.
Qed.

Lemma mapM_Forall {A B} (f : A -> result B) (P : A -> Prop) (Q : B -> Prop)
  (l : list A) :
  (forall a b, P a -> f a = Ok b -> Q b) ->
  Forall P l -> forall bs, mapM f l = Ok bs -> Forall Q bs.
Proof.
  intros Hf. induction 1 as [|a l Ha Hl IH]; intros bs; cbn [mapM].
  - intros [= <-]. constructor.
  - destruct (f a) as [b|e] eqn:E; [|discriminate]. cbn [bind].
    destruct (mapM f l) as [bs'|e]; [|discriminate]. cbn [bind].
    intros [= <-]. constructor; [eapply Hf; eauto|now apply IH].
Qed.

Lemma nl_free_csv_cell (v : jsval) : val_nl_free v -> nl_free (csv_cell v).
Proof.
  intros Hv. unfold csv_cell.
  set (val := match v with VUndefined => [] | VStr s => s end).
  assert (H : nl_free val) by (destruct v; [intros []|exact Hv]).
  destruct (_ || _); [|exact H].
  unfold nl_free in *. rewrite !in_app_iff. intros [Hin|[Hin|Hin]].
  - destruct Hin as [Hin|[]]. discriminate Hin.
  - unfold double_quotes in Hin. apply in_flat_map in Hin as (c & Hc & Hin).
    destruct (char_eqb c DQUOTE).
    + destruct Hin as [Hin|[Hin|[]]]; discriminate Hin.
    + destruct Hin as [->|[]]. now apply H.
  - destruct Hin as [Hin|[]]. discriminate Hin.
Qed.

Lemma nl_free_prop (row : obj jsval) (col : jsstring) :
  obj_nl_free row -> val_nl_free (prop row col).
Proof.
  intros H. unfold prop. destruct (get_own row col) as [v|] eqn:E; [|exact I].
  apply get_own_In in E. unfold obj_nl_free in H. rewrite Forall_forall in H.
  now destruct (H _ E).
Qed.

Lemma nl_free_own_keys (row : obj jsval) :
  obj_nl_free row -> Forall nl_free (own_keys row).
Proof.
  intros H. apply Forall_forall. intros k Hk.
  rewrite own_keys_order, key_order_In in Hk.
  apply in_map_iff in Hk as ([k0 v] & <- & Hin).
  unfold obj_nl_free in H. rewrite Forall_forall in H. now destruct (H _ Hin).
Qed.

Lemma nl_free_csvRows (jsonData : list (obj jsval)) :
  Forall obj_nl_free jsonData -> Forall nl_free (csvRows jsonData).
Proof.
  intros H. unfold csvRows.
  assert (Hk : Forall nl_free (own_keys (hd [] jsonData))).
  { apply nl_free_own_keys. destruct H; [constructor|assumption]. }
  constructor; [apply nl_free_join; [nl_const|exact Hk]|].
  apply Forall_map. eapply Forall_impl; [|exact H]. intros row Hr.
  unfold csv_row. apply nl_free_join; [nl_const|].
  apply Forall_map. apply Forall_forall. intros col _.
  now apply nl_free_csv_cell, nl_free_prop.
Qed.

Lemma newlines_app (a b : jsstring) :
  newlines (a ++ b) = newlines a + newlines b.
Proof. unfold newlines. now rewrite filter_app, length_app. Qed.

Lemma newlines_free (s : jsstring) : nl_free s -> newlines s = 0.
Proof.
  unfold nl_free, newlines. induction s as [|c s IH]; [reflexivity|].
  intros H. cbn [filter]. destruct (char_eqb NEWLINE c) eqn:E.
  - apply char_eqb_eq in E. exfalso. apply H. now left.
  - apply IH. intros Hin. apply H. now right.
Qed.

Lemma newlines_join (rows : list jsstring) :
  Forall nl_free rows ->
  newlines (join [NEWLINE] rows) = length rows - 1.
Proof.
  induction 1 as [|x rows Hx Hr IH]; [reflexivity|].
  destruct rows as [|y rows]; [now apply newlines_free|].
  change (join [NEWLINE] (x :: y :: rows))
    with (x ++ NEWLINE :: join [NEWLINE] (y :: rows)).
  rewrite newlines_app, (newlines_free x Hx).
  change (newlines (NEWLINE :: join [NEWLINE] (y :: rows)))
    with (S (newlines (join [NEWLINE] (y :: rows)))).
  rewrite IH. simpl. lia.
Qed.

(** X19: for a header and lines without a line feed, as the line
    splitter gives them, no label, no decoded value and no row of the CSV
    file holds a line feed, so the CSV text has exactly one line feed per
    record: the header row and one line for each record. *)
Theorem csv_file_one_line_per_record :
  forall (header : jsstring) (fedLines : list jsstring),
    ~ In NEWLINE header ->
    Forall (fun line => ~ In NEWLINE line) fedLines ->
    exists L jsonData,
      extractLayout header = Some L
      /\ mapM (decodeLine L) fedLines = Ok jsonData
      /\ Forall (fun label => ~ In NEWLINE label) (columns L)
      /\ Forall (fun row => ~ In NEWLINE row) (csvRows jsonData)
      /\ newlines (join [NEWLINE] (csvRows jsonData)) = length fedLines.
Proof.
  intros header fedLines Hh Hl.
  destruct (extractLayout_chain (fun _ => True) header) as (ms & EL & _).
  { intros li. now destruct (exec header li) as [[i k]|]. }
  set (L := mkLayout (map (label_at header) ms)
                     (map Z.of_nat (map fst ms ++ [length header]))) in *.
  destruct (decode_lines_total L fedLines) as (jsonData & EJ & Hlen).
  exists L, jsonData. split; [exact EL|]. split; [exact EJ|].
  assert (Hc : Forall nl_free (columns L)).
  { cbn [L columns]. apply Forall_map, Forall_forall. intros m _.
    unfold label_at, nl_free. intros Hin. apply nl_free_trim in Hin; [exact Hin|].
    intros Hin'. apply Hh. eapply In_firstn_skipn, Hin'. }
  assert (Hd : Forall obj_nl_free jsonData).
  { eapply (mapM_Forall (decodeLine L) nl_free obj_nl_free);
      [|exact Hl|exact EJ].
    intros line r Hline E. now apply (decodeLine_nl_free L line). }
  pose proof (nl_free_csvRows jsonData Hd) as Hr.
  split; [exact Hc|]. split; [exact Hr|].
  rewrite newlines_join by exact Hr.
  unfold csvRows. cbn [length]. rewrite length_map. lia.
Qed.

Lemma csv_file_one_line_per_record_witness :
  exists L jsonData,
    extractLayout (js "ID  Name       Fed") = Some L
    /\ mapM (decodeLine L) [js "1   Doe, J     USA"; js "2   Roe        IND"]
       = Ok jsonData
    /\ join [NEWLINE] (csvRows jsonData)
       = js "ID,Name,Fed" ++ [NEWLINE] ++ js "1," ++ [DQUOTE] ++ js "Doe, J"
            ++ [DQUOTE] ++ js ",USA" ++ [NEWLINE] ++ js "2,Roe,IND"
    /\ newlines (join [NEWLINE] (csvRows jsonData)) = 2.
Proof.
  assert (Hh : ~ In NEWLINE (js "ID  Name       Fed")) by nl_const.
  assert (Hl : Forall (fun line => ~ In NEWLINE line)
                 [js "1   Doe, J     USA"; js "2   Roe        IND"]).
  { repeat constructor; nl_const. }
  destruct (csv_file_one_line_per_record _ _ Hh Hl)
    as (L & jsonData & EL & EJ & _ & _ & Hn).
  exists L, jsonData. split; [exact EL|]. split; [exact EJ|].
  split; [|exact Hn].
  vm_compute in EL. injection EL as <-.
  vm_compute in EJ. injection EJ as <-. reflexivity.
Defined.

(** ** The width of the header *)

Lemma foldM_ext_in {A S} (f g : S -> A -> result S) (l : list A) :
  (forall s a, In a l -> f s a = g s a) ->
  forall s, foldM f l s = foldM g l s.
Proof.
  induction l as [|a l IH]; intros H s; [reflexivity|].
  cbn [foldM]. rewrite (H s a) by now left.
  destruct (g s a); [|reflexivity]. cbn [bind].
  apply IH. intros s' a' Hin. apply H. now right.
Qed.

Lemma substring_firstn (s : jsstring) (n : nat) (a b : Z) :
  (0 <= a <= b)%Z -> (b <= Z.of_nat n)%Z ->
  substring (firstn n s) (Some a) (Some b) = substring s (Some a) (Some b).
Proof.
  intros Hab Hb. rewrite !substring_range by exact Hab.
  rewrite skipn_firstn_comm, firstn_firstn. f_equal. lia.
Qed.

Lemma chain_positions (P : jsstring -> Prop) (header : jsstring)
  (ms : list (nat * nat)) (j : nat) :
  match_chain P header 0 ms ->
  j < length ms ->
  exists p q,
    nth_error (map Z.of_nat (map fst ms ++ [length header])) j
    = Some (Z.of_nat p)
    /\ nth_error (map Z.of_nat (map fst ms ++ [length header])) (j + 1)
       = Some (Z.of_nat q)
    /\ p <= q <= length header.
Proof.
  intros Hc Hj.
  destruct (nth_error ms j) as [[i k]|] eqn:Em.
  2:{ apply nth_error_None in Em. lia. }
  destruct (chain_nth P header _ _ _ _ _ Hc Em) as (_ & Hm & Hn).
  destruct (nth_error (map fst ms ++ [length header]) (S j)) as [q|] eqn:Eq.
  2:{ apply nth_error_None in Eq. rewrite length_app, length_map in Eq.
      simpl in Eq. lia. }
  destruct (Hn q eq_refl) as [Hq _].
  assert (Hql : q <= length header).
  { apply nth_error_In in Eq. apply in_app_iff in Eq as [Hin|[<-|[]]]; [|lia].
    apply in_map_iff in Hin as ([i' k'] & <- & Hin).
    apply In_nth_error in Hin as [j' Hj'].
    destruct (chain_nth P header _ _ _ _ _ Hc Hj') as (_ & Hm' & _).
    apply match_at_bounds in Hm'. rewrite length_skipn in Hm'. simpl. lia. }
  exists i, q. split; [|split].
  - rewrite nth_error_map, nth_error_app1 by (rewrite length_map; lia).
    rewrite nth_error_map, Em. reflexivity.
  - replace (j + 1) with (S j) by lia. rewrite nth_error_map, Eq. reflexivity.
  - apply match_at_bounds in Hm. lia.
Qed.

(** X20: the decoder reads a line only up to the length of the header:
    the end of the last column is the length of the header, so the
    characters of a line beyond it reach no record. *)
Theorem decoder_reads_header_width :
  forall (header : jsstring) (L : Layout) (line : jsstring),
    extractLayout header = Some L ->
    decodeLine L line = decodeLine L (firstn (length header) line).
Proof.
  intros header L line EL.
  destruct (extractLayout_chain (fun _ => True) header) as (ms & E & Hc).
  { intros li. now destruct (exec header li) as [[i k]|]. }
  rewrite E in EL. injection EL as <-.
  unfold decodeLine. apply foldM_ext_in. intros o i Hi.
  apply in_seq in Hi. cbn [columns] in Hi. rewrite length_map in Hi.
  destruct (chain_positions _ header ms i Hc) as (p & q & Hp & Hq & Hpq);
    [lia|].
  unfold decode_step, slice_value. cbn [colPositions]. rewrite Hp, Hq.
  now rewrite substring_firstn by lia.
Qed.

Lemma decoder_reads_header_width_witness :
  let L := mkLayout [js "ID"; js "Name"] [0; 4; 8]%Z in
  decodeLine L (js "1   Doe, J")
  = Ok [(js "ID", VStr (js "1")); (js "Name", VStr (js "Doe,"))].
Proof.
  intros L.
  rewrite (decoder_reads_header_width (js "ID  Name") L (js "1   Doe, J")
             eq_refl).
  reflexivity.
Defined.

(** ** The compound columns in the record *)

Lemma decode_column_frame (label value k : jsstring) (o : obj jsval) :
  ~ In k (keys_written label) ->
  get_own (decode_column label value o) k = get_own o k.
Proof.
  intros H. unfold keys_written in H. unfold decode_column, assign.
  repeat match goal with
         | |- context [if ?b then _ else _] =>
             match b with
             | str_eqb _ k => fail 1
             | _ => destruct b
             end
         end;
    rewrite ?get_own_set_own;
    repeat match goal with
           | |- context [str_eqb ?a k] =>
               let E := fresh "E" in
               destruct (str_eqb a k) eqn:E;
               [apply str_eqb_eq in E; exfalso; apply H; rewrite <- E;
                cbn [In]; tauto|]
           end;
    reflexivity.
Qed.

(** The value a record holds under a key is the one left by the last
    column that assigns the key. *)
Lemma decode_record_key (L : Layout) (line : jsstring) (i : nat)
  (label k : jsstring) :
  nth_error (columns L) i = Some label ->
  (forall j label',
      i < j -> nth_error (columns L) j = Some label' ->
      ~ In k (keys_written label')) ->
  exists o r,
    decodeLine L line = Ok r
    /\ get_own r k
       = get_own (decode_column label (slice_value L line i) o) k.
Proof.
  intros Hl Hlater.
  assert (Hi : i < length (columns L)) by (apply nth_error_Some; congruence).
  unfold decodeLine.
  replace (length (columns L)) with (i + S (length (columns L) - S i)) by lia.
  rewrite seq_app. cbn [seq Nat.add]. rewrite foldM_app.
  destruct (decode_prefix_total L line i) as [o1 E1]; [lia|].
  rewrite E1. cbn [bind foldM]. unfold decode_step at 1. rewrite Hl.
  cbn [bind]. exists o1.
  apply (foldM_invariant (decode_step L line)
           (fun o => get_own o k
                     = get_own (decode_column label (slice_value L line i) o1)
                               k)
           (fun j => i < j < length (columns L))).
  - intros o j Ho Hj. unfold decode_step.
    destruct (nth_error (columns L) j) as [label'|] eqn:En.
    + eexists. split; [reflexivity|].
      rewrite decode_column_frame; [exact Ho|].
      exact (Hlater j label' (proj1 Hj) En).
    + apply nth_error_None in En. lia.
  - apply Forall_forall. intros j Hj. apply in_seq in Hj. lia.
  - reflexivity.
Qed.

(** C3, for the record the decoder returns: when a column is labelled
    Fed Sex Tit and no later column is labelled Fed Sex Tit, Fed, Sex or
    Title, the record holds, for the trimmed slice [v] of that column,
    Fed = the trimmed first three characters of [v], Sex = the first
    whitespace-separated token of the trimmed remainder and Title = the
    other tokens of the remainder joined by single spaces (each the
    empty string when absent). *)
Theorem fed_sex_tit_decoded :
  forall (L : Layout) (line : jsstring) (i : nat),
    nth_error (columns L) i = Some (js "Fed Sex Tit") ->
    (forall j label,
        i < j -> nth_error (columns L) j = Some label ->
        ~ In label [js "Fed Sex Tit"; js "Fed"; js "Sex"; js "Title"]) ->
    let v := slice_value L line i in
    let rest := trim (skipn 3 v) in
    exists r,
      decodeLine L line = Ok r
      /\ get_own r (js "Fed") = Some (VStr (trim (firstn 3 v)))
      /\ get_own r (js "Sex") = Some (VStr (spec_word 0 rest))
      /\ get_own r (js "Title")
         = Some (VStr (join (js " ") (tl (spec_words rest)))).
Proof.
  intros L line i Hl Hlater v rest.
  assert (Hk : forall k, In k [js "Fed"; js "Sex"; js "Title"] ->
               forall j label, i < j -> nth_error (columns L) j = Some label ->
                               ~ In k (keys_written label)).
  { intros k Hk j label Hj En. specialize (Hlater j label Hj En).
    unfold keys_written.
    destruct (str_eqb label (js "Fed Sex Tit")) eqn:E1.
    { apply str_eqb_eq in E1. exfalso. apply Hlater. rewrite E1. now left. }
    destruct (str_eqb label (js "WTit OTit")).
    { cbn [In] in Hk |- *. intuition (subst; discriminate). }
    destruct (startsWith (js "FOA AUG") label).
    { cbn [In] in Hk |- *. intuition (subst; discriminate). }
    destruct (str_eqb label (js "B-day Flag")).
    { cbn [In] in Hk |- *. intuition (subst; discriminate). }
    intros [<-|[]]. apply Hlater. now right. }
  destruct (decode_record_key L line i _ (js "Fed") Hl) as (o1 & r1 & D1 & F1).
  { apply Hk. now left. }
  destruct (decode_record_key L line i _ (js "Sex") Hl) as (o2 & r2 & D2 & F2).
  { apply Hk. right. now left. }
  destruct (decode_record_key L line i _ (js "Title") Hl)
    as (o3 & r3 & D3 & F3).
  { apply Hk. right. right. now left. }
  rewrite D1 in D2, D3. injection D2 as <-. injection D3 as <-.
  exists r1. split; [exact D1|].
  destruct (fed_sex_tit_branch
              (substring line (nth_error (colPositions L) i)
                              (nth_error (colPositions L) (i + 1))) o1)
    as (B1 & _ & _ & _).
  destruct (fed_sex_tit_branch
              (substring line (nth_error (colPositions L) i)
                              (nth_error (colPositions L) (i + 1))) o2)
    as (_ & B2 & _ & _).
  destruct (fed_sex_tit_branch
              (substring line (nth_error (colPositions L) i)
                              (nth_error (colPositions L) (i + 1))) o3)
    as (_ & _ & B3 & _).
  split; [rewrite F1; exact B1|]. split; [rewrite F2; exact B2|].
  rewrite F3. exact B3.
Qed.

Lemma fed_sex_tit_decoded_witness :
  let L := mkLayout [js "ID"; js "Fed Sex Tit"; js "B-day"] [0; 4; 17; 22]%Z in
  exists r,
    decodeLine L (js "7   USA m   GM   1990") = Ok r
    /\ get_own r (js "Fed") = Some (VStr (js "USA"))
    /\ get_own r (js "Sex") = Some (VStr (js "m"))
    /\ get_own r (js "Title") = Some (VStr (js "GM")).
Proof.
  intros L.
  assert (Hlater : forall j label,
             1 < j -> nth_error (columns L) j = Some label ->
             ~ In label [js "Fed Sex Tit"; js "Fed"; js "Sex"; js "Title"]).
  { intros j label Hj E. destruct j as [|[|[|j]]]; [lia|lia| |].
    - injection E as <-. vm_compute. intuition discriminate.
    - destruct j; discriminate E. }
  exact (fed_sex_tit_decoded L (js "7   USA m   GM   1990") 1 eq_refl Hlater).
Defined.

(** C3, as stated, fails for a record: after the column Fed Sex Tit a
    column labelled Title stores its own slice under Title. *)
Lemma fed_sex_tit_overwritten_counterexample :
  let header := js "Fed Sex Tit   Title" in
  let line := js "USA m   GM    XYZ" in
  let L := mkLayout [js "Fed Sex Tit"; js "Title"] [0; 14; 19]%Z in
  extractLayout header = Some L
  /\ slice_value L line 0 = js "USA m   GM"
  /\ join (js " ") (tl (spec_words (trim (skipn 3 (slice_value L line 0)))))
     = js "GM"
  /\ decodeLine L line
     = Ok [(js "Fed", VStr (js "USA")); (js "Sex", VStr (js "m"));
           (js "Title", VStr (js "XYZ"))]
  /\ js "XYZ" <> js "GM".
Proof. vm_compute. repeat split. discriminate. Qed.

(** C6, for the record the decoder returns: when a column has a label
    that begins with FOA AUG and no later column has such a label or is
    labelled FOA, Rating, Gms or K, the record holds FOA, Gms and K as
    the first, second and third whitespace-separated tokens of the
    sliced value of that column (the empty string when absent) and
    Rating as the second whitespace-separated token of the label. *)
Theorem foa_block_decoded :
  forall (L : Layout) (line : jsstring) (i : nat) (label : jsstring),
    nth_error (columns L) i = Some label ->
    startsWith (js "FOA AUG") label = true ->
    (forall j label',
        i < j -> nth_error (columns L) j = Some label' ->
        startsWith (js "FOA AUG") label' = false
        /\ ~ In label' [js "FOA"; js "Rating"; js "Gms"; js "K"]) ->
    let v := slice_value L line i in
    exists r,
      decodeLine L line = Ok r
      /\ get_own r (js "FOA") = Some (VStr (spec_word 0 v))
      /\ get_own r (js "Gms") = Some (VStr (spec_word 1 v))
      /\ get_own r (js "K") = Some (VStr (spec_word 2 v))
      /\ get_own r (js "Rating") = Some (VStr (spec_word 1 label)).
Proof.
  intros L line i label Hl Hs Hlater v.
  assert (Hk : forall k, In k [js "FOA"; js "Rating"; js "Gms"; js "K"] ->
               forall j label', i < j ->
                                nth_error (columns L) j = Some label' ->
                                ~ In k (keys_written label')).
  { intros k Hk j label' Hj En.
    destruct (Hlater j label' Hj En) as [Hf Hn]. unfold keys_written.
    destruct (str_eqb label' (js "Fed Sex Tit")).
    { cbn [In] in Hk |- *. intuition (subst; discriminate). }
    destruct (str_eqb label' (js "WTit OTit")).
    { cbn [In] in Hk |- *. intuition (subst; discriminate). }
    rewrite Hf.
    destruct (str_eqb label' (js "B-day Flag")).
    { cbn [In] in Hk |- *. intuition (subst; discriminate). }
    intros [<-|[]]. now apply Hn. }
  set (slice := substring line (nth_error (colPositions L) i)
                               (nth_error (colPositions L) (i + 1))).
  assert (Hv : forall n, spec_word n v = spec_word n slice).
  { intros n. unfold spec_word, v, slice_value. now rewrite spec_words_trim. }
  destruct (decode_record_key L line i _ (js "FOA") Hl) as (o1 & r1 & D1 & F1).
  { apply Hk. now left. }
  destruct (decode_record_key L line i _ (js "Gms") Hl) as (o2 & r2 & D2 & F2).
  { apply Hk. right. right. now left. }
  destruct (decode_record_key L line i _ (js "K") Hl) as (o3 & r3 & D3 & F3).
  { apply Hk. right. right. right. now left. }
  destruct (decode_record_key L line i _ (js "Rating") Hl)
    as (o4 & r4 & D4 & F4).
  { apply Hk. right. now left. }
  rewrite D1 in D2, D3, D4.
  injection D2 as <-. injection D3 as <-. injection D4 as <-.
  exists r1. split; [exact D1|]. rewrite !Hv.
  destruct (foa_block_branch label slice o1 Hs) as (B1 & _ & _ & _).
  destruct (foa_block_branch label slice o2 Hs) as (_ & B2 & _ & _).
  destruct (foa_block_branch label slice o3 Hs) as (_ & _ & B3 & _).
  destruct (foa_block_branch label slice o4 Hs) as (_ & _ & _ & B4).
  split; [rewrite F1; exact B1|]. split; [rewrite F2; exact B2|].
  split; [rewrite F3; exact B3|]. rewrite F4. exact B4.
Qed.

Lemma foa_block_decoded_witness :
  let L := mkLayout [js "ID"; js "FOA AUG25 Gms K"; js "B-day"]
                    [0; 4; 21; 26]%Z in
  exists r,
    decodeLine L (js "7    F  12 40        1990") = Ok r
    /\ get_own r (js "FOA") = Some (VStr (js "F"))
    /\ get_own r (js "Gms") = Some (VStr (js "12"))
    /\ get_own r (js "K") = Some (VStr (js "40"))
    /\ get_own r (js "Rating") = Some (VStr (js "AUG25")).
Proof.
  intros L.
  assert (Hlater : forall j label',
             1 < j -> nth_error (columns L) j = Some label' ->
             startsWith (js "FOA AUG") label' = false
             /\ ~ In label' [js "FOA"; js "Rating"; js "Gms"; js "K"]).
  { intros j label' Hj E. destruct j as [|[|[|j]]]; [lia|lia| |].
    - injection E as <-. split; [reflexivity|].
      vm_compute. intuition discriminate.
    - destruct j; discriminate E. }
  exact (foa_block_decoded L (js "7    F  12 40        1990") 1
           (js "FOA AUG25 Gms K") eq_refl eq_refl Hlater).
Defined.

(** C6, as stated, fails for a record: after the rating block a column
    labelled Rating stores its own slice under Rating. *)
Lemma foa_rating_overwritten_counterexample :
  let header := js "FOA AUG25 Gms K  Rating" in
  let line := js "F 12 40          2839" in
  let L := mkLayout [js "FOA AUG25 Gms K"; js "Rating"] [0; 17; 23]%Z in
  extractLayout header = Some L
  /\ startsWith (js "FOA AUG") (js "FOA AUG25 Gms K") = true
  /\ spec_word 1 (js "FOA AUG25 Gms K") = js "AUG25"
  /\ decodeLine L line
     = Ok [(js "FOA", VStr (js "F")); (js "Rating", VStr (js "2839"));
           (js "Gms", VStr (js "12")); (js "K", VStr (js "40"))]
  /\ js "2839" <> js "AUG25".
Proof. vm_compute. repeat split. discriminate. Qed.

(** * The run *)

(** ** What does not depend on the Parquet export *)

Section RunErase.

Variable fetch : jsstring -> result Response.
Variable path_ok : jsstring -> bool.
Variable path_join : list jsstring -> jsstring.
Variable byteLength : jsstring -> N.
Variable zipSize : jsstring -> jsstring -> N.
Variable json_stringify : list (obj jsval) -> jsstring.

Local Abbreviation group pq :=
  (process_group path_ok path_join byteLength zipSize json_stringify pq).
Local Abbreviation dataset pq :=
  (processFideRatings fetch path_ok path_join byteLength zipSize
     json_stringify pq).
Local Abbreviation all pq :=
  (processAll fetch path_ok path_join byteLength zipSize json_stringify pq).

Lemma process_group_erase pq1 pq2 header ratingType w1 w2 g :
  erase_world w1 = erase_world w2 ->
  erase_result (group pq1 header ratingType w1 g)
  = erase_result (group pq2 header ratingType w2 g).
Proof.
  intros Hw. unfold erase_world in Hw. injection Hw as He Hs.
  unfold process_group, perform. destruct g as [fed fedLines].
  destruct (path_ok _); cbn [bind]; [|reflexivity].
  destruct (path_ok _); cbn [bind]; [|reflexivity].
  destruct (path_ok _); cbn [bind]; [|reflexivity].
  destruct (extractLayout header) as [L|]; [|reflexivity].
  destruct (mapM (decodeLine L) fedLines) as [jsonData|e]; [|reflexivity].
  cbn [bind].
  destruct (path_ok _); cbn [bind]; [|reflexivity].
  destruct (path_ok _); cbn [bind]; [|reflexivity].
  destruct jsonData as [|row rows].
  - cbn [bind emit fedSummary events].
    destruct (fedSummary w1) as [s1|], (fedSummary w2) as [s2|];
      try discriminate Hs; [|reflexivity].
    injection Hs as Hs. unfold erase_result, erase_world.
    cbn [events fedSummary option_map].
    rewrite !other_events_app, He.
    rewrite !record_summary_erase, Hs. reflexivity.
  - destruct (path_ok _); cbn [bind]; [|reflexivity].
    destruct (path_ok _); cbn [bind]; [|reflexivity].
    unfold writeParquet.
    destruct (pq1 _ _ _), (pq2 _ _ _);
      cbn [bind emit fedSummary events];
      (destruct (fedSummary w1) as [s1|], (fedSummary w2) as [s2|];
       try discriminate Hs; [|reflexivity]);
      injection Hs as Hs; unfold erase_result, erase_world;
      cbn [events fedSummary option_map];
      rewrite !other_events_app, He;
      rewrite !record_summary_erase, Hs; reflexivity.
Qed.

Lemma foldM_erase pq1 pq2 header ratingType
  (gs : list (jsstring * list jsstring)) :
  forall w1 w2,
    erase_world w1 = erase_world w2 ->
    erase_result (foldM (group pq1 header ratingType) gs w1)
    = erase_result (foldM (group pq2 header ratingType) gs w2).
Proof.
  induction gs as [|g gs IH]; intros w1 w2 Hw; simpl.
  - now rewrite Hw.
  - pose proof (process_group_erase pq1 pq2 header ratingType w1 w2 g Hw)
      as Hg.
    destruct (group pq1 header ratingType w1 g) as [w1'|e1],
             (group pq2 header ratingType w2 g) as [w2'|e2];
      cbn [erase_result] in Hg; try discriminate Hg; cbn [bind].
    + apply IH. congruence.
    + exact Hg.
Qed.

Lemma dataset_erase pq1 pq2 url ratingType w1 w2 :
  erase_world w1 = erase_world w2 ->
  erase_result (dataset pq1 url ratingType w1)
  = erase_result (dataset pq2 url ratingType w2).
Proof.
  intros Hw. unfold processFideRatings.
  destruct (fetch url) as [res|e]; [|reflexivity]. cbn [bind].
  destruct (negb (res_ok res)); [reflexivity|].
  destruct (find _ (zipEntries res)) as [txtEntry|]; [|reflexivity].
  destruct (split_lines (snd txtEntry)) as [|header dataLines];
    [reflexivity|].
  destruct (groupLines header dataLines) as [fedMap|e]; [|reflexivity].
  cbn [bind]. apply foldM_erase.
  unfold erase_world in *. injection Hw as He Hs.
  destruct (fedSummary w1) eqn:E1, (fedSummary w2) eqn:E2;
    try discriminate Hs;
    cbn [events fedSummary option_map] in *; rewrite ?E1, ?E2;
    cbn [option_map]; congruence.
Qed.

Lemma processAll_erase pq1 pq2 w :
  erase_result (all pq1 w) = erase_result (all pq2 w).
Proof.
  unfold processAll.
  assert (H : forall srcs w1 w2,
             erase_world w1 = erase_world w2 ->
             erase_result
               (foldM (fun w src => dataset pq1 (fst src) (snd src) w) srcs w1)
             = erase_result
                 (foldM (fun w src => dataset pq2 (fst src) (snd src) w)
                        srcs w2)).
  { induction srcs as [|src srcs IH]; intros w1 w2 Hw; simpl.
    - now rewrite Hw.
    - pose proof (dataset_erase pq1 pq2 (fst src) (snd src) w1 w2 Hw) as Hd.
      destruct (dataset pq1 (fst src) (snd src) w1) as [w1'|e1],
               (dataset pq2 (fst src) (snd src) w2) as [w2'|e2];
        cbn [erase_result] in Hd; try discriminate Hd; cbn [bind].
      + apply IH. congruence.
      + exact Hd. }
  now apply H.
Qed.

(** The page is written at a path that does not depend on the export. *)
Lemma path_of_indexPage template w1 w2 :
  path_of (indexPage path_join template w1)
  = path_of (indexPage path_join template w2).
Proof. reflexivity. Qed.

End RunErase.

(** ** What a returned run has done *)

Section RunContent.

Variable fetch : jsstring -> result Response.
Variable path_ok : jsstring -> bool.
Variable path_join : list jsstring -> jsstring.
Variable byteLength : jsstring -> N.
Variable zipSize : jsstring -> jsstring -> N.
Variable json_stringify : list (obj jsval) -> jsstring.
Variable pq : jsstring -> list jsstring -> list (obj jsval) -> option N.

Local Abbreviation group :=
  (process_group path_ok path_join byteLength zipSize json_stringify pq).
Local Abbreviation dataset :=
  (processFideRatings fetch path_ok path_join byteLength zipSize
     json_stringify pq).
Local Abbreviation done := (group_done pq path_join json_stringify).

Lemma mapM_length {A B} (f : A -> result B) (l : list A) :
  forall bs, mapM f l = Ok bs -> length bs = length l.
Proof.
  induction l as [|a l IH]; intros bs; cbn [mapM].
  - now intros [= <-].
  - destruct (f a) as [b|e]; [|discriminate]. cbn [bind].
    destruct (mapM f l) as [bs'|e]; [|discriminate]. cbn [bind].
    intros [= <-]. cbn [length]. now rewrite (IH bs' eq_refl).
Qed.

Lemma process_group_ok header ratingType w w' fed fedLines :
  group header ratingType w (fed, fedLines) = Ok w' ->
  fedLines <> [] ->
  exists L jsonData s e evs,
    extractLayout header = Some L
    /\ mapM (decodeLine L) fedLines = Ok jsonData
    /\ fedSummary w = Some s
    /\ events w' = events w ++ evs
    /\ fedSummary w' = Some (record_summary s fed ratingType e)
    /\ dirs_made evs = [path_join [js "data"; fed; ratingType]]
    /\ In (Mkdir (path_join [js "data"; fed; ratingType])) evs
    /\ incl (group_artifacts path_join json_stringify header ratingType fed
                             fedLines jsonData) evs
    /\ count e = length fedLines
    /\ txt e = fed ++ js "/" ++ ratingType ++ js "/" ++ ratingType
               ++ js ".txt"
    /\ parquet_outcome pq path_join ratingType fed jsonData evs e.
Proof.
  intros H Hne. unfold process_group, perform in H.
  destruct (path_ok _); cbn [bind] in H; [|discriminate H].
  destruct (path_ok _); cbn [bind] in H; [|discriminate H].
  destruct (path_ok _); cbn [bind] in H; [|discriminate H].
  destruct (extractLayout header) as [L|] eqn:EL; [|discriminate H].
  destruct (mapM (decodeLine L) fedLines) as [jsonData|e] eqn:EJ;
    [|discriminate H].
  cbn [bind] in H.
  destruct (path_ok _); cbn [bind] in H; [|discriminate H].
  destruct (path_ok _); cbn [bind] in H; [|discriminate H].
  pose proof (mapM_length _ _ _ EJ) as Hlen.
  destruct jsonData as [|row rows].
  { destruct fedLines; [congruence|discriminate Hlen]. }
  destruct (path_ok _); cbn [bind] in H; [|discriminate H].
  destruct (path_ok _); cbn [bind] in H; [|discriminate H].
  unfold writeParquet in H. unfold parquet_outcome, group_artifacts.
  cbv zeta.
  destruct (pq _ _ _) as [size|] eqn:Epq;
    cbn [bind emit fedSummary events] in H;
    (destruct (fedSummary w) as [s|] eqn:Es; [|discriminate H]);
    injection H as <-;
    exists L, (row :: rows), s; eexists; eexists;
    (split; [reflexivity|]); (split; [exact EJ|]);
    (split; [reflexivity|]);
    cbn [events fedSummary];
    (split; [rewrite <- !app_assoc; reflexivity|]);
    (split; [reflexivity|]);
    (split; [reflexivity|]);
    (split; [cbn [app In]; auto 12|]);
    (split; [intros a Ha; cbn [app In] in Ha |- *;
             repeat (destruct Ha as [<-|Ha]; [auto 12|]); destruct Ha|]);
    (split; [exact Hlen|]); (split; [reflexivity|]);
    rewrite Epq; (split; [cbn [app In]; auto 12|reflexivity]).
Qed.

Lemma dirs_made_app (a b : list event) :
  dirs_made (a ++ b) = dirs_made a ++ dirs_made b.
Proof. unfold dirs_made. apply flat_map_app. Qed.

Lemma parquet_outcome_mono ratingType fed jsonData evs evs' e e' :
  parquet_outcome pq path_join ratingType fed jsonData evs e ->
  (forall a, In a evs -> In a evs') ->
  parquetSize e' = parquetSize e ->
  parquet_outcome pq path_join ratingType fed jsonData evs' e'.
Proof.
  unfold parquet_outcome. cbv zeta. intros H Hin He.
  destruct (pq _ _ _); destruct H as [H1 H2]; (split; [auto|congruence]).
Qed.

Lemma done_mono header ratingType fed fedLines evs evs' s s' :
  done header ratingType fed fedLines evs s ->
  (forall a, In a evs -> In a evs') ->
  entry_of s' fed ratingType = entry_of s fed ratingType ->
  done header ratingType fed fedLines evs' s'.
Proof.
  intros (L & jd & e & H1 & H2 & H3 & H4 & H5 & H6 & H7 & H8) Hin He.
  exists L, jd, e. split; [exact H1|]. split; [exact H2|].
  split; [auto|]. split; [intros a Ha; auto|].
  split; [congruence|]. split; [exact H6|]. split; [exact H7|].
  eapply parquet_outcome_mono; eauto.
Qed.

Lemma groups_ok header ratingType (gs : list (jsstring * list jsstring)) :
  str_eqb ratingType (js "__proto__") = false ->
  NoDup (map fst gs) ->
  Forall (fun g => inherited (fst g) = false /\ snd g <> []) gs ->
  forall w w' s,
    fedSummary w = Some s ->
    foldM (group header ratingType) gs w = Ok w' ->
    exists evs s',
      events w' = events w ++ evs
      /\ fedSummary w' = Some s'
      /\ dirs_made evs
         = map (fun g => path_join [js "data"; fst g; ratingType]) gs
      /\ (forall fed fedLines,
             In (fed, fedLines) gs ->
             done header ratingType fed fedLines evs s')
      /\ (forall fed rt,
             rt <> ratingType \/ ~ In fed (map fst gs) ->
             entry_of s' fed rt = entry_of s fed rt).
Proof.
  intros Hp. induction gs as [|[fed fedLines] gs IH];
    intros Hd Hg w w' s Hs H.
  - cbn [foldM] in H. injection H as <-. exists [], s.
    split; [now rewrite app_nil_r|]. split; [exact Hs|].
    split; [reflexivity|]. split; [intros ? ? []|reflexivity].
  - inversion Hd as [|? ? Hn Hd']; subst.
    inversion Hg as [|? ? [Hi Hne] Hg']; subst. cbn [fst snd] in Hi, Hne.
    cbn [foldM] in H.
    destruct (group header ratingType w (fed, fedLines)) as [w1|] eqn:E1;
      [|discriminate H].
    cbn [bind] in H.
    destruct (process_group_ok _ _ _ _ _ _ E1 Hne)
      as (L & jd & s0 & e & evs1 & H1 & H2 & H3 & H4 & H5 & H6 & H7 & H8
          & H9 & H10 & H11).
    rewrite Hs in H3. injection H3 as <-.
    destruct (IH Hd' Hg' w1 w' _ H5 H)
      as (evs2 & s' & G1 & G2 & G3 & G4 & G5).
    exists (evs1 ++ evs2), s'.
    split; [now rewrite G1, H4, app_assoc|]. split; [exact G2|].
    split; [rewrite dirs_made_app, H6, G3; reflexivity|].
    assert (He : entry_of s' fed ratingType = Some e).
    { rewrite G5 by (now right).
      rewrite record_summary_entry by assumption.
      now rewrite !str_eqb_refl. }
    split.
    + intros f l [Hin|Hin].
      * injection Hin as <- <-. exists L, jd, e.
        split; [exact H1|]. split; [exact H2|].
        split; [apply in_app_iff; now left|].
        split; [intros a Ha; apply in_app_iff; left; now apply H8|].
        split; [exact He|]. split; [exact H9|]. split; [exact H10|].
        eapply parquet_outcome_mono; [exact H11| |reflexivity].
        intros a Ha. apply in_app_iff. now left.
      * eapply done_mono; [exact (G4 f l Hin)| |reflexivity].
        intros a Ha. apply in_app_iff. now right.
    + intros f rt Hf. rewrite G5.
      * rewrite record_summary_entry by assumption.
        destruct (str_eqb fed f) eqn:Ef; [|reflexivity].
        destruct (str_eqb ratingType rt) eqn:Er; [|reflexivity].
        apply str_eqb_eq in Ef, Er. subst. cbn [map fst] in Hf.
        destruct Hf as [Hf|Hf]; [congruence|]. exfalso. apply Hf. now left.
      * destruct Hf as [Hf|Hf]; [now left|]. right. intros Hin. apply Hf.
        now right.
Qed.

Lemma dataset_lines url ratingType w w' :
  dataset url ratingType w = Ok w' ->
  exists header dataLines,
    download_lines fetch url = Some (header :: dataLines).
Proof.
  unfold processFideRatings, download_lines.
  destruct (fetch url) as [res|e]; [|discriminate]. cbn [bind].
  destruct (res_ok res); cbn [negb]; [|discriminate].
  destruct (find _ (zipEntries res)) as [txtEntry|]; [|discriminate].
  destruct (split_lines (snd txtEntry)) as [|header dataLines];
    [discriminate|].
  intros _. now exists header, dataLines.
Qed.

Lemma dataset_ok url ratingType w w' header dataLines :
  dataset url ratingType w = Ok w' ->
  download_lines fetch url = Some (header :: dataLines) ->
  ratingType <> js "__proto__" ->
  exists evs s',
    events w' = events w ++ evs
    /\ fedSummary w' = Some s'
    /\ dirs_made evs
       = map (fun fed => path_join [js "data"; fed; ratingType])
             (key_order (first_seen header dataLines))
    /\ (forall line,
           In line dataLines -> fed_of header line <> [] ->
           done header ratingType (fed_of header line)
                (filter (fun l => str_eqb (fed_of header l)
                                          (fed_of header line)) dataLines)
                evs s')
    /\ (forall fed rt,
           rt <> ratingType
           \/ (forall line, In line dataLines -> fed_of header line <> fed) ->
           entry_of s' fed rt
           = entry_of match fedSummary w with Some s => s | None => [] end
                      fed rt).
Proof.
  intros H Hd Hp. apply str_eqb_neq in Hp.
  destruct (download_lines_inv _ _ _ Hd) as (res & txtEntry & F1 & F2 & F3 & F4).
  unfold processFideRatings in H. rewrite F1 in H. cbn [bind] in H.
  rewrite F2, F3, F4 in H. cbn [negb] in H.
  destruct (groups_partition header dataLines)
    as (fedMap & Hm & Hn & P1 & P2 & _).
  rewrite Hm in H. cbn [bind] in H.
  set (s0 := match fedSummary w with Some s => s | None => [] end).
  set (w0 := match fedSummary w with
             | Some _ => w
             | None => mkWorld (events w) (Some [])
             end) in H.
  assert (Hs0 : fedSummary w0 = Some s0).
  { unfold w0, s0. now destruct (fedSummary w) eqn:E. }
  assert (He0 : events w0 = events w).
  { unfold w0. now destruct (fedSummary w). }
  pose proof (own_entries_perm fedMap) as Hperm.
  destruct (groups_ok header ratingType (own_entries fedMap) Hp)
    with (w := w0) (w' := w') (s := s0) as (evs & s' & G1 & G2 & G3 & G4 & G5).
  - eapply Permutation_NoDup; [|exact Hn].
    symmetry. now apply Permutation_map.
  - apply Forall_forall. intros [fed fedLines] Hin. cbn [fst snd].
    apply (Permutation_in _ Hperm) in Hin.
    destruct (P1 fed fedLines Hin) as (_ & Hne & Hfl).
    split; [|exact Hne].
    destruct fedLines as [|l ls]; [congruence|].
    assert (Hk : fed_of header l = fed).
    { assert (Hin' : In l (l :: ls)) by now left.
      rewrite Hfl in Hin'. apply filter_In in Hin' as [_ E].
      now apply str_eqb_eq. }
    apply short_not_inherited. rewrite <- Hk. apply fed_of_length.
  - exact Hs0.
  - exact H.
  - exists evs, s'. split; [now rewrite G1, He0|]. split; [exact G2|].
    split; [|split].
    + rewrite G3.
      rewrite <- (map_map fst
                    (fun fed => path_join [js "data"; fed; ratingType])).
      f_equal. change (map fst (own_entries fedMap)) with (own_keys fedMap).
      rewrite own_keys_order. f_equal.
      unfold groupLines in Hm. apply groupLines_keys in Hm. exact Hm.
    + intros line Hin Hne.
      destruct (P2 line Hin Hne) as (ls & Hg & _).
      destruct (P1 _ _ Hg) as (_ & _ & Hls).
      apply (Permutation_in _ (Permutation_sym Hperm)) in Hg.
      specialize (G4 _ _ Hg). now rewrite Hls in G4.
    + intros fed rt Hf. apply G5. destruct Hf as [Hf|Hf]; [now left|].
      right. intros Hin. apply in_map_iff in Hin as ([f ls] & Hfst & Hin).
      cbn [fst] in Hfst. subst f.
      apply (Permutation_in _ Hperm) in Hin.
      destruct (P1 fed ls Hin) as (_ & Hne & Hfl).
      destruct ls as [|l ls]; [congruence|].
      assert (Hin' : In l (l :: ls)) by now left.
      rewrite Hfl in Hin'. apply filter_In in Hin' as [Hdl E].
      apply str_eqb_eq in E. exact (Hf l Hdl E).
Qed.

Lemma processAll_ok w w3 :
  processAll fetch path_ok path_join byteLength zipSize json_stringify pq w
  = Ok w3 ->
  exists evs summary,
    events w3 = events w ++ evs
    /\ fedSummary w3 = Some summary
    /\ forall i url rt header dataLines line,
         nth_error ratingSources i = Some (url, rt) ->
         download_lines fetch url = Some (header :: dataLines) ->
         In line dataLines -> fed_of header line <> [] ->
         done header rt (fed_of header line)
              (filter (fun l => str_eqb (fed_of header l)
                                        (fed_of header line)) dataLines)
              evs summary.
Proof.
  unfold processAll, ratingSources. cbn [foldM fst snd]. intros H.
  destruct (dataset _ (js "standard") w) as [w1|] eqn:W1; [|discriminate H].
  cbn [bind] in H.
  destruct (dataset _ (js "rapid") w1) as [w2|] eqn:W2; [|discriminate H].
  cbn [bind] in H.
  destruct (dataset _ (js "blitz") w2) as [w3'|] eqn:W3; [|discriminate H].
  cbn [bind] in H. injection H as <-.
  destruct (dataset_lines _ _ _ _ W1) as (h1 & d1 & D1).
  destruct (dataset_lines _ _ _ _ W2) as (h2 & d2 & D2).
  destruct (dataset_lines _ _ _ _ W3) as (h3 & d3 & D3).
  destruct (dataset_ok _ _ _ _ _ _ W1 D1) as (e1 & s1 & A1 & B1 & _ & C1 & _);
    [discriminate|].
  destruct (dataset_ok _ _ _ _ _ _ W2 D2) as (e2 & s2 & A2 & B2 & _ & C2 & F2);
    [discriminate|].
  destruct (dataset_ok _ _ _ _ _ _ W3 D3) as (e3 & s3 & A3 & B3 & _ & C3 & F3);
    [discriminate|].
  rewrite B1 in F2. rewrite B2 in F3.
  exists (e1 ++ e2 ++ e3), s3.
  split; [now rewrite A3, A2, A1, <- !app_assoc|]. split; [exact B3|].
  intros i url rt header dataLines line Hi Hd Hin Hne.
  destruct i as [|[|[|i]]]; cbn [nth_error] in Hi;
    [| | |destruct i; discriminate Hi];
    injection Hi as <- <-; rewrite Hd in *.
  - injection D1 as <- <-.
    eapply done_mono; [exact (C1 line Hin Hne)| |].
    + intros a Ha. apply in_app_iff. now left.
    + now rewrite F3, F2 by (left; discriminate).
  - injection D2 as <- <-.
    eapply done_mono; [exact (C2 line Hin Hne)| |].
    + intros a Ha. rewrite !in_app_iff. auto.
    + now rewrite F3 by (left; discriminate).
  - injection D3 as <- <-.
    eapply done_mono; [exact (C3 line Hin Hne)| |reflexivity].
    intros a Ha. rewrite !in_app_iff. auto.
Qed.

End RunContent.

(** ** Runs that return *)

Lemma nul_free_app (a b : jsstring) :
  nul_free a -> nul_free b -> nul_free (a ++ b).
Proof. unfold nul_free. rewrite in_app_iff. tauto. Qed.

Lemma nul_free_join (sep : jsstring) (l : list jsstring) :
  nul_free sep -> Forall nul_free l -> nul_free (join sep l).
Proof.
  unfold nul_free. intros Hs. induction 1 as [|x l Hx Hl IH]; [intros []|].
  destruct l as [|y l]; [exact Hx|].
  change (join sep (x :: y :: l)) with (x ++ sep ++ join sep (y :: l)).
  rewrite !in_app_iff. tauto.
Qed.

Lemma no_nul_accepted (path : jsstring) :
  nul_free path -> negb (existsb (N.eqb 0) path) = true.
Proof.
  intros H. apply negb_true_iff.
  destruct (existsb (N.eqb 0) path) eqn:E; [|reflexivity].
  apply existsb_exists in E as (c & Hc & E). apply N.eqb_eq in E.
  subst c. contradiction.
Qed.

Section RunTotal.

Variable fetch : jsstring -> result Response.
Variable path_ok : jsstring -> bool.
Variable path_join : list jsstring -> jsstring.
Variable byteLength : jsstring -> N.
Variable zipSize : jsstring -> jsstring -> N.
Variable json_stringify : list (obj jsval) -> jsstring.
Variable pq : jsstring -> list jsstring -> list (obj jsval) -> option N.

(** [path.join] puts no U+0000 into a path, and the file system accepts
    every path without one. *)
Hypothesis Hjoin :
  forall parts, Forall nul_free parts -> nul_free (path_join parts).
Hypothesis Hfs : forall path, nul_free path -> path_ok path = true.

Local Abbreviation group :=
  (process_group path_ok path_join byteLength zipSize json_stringify pq).
Local Abbreviation dataset :=
  (processFideRatings fetch path_ok path_join byteLength zipSize
     json_stringify pq).

Lemma dir_ok (fed ratingType : jsstring) :
  nul_free fed -> nul_free ratingType ->
  nul_free (path_join [js "data"; fed; ratingType]).
Proof.
  intros Hf Hr. apply Hjoin. repeat constructor; try assumption.
  unfold nul_free. vm_compute. intuition discriminate.
Qed.

Lemma file_ok (fed ratingType ext : jsstring) :
  nul_free fed -> nul_free ratingType -> nul_free ext ->
  path_ok (path_join [path_join [js "data"; fed; ratingType];
                      ratingType ++ ext]) = true.
Proof.
  intros Hf Hr He. apply Hfs, Hjoin. repeat constructor.
  - now apply dir_ok.
  - now apply nul_free_app.
Qed.

Lemma process_group_total header ratingType w fed fedLines :
  nul_free fed -> nul_free ratingType ->
  fedSummary w <> None ->
  exists w',
    group header ratingType w (fed, fedLines) = Ok w'
    /\ fedSummary w' <> None.
Proof.
  intros Hf Hr Hs. unfold process_group, perform. cbn [path_of].
  rewrite (Hfs _ (dir_ok fed ratingType Hf Hr)). cbn [bind].
  rewrite !file_ok
    by (assumption || (unfold nul_free; vm_compute; intuition discriminate)).
  cbn [bind].
  destruct (extractLayout_general header) as (L & -> & _).
  destruct (decode_lines_total L fedLines) as (jsonData & -> & _).
  cbn [bind]. destruct jsonData as [|row rows].
  - cbn [bind emit fedSummary events].
    destruct (fedSummary w); [|congruence].
    eexists. split; [reflexivity|]. discriminate.
  - cbn [bind]. unfold writeParquet. destruct (pq _ _ _);
      cbn [bind emit fedSummary events];
      (destruct (fedSummary w); [|congruence]);
      eexists; (split; [reflexivity|]); discriminate.
Qed.

Lemma dataset_total url ratingType w header dataLines :
  download_lines fetch url = Some (header :: dataLines) ->
  (forall line, In line dataLines -> nul_free (fed_of header line)) ->
  nul_free ratingType ->
  exists w', dataset url ratingType w = Ok w'.
Proof.
  intros Hd Hk Hr.
  destruct (download_lines_inv _ _ _ Hd) as (res & txtEntry & F1 & F2 & F3 & F4).
  unfold processFideRatings. rewrite F1. cbn [bind].
  rewrite F2, F3, F4. cbn [negb].
  destruct (groups_partition header dataLines)
    as (fedMap & -> & _ & P1 & _).
  cbn [bind].
  set (w0 := match fedSummary w with
             | Some _ => w
             | None => mkWorld (events w) (Some [])
             end).
  assert (Hs0 : fedSummary w0 <> None).
  { unfold w0. destruct (fedSummary w) eqn:E; [congruence|discriminate]. }
  pose proof (own_entries_perm fedMap) as Hperm.
  destruct (foldM_invariant (group header ratingType)
              (fun w => fedSummary w <> None)
              (fun g => nul_free (fst g)) (own_entries fedMap))
    with (s := w0) as (w' & Hw' & _).
  - intros s [fed fedLines] Hs Hg. now apply process_group_total.
  - apply Forall_forall. intros [fed fedLines] Hin. cbn [fst].
    apply (Permutation_in _ Hperm) in Hin.
    destruct (P1 fed fedLines Hin) as (_ & Hne & Hfl).
    destruct fedLines as [|l ls]; [congruence|].
    assert (Hin' : In l (l :: ls)) by now left.
    rewrite Hfl in Hin'. apply filter_In in Hin' as [Hdl E].
    apply str_eqb_eq in E. rewrite <- E. now apply Hk.
  - exact Hs0.
  - now exists w'.
Qed.

Lemma processAll_total w :
  (forall src, In src ratingSources ->
     exists header dataLines,
       download_lines fetch (fst src) = Some (header :: dataLines)
       /\ forall line, In line dataLines -> nul_free (fed_of header line)) ->
  exists w1,
    processAll fetch path_ok path_join byteLength zipSize json_stringify pq w
    = Ok w1.
Proof.
  intros H. unfold processAll.
  destruct (foldM_invariant
              (fun w src => dataset (fst src) (snd src) w)
              (fun _ => True)
              (fun src => In src ratingSources) ratingSources)
    with (s := w) as (w1 & Hw1 & _).
  - intros s src _ Hsrc.
    destruct (H src Hsrc) as (header & dataLines & Hd & Hk).
    destruct (dataset_total (fst src) (snd src) s header dataLines Hd Hk)
      as [w' Hw'].
    + destruct Hsrc as [<-|[<-|[<-|[]]]];
        unfold nul_free; vm_compute; intuition discriminate.
    + now exists w'.
  - apply Forall_forall. auto.
  - exact I.
  - now exists w1.
Qed.

Lemma main_total loadTemplate w :
  (forall src, In src ratingSources ->
     exists header dataLines,
       download_lines fetch (fst src) = Some (header :: dataLines)
       /\ forall line, In line dataLines -> nul_free (fed_of header line)) ->
  (exists template, loadTemplate = Ok template) ->
  exists w',
    main fetch path_ok path_join byteLength zipSize json_stringify pq
         loadTemplate w = Ok w'.
Proof.
  intros Hd [template Ht].
  destruct (processAll_total w Hd) as [w1 Hw1].
  exists (generateIndexHtml path_join template w1).
  unfold main. rewrite Hw1. cbn [bind].
  unfold callGenerateIndexHtml. rewrite Ht. cbn [bind].
  cbn [indexPage path_of]. rewrite Hfs; [reflexivity|].
  apply Hjoin. repeat constructor;
    unfold nul_free; vm_compute; intuition discriminate.
Qed.

End RunTotal.

(** ** The Parquet export cannot stop the run *)

(** C7: whatever the Parquet export does, one that fails for every
    group included, the run of [main] returns when the three downloads
    have a text file with a header, the template is read and compiled,
    path.join puts no U+0000 into a path, the file system accepts every
    path without U+0000 and no key of a line holds U+0000.  A run that
    returns went through the three datasets and ended by writing the
    listing page.  For every line of every list whose key is not empty
    its trace has the directory of the federation, the text, JSON and
    CSV files and their archives, and the summary has the entry of the
    federation with the number of its lines; where the export of the
    group failed, the message of the catch is in the trace and the entry
    keeps the Parquet size 0 B.  With any other export the run returns
    as well, with the same operations apart from the Parquet files and
    messages and the same summary apart from the Parquet sizes. *)
Theorem parquet_failure_isolated :
  forall (fetch : jsstring -> result Response)
         (path_ok : jsstring -> bool)
         (path_join : list jsstring -> jsstring)
         (byteLength : jsstring -> N)
         (zipSize : jsstring -> jsstring -> N)
         (json_stringify : list (obj jsval) -> jsstring)
         (pq : jsstring -> list jsstring -> list (obj jsval) -> option N)
         (loadTemplate :
            result (list jsstring -> list FederationRow -> jsstring))
         (w : World),
    ((forall parts, Forall nul_free parts -> nul_free (path_join parts)) ->
     (forall path, nul_free path -> path_ok path = true) ->
     (forall src, In src ratingSources ->
        exists header dataLines,
          download_lines fetch (fst src) = Some (header :: dataLines)
          /\ forall line, In line dataLines ->
                          nul_free (fed_of header line)) ->
     (exists template, loadTemplate = Ok template) ->
     exists w',
       main fetch path_ok path_join byteLength zipSize json_stringify pq
            loadTemplate w = Ok w')
    /\ (forall w',
           main fetch path_ok path_join byteLength zipSize json_stringify pq
                loadTemplate w = Ok w' ->
           exists w1 template evs summary,
             processAll fetch path_ok path_join byteLength zipSize
                        json_stringify pq w = Ok w1
             /\ loadTemplate = Ok template
             /\ w' = generateIndexHtml path_join template w1
             /\ events w1 = events w ++ evs
             /\ fedSummary w1 = Some summary
             /\ (forall i url rt header dataLines line,
                    nth_error ratingSources i = Some (url, rt) ->
                    download_lines fetch url = Some (header :: dataLines) ->
                    In line dataLines -> fed_of header line <> [] ->
                    group_done pq path_join json_stringify header rt
                      (fed_of header line)
                      (filter (fun l => str_eqb (fed_of header l)
                                                (fed_of header line))
                              dataLines)
                      evs summary)
             /\ (forall pq',
                    exists w1',
                      processAll fetch path_ok path_join byteLength zipSize
                                 json_stringify pq' w = Ok w1'
                      /\ erase_world w1' = erase_world w1
                      /\ main fetch path_ok path_join byteLength zipSize
                              json_stringify pq' loadTemplate w
                         = Ok (generateIndexHtml path_join template w1'))).
Proof.
  intros fetch path_ok path_join byteLength zipSize json_stringify pq
         loadTemplate w.
  split.
  { intros Hjoin Hfs Hd Ht.
    exact (main_total fetch path_ok path_join byteLength zipSize
             json_stringify pq Hjoin Hfs loadTemplate w Hd Ht). }
  intros w' H. unfold main in H.
  destruct (processAll fetch path_ok path_join byteLength zipSize
              json_stringify pq w) as [w1|] eqn:HP; [|discriminate H].
  cbn [bind] in H. unfold callGenerateIndexHtml in H.
  destruct loadTemplate as [template|] eqn:HT; [|discriminate H].
  cbn [bind] in H.
  destruct (path_ok (path_of (indexPage path_join template w1))) eqn:Hok;
    [|discriminate H].
  injection H as <-.
  destruct (processAll_ok _ _ _ _ _ _ _ _ _ HP) as (evs & summary & A & B & C).
  exists w1, template, evs, summary.
  split; [reflexivity|]. split; [reflexivity|]. split; [reflexivity|].
  split; [exact A|]. split; [exact B|]. split; [exact C|].
  intros pq'.
  pose proof (processAll_erase fetch path_ok path_join byteLength zipSize
                json_stringify pq pq' w) as He.
  rewrite HP in He.
  destruct (processAll fetch path_ok path_join byteLength zipSize
              json_stringify pq' w) as [w1'|] eqn:HP';
    cbn [erase_result] in He; [|discriminate He].
  exists w1'.
  split; [reflexivity|]. split; [congruence|].
  unfold main. rewrite HP'. cbn [bind]. unfold callGenerateIndexHtml.
  cbn [bind].
  rewrite (path_of_indexPage path_join template w1' w1), Hok. reflexivity.
Qed.

Lemma parquet_failure_isolated_witness :
  let header := js "ID  Fed" in
  let dataLines := [js "1   USA"; js "2   IND"; js "3   USA"] in
  let res := mkResponse true
               [(js "list.txt", join [NEWLINE] (header :: dataLines))] in
  exists w1 summary e,
    processAll (fun _ => Ok res) (fun path => negb (existsb (N.eqb 0) path))
      (join (js "/")) (fun _ => 0%N) (fun _ _ => 0%N) (fun _ => [])
      (fun _ _ _ => None) (mkWorld [] None) = Ok w1
    /\ fedSummary w1 = Some summary
    /\ In (ConsoleError (js "Failed to write Parquet:")) (events w1)
    /\ In (WriteFile (js "data/USA/rapid/rapid.csv")
                     (js "ID,Fed" ++ [NEWLINE] ++ js "1,USA" ++ [NEWLINE]
                      ++ js "3,USA")) (events w1)
    /\ entry_of summary (js "USA") (js "rapid") = Some e
    /\ count e = 2
    /\ parquetSize e = js "0 B".
Proof.
  intros header dataLines res.
  destruct (parquet_failure_isolated (fun _ => Ok res)
              (fun path => negb (existsb (N.eqb 0) path))
              (join (js "/")) (fun _ => 0%N) (fun _ _ => 0%N) (fun _ => [])
              (fun _ _ _ => None) (Ok (fun _ _ => [])) (mkWorld [] None))
    as (Hret & Hdone).
  destruct Hret as [w' E].
  - intros parts Hp. apply nul_free_join; [|exact Hp].
    unfold nul_free. vm_compute. intuition discriminate.
  - exact no_nul_accepted.
  - intros src _. exists header, dataLines. split; [reflexivity|].
    intros line [<-|[<-|[<-|[]]]];
      unfold nul_free; vm_compute; intuition discriminate.
  - eexists. reflexivity.
  - destruct (Hdone w' E)
      as (w1 & template & evs & summary & HP & _ & _ & HE & HS & HG & _).
    assert (Hne : fed_of header (js "1   USA") <> [])
      by (vm_compute; discriminate).
    destruct (HG 1
                (js "http://ratings.fide.com/download/rapid_rating_list.zip")
                (js "rapid") header dataLines (js "1   USA")
                eq_refl eq_refl (or_introl eq_refl) Hne)
      as (L & jd & e & H1 & H2 & H3 & H4 & H5 & H6 & H7 & H8).
    vm_compute in H1. injection H1 as <-.
    vm_compute in H2. injection H2 as <-.
    cbn [events app] in HE. rewrite <- HE in H4, H8.
    exists w1, summary, e.
    split; [exact HP|]. split; [exact HS|].
    split; [exact (proj1 H8)|].
    split; [apply H4; right; right; right; right; left; reflexivity|].
    split; [exact H5|]. split; [exact H6|exact (proj2 H8)].
Defined.

(** ** What decides whether the run returns *)

Lemma dataset_ok_download fetch path_ok path_join byteLength zipSize
  json_stringify pq url ratingType w w' :
  processFideRatings fetch path_ok path_join byteLength zipSize
    json_stringify pq url ratingType w = Ok w' ->
  good_download fetch url.
Proof.
  unfold processFideRatings, good_download.
  destruct (fetch url) as [res|e]; [|discriminate]. cbn [bind].
  destruct (res_ok res) eqn:Eok; cbn [negb]; [|discriminate].
  destruct (find _ (zipEntries res)) as [txtEntry|] eqn:Ef; [|discriminate].
  destruct (split_lines (snd txtEntry)) as [|header dataLines] eqn:El;
    [discriminate|].
  intros _. exists res, txtEntry. repeat split; try assumption.
  rewrite El. discriminate.
Qed.

Lemma foldM_ok_steps {A S} (f : S -> A -> result S) (l : list A) :
  forall s s', foldM f l s = Ok s' ->
               forall a, In a l -> exists s1 s2, f s1 a = Ok s2.
Proof.
  induction l as [|x l IH]; intros s s' H a Hin; [destruct Hin|].
  cbn [foldM] in H. destruct (f s x) as [s1|e] eqn:E; [|discriminate H].
  cbn [bind] in H. destruct Hin as [->|Hin].
  - now exists s, s1.
  - eapply IH; eauto.
Qed.

(** X8: a run of main returns only if each of the three downloads is ok
    and has a text file with a line in its archive, the template is
    read and compiled, and the path of the listing page is accepted.  It
    does return when, besides, path.join puts no U+0000 into a path, the
    file system accepts every path without U+0000 and no key of a line
    holds U+0000, whatever the Parquet export does.  If the first
    response is not ok the run throws the download error; if its archive
    has no text file it throws the missing-file error; and if the
    template cannot be read or compiled the run throws after the three
    datasets were written. *)
Theorem what_decides_the_run :
  forall (fetch : jsstring -> result Response)
         (path_ok : jsstring -> bool)
         (path_join : list jsstring -> jsstring)
         (byteLength : jsstring -> N)
         (zipSize : jsstring -> jsstring -> N)
         (json_stringify : list (obj jsval) -> jsstring)
         (pq : jsstring -> list jsstring -> list (obj jsval) -> option N)
         (loadTemplate :
            result (list jsstring -> list FederationRow -> jsstring))
         (w : World),
    let run := main fetch path_ok path_join byteLength zipSize json_stringify
                    pq loadTemplate w in
    let first := js "http://ratings.fide.com/download/standard_rating_list.zip" in
    (forall w', run = Ok w' ->
       (forall src, In src ratingSources -> good_download fetch (fst src))
       /\ (exists template, loadTemplate = Ok template)
       /\ path_ok (path_join [js "data"; js "index.html"]) = true)
    /\ ((forall parts, Forall nul_free parts -> nul_free (path_join parts)) ->
        (forall path, nul_free path -> path_ok path = true) ->
        (forall src, In src ratingSources ->
           exists header dataLines,
             download_lines fetch (fst src) = Some (header :: dataLines)
             /\ forall line, In line dataLines ->
                             nul_free (fed_of header line)) ->
        (exists template, loadTemplate = Ok template) ->
        exists w', run = Ok w')
    /\ (forall res, fetch first = Ok res -> res_ok res = false ->
                    run = Throw DownloadFailed)
    /\ (forall res, fetch first = Ok res -> res_ok res = true ->
                    find (fun e => endsWith (js ".txt") (fst e))
                         (zipEntries res) = None ->
                    run = Throw NoTxtInZip)
    /\ (forall w1 err,
           processAll fetch path_ok path_join byteLength zipSize
                      json_stringify pq w = Ok w1 ->
           loadTemplate = Throw err ->
           run = Throw err).
Proof.
  intros fetch path_ok path_join byteLength zipSize json_stringify pq
         loadTemplate w run first.
  split; [|split; [|split; [|split]]].
  - intros w' H. unfold run, main in H.
    destruct (processAll fetch path_ok path_join byteLength zipSize
                json_stringify pq w) as [w1|e] eqn:E; [|discriminate H].
    cbn [bind] in H. unfold callGenerateIndexHtml in H.
    destruct loadTemplate as [template|]; [|discriminate H].
    cbn [bind] in H.
    destruct (path_ok (path_of (indexPage path_join template w1))) eqn:Hok;
      [|discriminate H].
    split; [|split; [now exists template|exact Hok]].
    intros src Hsrc. unfold processAll in E.
    destruct (foldM_ok_steps _ _ _ _ E src Hsrc) as (s1 & s2 & Hs).
    eapply dataset_ok_download; eauto.
  - intros Hjoin Hfs Hd Ht.
    exact (main_total fetch path_ok path_join byteLength zipSize
             json_stringify pq Hjoin Hfs loadTemplate w Hd Ht).
  - intros res Hf Hok. unfold run, main, processAll, ratingSources.
    cbn [foldM fst snd]. unfold processFideRatings at 1.
    fold first. rewrite Hf. cbn [bind]. now rewrite Hok.
  - intros res Hf Hok Hfind. unfold run, main, processAll, ratingSources.
    cbn [foldM fst snd]. unfold processFideRatings at 1.
    fold first. rewrite Hf. cbn [bind]. now rewrite Hok, Hfind.
  - intros w1 err HP HT. unfold run, main. rewrite HP. cbn [bind].
    unfold callGenerateIndexHtml. now rewrite HT.
Qed.

Lemma what_decides_the_run_witness :
  let header := js "ID  Fed" in
  let dataLines := [js "1   USA"; js "2   IND"; js "3   USA"] in
  let res := mkResponse true
               [(js "list.txt", join [NEWLINE] (header :: dataLines))] in
  exists w',
    main (fun _ => Ok res) (fun path => negb (existsb (N.eqb 0) path))
         (join (js "/")) (fun _ => 0%N) (fun _ _ => 0%N) (fun _ => [])
         (fun _ _ _ => None) (Ok (fun _ _ => [])) (mkWorld [] None)
    = Ok w'.
Proof.
  intros header dataLines res.
  destruct (what_decides_the_run (fun _ => Ok res)
              (fun path => negb (existsb (N.eqb 0) path))
              (join (js "/")) (fun _ => 0%N) (fun _ _ => 0%N) (fun _ => [])
              (fun _ _ _ => None) (Ok (fun _ _ => [])) (mkWorld [] None))
    as (_ & H & _).
  apply H.
  - intros parts Hp. apply nul_free_join; [|exact Hp].
    unfold nul_free. vm_compute. intuition discriminate.
  - exact no_nul_accepted.
  - intros src _. exists header, dataLines. split; [reflexivity|].
    intros line [<-|[<-|[<-|[]]]];
      unfold nul_free; vm_compute; intuition discriminate.
  - eexists. reflexivity.
Defined.

(** ** The summary, the listing page and the files of a returned run *)

(** X10: when the processing of a dataset returns, the summary holds for
    every line with a key that is not empty an entry under the key of
    the line and the rating type of the dataset whose count is the
    number of lines of that key and whose text link is
    key/type/type.txt; entries of other rating types and of federations
    the dataset does not have are as before. *)
Theorem dataset_summary_counts :
  forall (fetch : jsstring -> result Response)
         (path_ok : jsstring -> bool)
         (path_join : list jsstring -> jsstring)
         (byteLength : jsstring -> N)
         (zipSize : jsstring -> jsstring -> N)
         (json_stringify : list (obj jsval) -> jsstring)
         (pq : jsstring -> list jsstring -> list (obj jsval) -> option N)
         (url ratingType : jsstring) (w w' : World) (header : jsstring)
         (dataLines : list jsstring),
    processFideRatings fetch path_ok path_join byteLength zipSize
      json_stringify pq url ratingType w = Ok w' ->
    download_lines fetch url = Some (header :: dataLines) ->
    ratingType <> js "__proto__" ->
    exists summary',
      fedSummary w' = Some summary'
      /\ (forall line,
             In line dataLines -> fed_of header line <> [] ->
             exists e,
               entry_of summary' (fed_of header line) ratingType = Some e
               /\ count e
                  = length (filter (fun l => str_eqb (fed_of header l)
                                                     (fed_of header line))
                                   dataLines)
               /\ txt e = fed_of header line ++ js "/" ++ ratingType
                          ++ js "/" ++ ratingType ++ js ".txt")
      /\ (forall fed rt,
             rt <> ratingType
             \/ (forall line, In line dataLines -> fed_of header line <> fed) ->
             entry_of summary' fed rt
             = entry_of match fedSummary w with Some s => s | None => [] end
                        fed rt).
Proof.
  intros fetch path_ok path_join byteLength zipSize json_stringify pq
         url ratingType w w' header dataLines H Hd Hp.
  destruct (dataset_ok _ _ _ _ _ _ _ _ _ _ _ _ _ H Hd Hp)
    as (evs & s' & _ & B & _ & C & F).
  exists s'. split; [exact B|]. split; [|exact F].
  intros line Hin Hne.
  destruct (C line Hin Hne) as (L & jd & e & _ & _ & _ & _ & H5 & H6 & H7 & _).
  exists e. split; [exact H5|]. split; [exact H6|exact H7].
Qed.

Lemma dataset_summary_counts_witness :
  let header := js "ID  Fed" in
  let dataLines := [js "1   USA"; js "2   IND"; js "3   USA"] in
  let res := mkResponse true
               [(js "list.txt", join [NEWLINE] (header :: dataLines))] in
  exists w' summary' e,
    processFideRatings (fun _ => Ok res) (fun _ => true) (join (js "/"))
      (fun _ => 0%N) (fun _ _ => 0%N) (fun _ => []) (fun _ _ _ => None)
      (js "url") (js "rapid") (mkWorld [] None) = Ok w'
    /\ fedSummary w' = Some summary'
    /\ entry_of summary' (js "USA") (js "rapid") = Some e
    /\ count e = 2.
Proof.
  intros header dataLines res.
  destruct (processFideRatings (fun _ => Ok res) (fun _ => true)
              (join (js "/")) (fun _ => 0%N) (fun _ _ => 0%N) (fun _ => [])
              (fun _ _ _ => None) (js "url") (js "rapid") (mkWorld [] None))
    as [w'|err] eqn:E.
  2:{ vm_compute in E. discriminate E. }
  assert (Hp : js "rapid" <> js "__proto__") by discriminate.
  destruct (dataset_summary_counts _ _ _ _ _ _ _ _ _ _ _ header dataLines
              E eq_refl Hp) as (s' & Hs & H & _).
  destruct (H (js "1   USA")) as (e & He & Hc & _);
    [now left | vm_compute; discriminate |].
  exists w', s', e. repeat split; assumption.
Defined.

(** X16: when a run of main returns, it ended by writing data/index.html
    from the summary, and the listing agrees with the lists: for every
    line of the i-th list whose key is not empty, the row of that
    federation holds in its i-th cell an entry whose count is the number
    of lines of the federation in that list and whose text link is
    key/type/type.txt; a later list does not overwrite the entries of an
    earlier one. *)
Theorem listing_agrees_with_the_lists :
  forall (fetch : jsstring -> result Response)
         (path_ok : jsstring -> bool)
         (path_join : list jsstring -> jsstring)
         (byteLength : jsstring -> N)
         (zipSize : jsstring -> jsstring -> N)
         (json_stringify : list (obj jsval) -> jsstring)
         (pq : jsstring -> list jsstring -> list (obj jsval) -> option N)
         (loadTemplate :
            result (list jsstring -> list FederationRow -> jsstring))
         (w w' : World),
    main fetch path_ok path_join byteLength zipSize json_stringify pq
         loadTemplate w = Ok w' ->
    exists w1 template summary,
      processAll fetch path_ok path_join byteLength zipSize json_stringify
                 pq w = Ok w1
      /\ loadTemplate = Ok template
      /\ fedSummary w1 = Some summary
      /\ w' = emit w1 (WriteFile (path_join [js "data"; js "index.html"])
                         (template ratingTypes (federations summary)))
      /\ forall i url rt header dataLines line,
           nth_error ratingSources i = Some (url, rt) ->
           download_lines fetch url = Some (header :: dataLines) ->
           In line dataLines -> fed_of header line <> [] ->
           exists cells e,
             In (fed_of header line, cells) (federations summary)
             /\ nth_error cells i = Some (Some e)
             /\ count e
                = length (filter (fun l => str_eqb (fed_of header l)
                                                   (fed_of header line))
                                 dataLines)
             /\ txt e = fed_of header line ++ js "/" ++ rt ++ js "/" ++ rt
                        ++ js ".txt".
Proof.
  intros fetch path_ok path_join byteLength zipSize json_stringify pq
         loadTemplate w w' H.
  unfold main in H.
  destruct (processAll fetch path_ok path_join byteLength zipSize
              json_stringify pq w) as [w1|] eqn:HP; [|discriminate H].
  cbn [bind] in H. unfold callGenerateIndexHtml in H.
  destruct loadTemplate as [template|] eqn:HT; [|discriminate H].
  cbn [bind] in H.
  destruct (path_ok (path_of (indexPage path_join template w1)));
    [|discriminate H].
  injection H as <-.
  destruct (processAll_ok _ _ _ _ _ _ _ _ _ HP) as (evs & summary & A & B & C).
  exists w1, template, summary.
  split; [reflexivity|]. split; [reflexivity|]. split; [exact B|].
  split; [unfold generateIndexHtml, indexPage; now rewrite B|].
  intros i url rt header dataLines line Hi Hd Hin Hne.
  destruct (C i url rt header dataLines line Hi Hd Hin Hne)
    as (L & jd & e & _ & _ & _ & _ & H5 & H6 & H7 & _).
  exists (map (entry_of summary (fed_of header line)) ratingTypes), e.
  split; [eapply federations_row; exact H5|].
  split; [|split; assumption].
  destruct i as [|[|[|i]]]; cbn [nth_error ratingSources] in Hi;
    [| | |destruct i; discriminate Hi];
    injection Hi as <- <-; cbn [ratingTypes map nth_error];
    now rewrite <- H5.
Qed.

Lemma listing_agrees_with_the_lists_witness :
  let header := js "ID  Fed" in
  let dataLines := [js "1   USA"; js "2   IND"; js "3   USA"] in
  let res := mkResponse true
               [(js "list.txt", join [NEWLINE] (header :: dataLines))] in
  exists w1 summary cells e,
    processAll (fun _ => Ok res) (fun _ => true) (join (js "/"))
      (fun _ => 0%N) (fun _ _ => 0%N) (fun _ => []) (fun _ _ _ => None)
      (mkWorld [] None) = Ok w1
    /\ fedSummary w1 = Some summary
    /\ In (js "USA", cells) (federations summary)
    /\ nth_error cells 1 = Some (Some e)
    /\ count e = 2
    /\ txt e = js "USA/rapid/rapid.txt".
Proof.
  intros header dataLines res.
  destruct (main (fun _ => Ok res) (fun _ => true) (join (js "/"))
              (fun _ => 0%N) (fun _ _ => 0%N) (fun _ => [])
              (fun _ _ _ => None) (Ok (fun _ _ => [])) (mkWorld [] None))
    as [w'|err] eqn:E.
  2:{ vm_compute in E. discriminate E. }
  destruct (listing_agrees_with_the_lists _ _ _ _ _ _ _ _ _ _ E)
    as (w1 & template & summary & HP & _ & HS & _ & H).
  assert (Hne : fed_of header (js "1   USA") <> [])
    by (vm_compute; discriminate).
  destruct (H 1 (js "http://ratings.fide.com/download/rapid_rating_list.zip")
              (js "rapid") header dataLines (js "1   USA")
              eq_refl eq_refl (or_introl eq_refl) Hne)
    as (cells & e & H1 & H2 & H3 & H4).
  exists w1, summary, cells, e.
  split; [exact HP|]. split; [exact HS|]. split; [exact H1|].
  split; [exact H2|]. split; [exact H3|exact H4].
Defined.


